(** * MusicContext: playback resolution, history and result merging

    A shallow embedding of [src/contexts/MusicContext.js].

    JavaScript values are modelled as the code uses them: a property that may
    be absent is an [option] ([None] is [undefined]); strings are byte strings
    (UTF-8); arrays are lists; an object whose identity matters (the operand of
    [indexOf]) is a pair of an address and its fields.  React state is an
    explicit [State] record, a handler sees the values of the render that
    created it through a [Closure], and every outward effect (a fetch, a
    notification, a timer, an abort) is appended to the state's [log]. *)

From Stdlib Require Import String Ascii DecimalString Arith NArith Bool Lia List.
Import ListNotations.
Open Scope string_scope.
Open Scope nat_scope.
Open Scope list_scope.

(** ** JavaScript helpers *)

Module JS.

(** [x || y] on an optional string: [undefined] and [''] are falsy. *)
Definition truthy_str (x : option string) : bool :=
  match x with
  | Some s => negb (String.eqb s "")
  | None => false
  end.

Definition or_str (x y : option string) : option string :=
  if truthy_str x then x else y.

(** [x || y] on an optional number: [undefined] and [0] are falsy. *)
Definition truthy_num (x : option nat) : bool :=
  match x with
  | Some (S _) => true
  | _ => false
  end.

Definition or_num (x y : option nat) : option nat :=
  if truthy_num x then x else y.

(** String conversion inside a template literal. *)
Definition show_nat (n : nat) : string :=
  NilEmpty.string_of_uint (Nat.to_uint n).

Definition show_str (x : option string) : string :=
  match x with
  | Some s => s
  | None => "undefined"
  end.

Definition show_num (x : option nat) : string :=
  match x with
  | Some n => show_nat n
  | None => "undefined"
  end.

(** [a === b] on optional strings and numbers. *)
Definition eq_str (a b : option string) : bool :=
  match a, b with
  | Some x, Some y => String.eqb x y
  | None, None => true
  | _, _ => false
  end.

(** [s.includes(t)]. *)
Fixpoint includes (s t : string) : bool :=
  prefix t s ||
  match s with
  | EmptyString => false
  | String _ s' => includes s' t
  end.

Definition in_range (lo hi : nat) (c : ascii) : bool :=
  (lo <=? nat_of_ascii c) && (nat_of_ascii c <=? hi).

Definition is_alpha (c : ascii) : bool :=
  in_range 65 90 c || in_range 97 122 c.

Definition is_digit (c : ascii) : bool := in_range 48 57 c.

Definition is_alnum (c : ascii) : bool := is_alpha c || is_digit c.

Definition to_lower (c : ascii) : ascii :=
  if in_range 65 90 c then ascii_of_nat (nat_of_ascii c + 32) else c.

Definition hex_digit (n : nat) : ascii :=
  if n <? 10 then ascii_of_nat (48 + n) else ascii_of_nat (55 + n).

(** [encodeURIComponent]: every byte of the UTF-8 encoding is escaped as
    [%XX] except the unreserved characters [A-Z a-z 0-9 - _ . ! ~ * ' ( )]. *)
Definition uri_unreserved (c : ascii) : bool :=
  is_alnum c ||
  existsb (Ascii.eqb c) ["-"; "_"; "."; "!"; "~"; "*"; "'"; "("; ")"]%char.

Fixpoint encodeURIComponent (s : string) : string :=
  match s with
  | EmptyString => EmptyString
  | String c s' =>
      if uri_unreserved c then String c (encodeURIComponent s')
      else String "%" (String (hex_digit (nat_of_ascii c / 16))
                         (String (hex_digit (nat_of_ascii c mod 16))
                            (encodeURIComponent s')))
  end.

(** Every character of [s] satisfies [p]. *)
Fixpoint all_chars (p : ascii -> bool) (s : string) : bool :=
  match s with
  | EmptyString => true
  | String c s' => p c && all_chars p s'
  end.

(** [x || d] where [d] is a string literal. *)
Definition or_default (x : option string) (d : string) : string :=
  match x with
  | Some s => if String.eqb s "" then d else s
  | None => d
  end.

(** The white space and line terminators that [trim] strips, in the UTF-8
    encoding of the string.  One byte: TAB, LF, VT, FF, CR and SP. *)
Definition is_whitespace (c : ascii) : bool :=
  existsb (Nat.eqb (nat_of_ascii c)) [9; 10; 11; 12; 13; 32].

(** Two bytes: U+00A0 (C2 A0). *)
Definition is_whitespace2 (a b : ascii) : bool :=
  (nat_of_ascii a =? 194) && (nat_of_ascii b =? 160).

(** Three bytes: U+1680 (E1 9A 80); U+2000 to U+200A, U+2028, U+2029 and
    U+202F (E2 80 80 to 8A, A8, A9, AF); U+205F (E2 81 9F); U+3000 (E3 80 80);
    U+FEFF (EF BB BF). *)
Definition is_whitespace3 (a b c : ascii) : bool :=
  let a := nat_of_ascii a in
  let b := nat_of_ascii b in
  let c := nat_of_ascii c in
  (a =? 225) && (b =? 154) && (c =? 128) ||
  (a =? 226) && (b =? 128) &&
    ((128 <=? c) && (c <=? 138) || (c =? 168) || (c =? 169) || (c =? 175)) ||
  (a =? 226) && (b =? 129) && (c =? 159) ||
  (a =? 227) && (b =? 128) && (c =? 128) ||
  (a =? 239) && (b =? 187) && (c =? 191).

(** [s.trimStart()]: the string from its first code point that is not white
    space. *)
Fixpoint trimStart (s : string) : string :=
  match s with
  | EmptyString => EmptyString
  | String a r1 =>
      if is_whitespace a then trimStart r1
      else
        match r1 with
        | EmptyString => s
        | String b r2 =>
            if is_whitespace2 a b then trimStart r2
            else
              match r2 with
              | EmptyString => s
              | String c r3 => if is_whitespace3 a b c then trimStart r3 else s
              end
        end
  end.

(** [s.trimEnd()]: the string cut where what is left is white space only. *)
Fixpoint trimEnd (s : string) : string :=
  match s with
  | EmptyString => EmptyString
  | String c s' =>
      if String.eqb (trimStart s) "" then EmptyString else String c (trimEnd s')
  end.

(** [s.trim()]. *)
Definition trim (s : string) : string := trimEnd (trimStart s).

(** [!s] on a string: only [''] is falsy. *)
Definition not_str (s : string) : bool := String.eqb s "".

End JS.

(** ** Data model *)

(** The [data.data] object of a provider-B ('qq') detail response. *)
Record QQData := {
  qq_id : option string;
  qq_url : option string;
  qq_cover : option string;
  qq_meta : list (string * string)
}.

(** A song object.  Stubs, resolved songs and history entries are the same
    JavaScript objects with more or fewer properties present; [song_song] and
    [song_author] are the raw provider properties that the spread
    [{...song}] of a search result carries along. *)
Record Song := {
  song_id : option string;
  song_name : option string;
  song_singer : option string;
  song_platform : option string;
  song_cover : option string;
  song_url : option string;
  song_lyrics : option (list string);
  song_searchTerm : option string;
  song_searchIndex : option nat;
  song_details : option QQData;
  song_requestUrl : option string;
  song_quality : option nat;
  song_song : option string;
  song_author : option string
}.

(** What a handler reads from the render that created it. *)
Record Closure := {
  cl_isLoading : bool;
  cl_currentSong : option Song;
  cl_isPlaying : bool;
  cl_searchTerm : string;
  cl_selectedQuality : option nat;
  cl_playQueue : list Song
}.

(** [currentSong?.url] *)
Definition currentSong_url (cur : option Song) : option string :=
  match cur with
  | Some s => song_url s
  | None => None
  end.

(** ** SongIdentity *)

Definition isSameSong (song1 song2 : Song) : bool :=
  JS.eq_str (song_name song1) (song_name song2) &&
  JS.eq_str (song_singer song1) (song_singer song2) &&
  JS.eq_str (song_platform song1) (song_platform song2).

(** ** Fetch descriptors *)

(** The template literal
    [/api/sby?platform=${p}&term=${encodeURIComponent(t)}&index=${i}${q ? `&quality=${q}` : ''}]. *)
Definition descriptor (p t : option string) (i q : option nat) : string :=
  ("/api/sby?platform=" ++ JS.show_str p ++
   "&term=" ++ JS.encodeURIComponent (JS.show_str t) ++
   "&index=" ++ JS.show_num i ++
   (if JS.truthy_num q then "&quality=" ++ JS.show_num q else ""))%string.

(** ** HistoryStore *)

Definition MAX_HISTORY : nat := 50.

(** The [simplifiedSong] literal of [addToHistory]. *)
Definition simplifiedSong (cl : Closure) (song : Song) : Song :=
  {| song_id := song_id song;
     song_name := song_name song;
     song_singer := song_singer song;
     song_cover := song_cover song;
     song_url := song_url song;
     song_lyrics := Some (match song_lyrics song with Some l => l | None => [] end);
     song_platform := song_platform song;
     song_requestUrl :=
       Some (descriptor (song_platform song)
               (JS.or_str (song_searchTerm song) (Some (cl_searchTerm cl)))
               (song_searchIndex song)
               (cl_selectedQuality cl));
     song_searchTerm := None;
     song_searchIndex := None;
     song_details := None;
     song_quality := None;
     song_song := None;
     song_author := None |}.

(** The updater that [addToHistory] hands to [setPlayHistory]. *)
Definition addToHistory (cl : Closure) (song : Song) (prev : list Song) : list Song :=
  let filtered := filter (fun s => negb (isSameSong s song)) prev in
  firstn MAX_HISTORY (simplifiedSong cl song :: filtered).

(** The updater of [removeFromHistory]. *)
Definition removeFromHistory (song : Song) (prev : list Song) : list Song :=
  filter (fun s => negb (isSameSong s song)) prev.

(** ** UrlValidator

    [isValidUrl] delegates to the platform's [URL] constructor, called without
    a base.  The constructor is modelled after the basic URL parser of the URL
    Standard up to the places where it can return failure: input
    preprocessing, the scheme states, the authority, host and port states and
    the file host state.  The path, query and fragment states never fail.
    Parsing of a non-empty host (domain, IPv4, IPv6 or opaque host) is left to
    the collaborator [host_parser]. *)

(** What the embedding takes from outside the file: the host parser of the
    platform and the [toggleQueue] capability of the play-queue hook, as a
    transformer of the queue. *)
Class Collaborators := {
  host_parser : bool -> string -> bool;
  toggleQueue : Song -> list Song -> list Song
}.

Record Error := {
  err_name : string;
  err_message : string
}.

Definition mkError (msg : string) : Error :=
  {| err_name := "Error"; err_message := msg |}.

Definition TypeError (msg : string) : Error :=
  {| err_name := "TypeError"; err_message := msg |}.

Module URL.

Definition is_c0_or_space (c : ascii) : bool := nat_of_ascii c <=? 32.

Definition is_tab_or_newline (c : ascii) : bool :=
  existsb (Nat.eqb (nat_of_ascii c)) [9; 10; 13].

Fixpoint trim_leading (s : string) : string :=
  match s with
  | EmptyString => EmptyString
  | String c s' => if is_c0_or_space c then trim_leading s' else s
  end.

Fixpoint trim_trailing (s : string) : string :=
  match s with
  | EmptyString => EmptyString
  | String c s' =>
      match trim_trailing s' with
      | EmptyString => if is_c0_or_space c then EmptyString else String c EmptyString
      | r => String c r
      end
  end.

Fixpoint remove_tab_newline (s : string) : string :=
  match s with
  | EmptyString => EmptyString
  | String c s' =>
      if is_tab_or_newline c then remove_tab_newline s'
      else String c (remove_tab_newline s')
  end.

Definition preprocess (input : string) : string :=
  remove_tab_newline (trim_trailing (trim_leading input)).

Definition is_scheme_char (c : ascii) : bool :=
  JS.is_alnum c || existsb (Ascii.eqb c) ["+"; "-"; "."]%char.

(** Scheme state: the lower-cased scheme and what follows the colon. *)
Fixpoint scheme_state (s : string) : option (string * string) :=
  match s with
  | EmptyString => None
  | String c s' =>
      if Ascii.eqb c ":" then Some (EmptyString, s')
      else if is_scheme_char c then
        match scheme_state s' with
        | Some (scheme, rest) => Some (String (JS.to_lower c) scheme, rest)
        | None => None
        end
      else None
  end.

(** Scheme start state; without a base the no-scheme state is a failure. *)
Definition scheme_start_state (s : string) : option (string * string) :=
  match s with
  | EmptyString => None
  | String c _ => if JS.is_alpha c then scheme_state s else None
  end.

Definition is_special (scheme : string) : bool :=
  existsb (String.eqb scheme) ["ftp"; "file"; "http"; "https"; "ws"; "wss"].

Definition is_slash (c : ascii) : bool :=
  Ascii.eqb c "/" || Ascii.eqb c "\".

(** Special authority slashes and special authority ignore slashes states. *)
Fixpoint ignore_slashes (s : string) : string :=
  match s with
  | EmptyString => EmptyString
  | String c s' => if is_slash c then ignore_slashes s' else s
  end.

Definition ends_authority (special : bool) (c : ascii) : bool :=
  existsb (Ascii.eqb c) ["/"; "?"; "#"]%char || (special && Ascii.eqb c "\").

(** The code points up to the first one that ends the authority. *)
Fixpoint authority_segment (special : bool) (s : string) : string :=
  match s with
  | EmptyString => EmptyString
  | String c s' =>
      if ends_authority special c then EmptyString
      else String c (authority_segment special s')
  end.

(** Authority state: whether an [@] was seen, and the buffer after the last one. *)
Fixpoint authority_state (seg : string) : bool * string :=
  match seg with
  | EmptyString => (false, EmptyString)
  | String c s' =>
      let '(seen, buffer) := authority_state s' in
      if seen then (true, buffer)
      else if Ascii.eqb c "@" then (true, s')
      else (false, seg)
  end.

(** Host state: the buffer up to the first colon outside brackets, and the
    port text after it. *)
Fixpoint host_state (insideBrackets : bool) (s : string) : string * option string :=
  match s with
  | EmptyString => (EmptyString, None)
  | String c s' =>
      if Ascii.eqb c ":" && negb insideBrackets then (EmptyString, Some s')
      else
        let inside := if Ascii.eqb c "[" then true
                      else if Ascii.eqb c "]" then false
                      else insideBrackets in
        let '(buffer, port) := host_state inside s' in
        (String c buffer, port)
  end.

Fixpoint port_value (acc : N) (s : string) : option N :=
  match s with
  | EmptyString => Some acc
  | String c s' =>
      if JS.is_digit c
      then port_value (10 * acc + (N_of_ascii c - 48))%N s'
      else None
  end.

(** Port state: digits only, and at most 2^16 - 1. *)
Definition port_state (s : string) : bool :=
  match port_value 0%N s with
  | Some n => (n <=? 65535)%N
  | None => false
  end.

Definition is_windows_drive_letter (s : string) : bool :=
  match s with
  | String a (String b EmptyString) =>
      JS.is_alpha a && (Ascii.eqb b ":" || Ascii.eqb b "|")
  | _ => false
  end.

Section Parser.

Context `{Collaborators}.

Definition parse_authority (special : bool) (s : string) : bool :=
  let '(atSignSeen, hostport) := authority_state (authority_segment special s) in
  if atSignSeen && String.eqb hostport "" then false
  else
    match host_state false hostport with
    | (buffer, Some port) =>
        if String.eqb buffer "" then false
        else host_parser (negb special) buffer && port_state port
    | (buffer, None) =>
        if special && String.eqb buffer "" then false
        else host_parser (negb special) buffer
    end.

(** File state, file slash state and file host state. *)
Definition parse_file (s : string) : bool :=
  match s with
  | String c1 (String c2 s') =>
      if is_slash c1 && is_slash c2 then
        let buffer := authority_segment true s' in
        if is_windows_drive_letter buffer then true
        else if String.eqb buffer "" then true
        else host_parser false buffer
      else true
  | _ => true
  end.

(** The basic URL parser on [input] with no base: [true] unless it
    returns failure. *)
Definition basic_url_parser (input : string) : bool :=
  match scheme_start_state (preprocess input) with
  | None => false
  | Some (scheme, rest) =>
      if String.eqb scheme "file" then parse_file rest
      else if is_special scheme then parse_authority true (ignore_slashes rest)
      else
        match rest with
        | String "/" (String "/" s') => parse_authority false s'
        | _ => true
        end
  end.

(** [new URL(url)]: the URL record is not used by the caller, so success
    carries no value; a failure throws a [TypeError]. *)
Definition new_URL (url : string) : Error + unit :=
  if basic_url_parser url then inr tt else inl (TypeError "Invalid URL").

End Parser.

End URL.

Section Validator.

Context `{Collaborators}.

(** [try { new URL(url); return true; } catch { return false; }] *)
Definition isValidUrl (url : string) : bool :=
  match URL.new_URL url with
  | inr _ => true
  | inl _ => false
  end.

End Validator.

(** What the validator is specified against. *)

Fixpoint lower (s : string) : string :=
  match s with
  | EmptyString => EmptyString
  | String c s' => String (JS.to_lower c) (lower s')
  end.

(** The input starts with a scheme: a letter, then letters, digits, [+], [-]
    or [.], then a colon. *)
Definition has_scheme (s : string) : Prop :=
  exists c sch rest,
    s = String c (sch ++ ":" ++ rest)%string /\
    JS.is_alpha c = true /\ JS.all_chars URL.is_scheme_char sch = true.

(** The schemes whose URLs must have a host. *)
Definition requires_authority (scheme : string) : bool :=
  existsb (String.eqb scheme) ["ftp"; "http"; "https"; "ws"; "wss"].

(** The input has a scheme that requires an authority and nothing where the
    authority should be: after the colon and any run of slashes the input
    ends, or a query or a fragment starts. *)
Definition lacks_required_authority (s : string) : Prop :=
  exists c sch slashes tail,
    s = String c (sch ++ ":" ++ slashes ++ tail)%string /\
    JS.is_alpha c = true /\ JS.all_chars URL.is_scheme_char sch = true /\
    requires_authority (lower (String c sch)) = true /\
    JS.all_chars URL.is_slash slashes = true /\
    (tail = "" \/ exists t, tail = String "?" t \/ tail = String "#" t).


(** ** ResultMerger *)

(** An object held in an array: its address and its properties.  On objects
    [===], and with it [indexOf], compares addresses. *)
Definition Obj : Type := nat * Song.

Definition strict_eq (a b : Obj) : bool := fst a =? fst b.

(** [arr.indexOf(x)], with [None] for [-1]. *)
Fixpoint indexOf (arr : list Obj) (x : Obj) : option nat :=
  match arr with
  | [] => None
  | y :: arr' => if strict_eq y x then Some 0 else option_map S (indexOf arr' x)
  end.

(** [indexOf(...) === i] *)
Definition is_index (r : option nat) (i : nat) : bool :=
  match r with
  | Some j => j =? i
  | None => false
  end.

(** [s.platform === p] *)
Definition on_platform (p : string) (s : Obj) : bool :=
  JS.eq_str (song_platform (snd s)) (Some p).

(** [songs.find(s => s.platform === p && songs.filter(x => x.platform === p).indexOf(s) === i)] *)
Definition pick (p : string) (songs : list Obj) (i : nat) : option Obj :=
  find (fun s => on_platform p s &&
                 is_index (indexOf (filter (on_platform p) songs) s) i) songs.

(** [if (x) acc.push(x)] *)
Definition push_if {A : Type} (acc : list A) (x : option A) : list A :=
  match x with
  | Some v => acc ++ [v]
  | None => acc
  end.

Definition interleaveResults (songs : list Obj) : list Obj :=
  let maxLength := Nat.max (length (filter (on_platform "wy") songs))
                           (length (filter (on_platform "qq") songs)) in
  fold_left
    (fun interleavedSongs i =>
       let wySong := pick "wy" songs i in
       let qqSong := pick "qq" songs i in
       push_if (push_if interleavedSongs wySong) qqSong)
    (seq 0 maxLength) [].

(** The merge as the specification words it: one item of the first list,
    then one of the second, then the tail of the longer list. *)
Fixpoint interleave {A : Type} (a b : list A) : list A :=
  match a, b with
  | [], _ => b
  | _, [] => a
  | x :: a', y :: b' => x :: y :: interleave a' b'
  end.

(** ** Search *)

(** [arr.map((x, index) => f(x, index))] *)
Fixpoint mapi {A B : Type} (f : A -> nat -> B) (index : nat) (arr : list A) : list B :=
  match arr with
  | [] => []
  | x :: arr' => f x index :: mapi f (S index) arr'
  end.

(** [{...song, platform: 'wy', name: song.name || song.song,
      singer: song.singer || song.author, searchIndex: index}] *)
Definition tag_wy (song : Song) (index : nat) : Song :=
  {| song_id := song_id song;
     song_name := JS.or_str (song_name song) (song_song song);
     song_singer := JS.or_str (song_singer song) (song_author song);
     song_platform := Some "wy";
     song_cover := song_cover song;
     song_url := song_url song;
     song_lyrics := song_lyrics song;
     song_searchTerm := song_searchTerm song;
     song_searchIndex := Some index;
     song_details := song_details song;
     song_requestUrl := song_requestUrl song;
     song_quality := song_quality song;
     song_song := song_song song;
     song_author := song_author song |}.

(** [{...song, platform: 'qq', name: song.song, singer: song.singer,
      searchIndex: index}] *)
Definition tag_qq (song : Song) (index : nat) : Song :=
  {| song_id := song_id song;
     song_name := song_song song;
     song_singer := song_singer song;
     song_platform := Some "qq";
     song_cover := song_cover song;
     song_url := song_url song;
     song_lyrics := song_lyrics song;
     song_searchTerm := song_searchTerm song;
     song_searchIndex := Some index;
     song_details := song_details song;
     song_requestUrl := song_requestUrl song;
     song_quality := song_quality song;
     song_song := song_song song;
     song_author := song_author song |}.

(** The objects of a freshly built array get consecutive fresh addresses. *)
Definition alloc (arr : list Song) : list Obj :=
  combine (seq 0 (length arr)) arr.

(** [interleaveResults] on the tagged concatenation of two provider lists,
    as [onSearch] builds it. *)
Definition merge (A B : list Song) : list Song :=
  map snd (interleaveResults (alloc (mapi tag_wy 0 A ++ mapi tag_qq 0 B))).

(** The [data.data] property of a search response. *)
Inductive Items :=
| ItemsArray (items : list Song)
| ItemsObject (item : Song)
| ItemsMissing.

Record SearchData := {
  sd_code : nat;
  sd_data : Items
}.

Record SearchResponse := {
  sr_success : bool;
  sr_data : option SearchData
}.

(** How a promise settles. *)
Inductive Settled (A : Type) :=
| Fulfilled (value : A)
| RejectedWith (reason : Error).

Arguments Fulfilled {A} value.
Arguments RejectedWith {A} reason.

(** ** State and effects *)

Inductive Effect :=
| Fetch (url : string) (signal : option nat)
| Abort (controller : nat)
| MessageInfo (text : string)
| MessageError (text : string)
| ConsoleError (label : string) (error : Error)
| Delay (controller : nat) (ms : nat)
| SetCurrentSong (controller : nat) (song : Song).

(** The state of the provider.  [controllers] holds the [aborted] flag of
    every [AbortController] made so far, indexed by address;
    [abortControllerRef] is the ref's [current].  [log] lists the effects in
    the order they happened; a [SetCurrentSong] entry names the resolution
    (by its controller) that committed. *)
Record State := {
  songs : list Song;
  currentSong : option Song;
  isPlaying : bool;
  isLoading : bool;
  isSearching : bool;
  searchTerm : string;
  selectedQuality : option nat;
  playHistory : list Song;
  playQueue : list Song;
  abortControllerRef : option nat;
  controllers : list bool;
  log : list Effect
}.

Definition setSongs (v : list Song) (s : State) : State :=
  {| songs := v; currentSong := currentSong s; isPlaying := isPlaying s;
     isLoading := isLoading s; isSearching := isSearching s;
     searchTerm := searchTerm s; selectedQuality := selectedQuality s;
     playHistory := playHistory s; playQueue := playQueue s;
     abortControllerRef := abortControllerRef s; controllers := controllers s;
     log := log s |}.

Definition setCurrentSong (v : option Song) (s : State) : State :=
  {| songs := songs s; currentSong := v; isPlaying := isPlaying s;
     isLoading := isLoading s; isSearching := isSearching s;
     searchTerm := searchTerm s; selectedQuality := selectedQuality s;
     playHistory := playHistory s; playQueue := playQueue s;
     abortControllerRef := abortControllerRef s; controllers := controllers s;
     log := log s |}.

Definition setIsPlaying (v : bool) (s : State) : State :=
  {| songs := songs s; currentSong := currentSong s; isPlaying := v;
     isLoading := isLoading s; isSearching := isSearching s;
     searchTerm := searchTerm s; selectedQuality := selectedQuality s;
     playHistory := playHistory s; playQueue := playQueue s;
     abortControllerRef := abortControllerRef s; controllers := controllers s;
     log := log s |}.

Definition setIsLoading (v : bool) (s : State) : State :=
  {| songs := songs s; currentSong := currentSong s; isPlaying := isPlaying s;
     isLoading := v; isSearching := isSearching s;
     searchTerm := searchTerm s; selectedQuality := selectedQuality s;
     playHistory := playHistory s; playQueue := playQueue s;
     abortControllerRef := abortControllerRef s; controllers := controllers s;
     log := log s |}.

Definition setIsSearching (v : bool) (s : State) : State :=
  {| songs := songs s; currentSong := currentSong s; isPlaying := isPlaying s;
     isLoading := isLoading s; isSearching := v;
     searchTerm := searchTerm s; selectedQuality := selectedQuality s;
     playHistory := playHistory s; playQueue := playQueue s;
     abortControllerRef := abortControllerRef s; controllers := controllers s;
     log := log s |}.

(** [setPlayHistory(prev => f(prev))] *)
Definition setPlayHistory (f : list Song -> list Song) (s : State) : State :=
  {| songs := songs s; currentSong := currentSong s; isPlaying := isPlaying s;
     isLoading := isLoading s; isSearching := isSearching s;
     searchTerm := searchTerm s; selectedQuality := selectedQuality s;
     playHistory := f (playHistory s); playQueue := playQueue s;
     abortControllerRef := abortControllerRef s; controllers := controllers s;
     log := log s |}.

Definition setPlayQueue (f : list Song -> list Song) (s : State) : State :=
  {| songs := songs s; currentSong := currentSong s; isPlaying := isPlaying s;
     isLoading := isLoading s; isSearching := isSearching s;
     searchTerm := searchTerm s; selectedQuality := selectedQuality s;
     playHistory := playHistory s; playQueue := f (playQueue s);
     abortControllerRef := abortControllerRef s; controllers := controllers s;
     log := log s |}.

Definition setAbortControllerRef (v : option nat) (s : State) : State :=
  {| songs := songs s; currentSong := currentSong s; isPlaying := isPlaying s;
     isLoading := isLoading s; isSearching := isSearching s;
     searchTerm := searchTerm s; selectedQuality := selectedQuality s;
     playHistory := playHistory s; playQueue := playQueue s;
     abortControllerRef := v; controllers := controllers s;
     log := log s |}.

Definition setControllers (v : list bool) (s : State) : State :=
  {| songs := songs s; currentSong := currentSong s; isPlaying := isPlaying s;
     isLoading := isLoading s; isSearching := isSearching s;
     searchTerm := searchTerm s; selectedQuality := selectedQuality s;
     playHistory := playHistory s; playQueue := playQueue s;
     abortControllerRef := abortControllerRef s; controllers := v;
     log := log s |}.

Definition emit (e : Effect) (s : State) : State :=
  {| songs := songs s; currentSong := currentSong s; isPlaying := isPlaying s;
     isLoading := isLoading s; isSearching := isSearching s;
     searchTerm := searchTerm s; selectedQuality := selectedQuality s;
     playHistory := playHistory s; playQueue := playQueue s;
     abortControllerRef := abortControllerRef s; controllers := controllers s;
     log := log s ++ [e] |}.

(** The values a handler created by the render of [s] closes over. *)
Definition render (s : State) : Closure :=
  {| cl_isLoading := isLoading s;
     cl_currentSong := currentSong s;
     cl_isPlaying := isPlaying s;
     cl_searchTerm := searchTerm s;
     cl_selectedQuality := selectedQuality s;
     cl_playQueue := playQueue s |}.

(** [controller.signal.aborted] *)
Definition signal_aborted (controller : nat) (s : State) : bool :=
  nth controller (controllers s) false.

Fixpoint set_flag (i : nat) (flags : list bool) : list bool :=
  match flags, i with
  | [], _ => []
  | _ :: flags', 0 => true :: flags'
  | b :: flags', S i' => b :: set_flag i' flags'
  end.

(** [controller.abort()] *)
Definition abort (controller : nat) (s : State) : State :=
  emit (Abort controller) (setControllers (set_flag controller (controllers s)) s).

(** [new AbortController()]: the new controller's address. *)
Definition new_AbortController (s : State) : nat * State :=
  (length (controllers s), setControllers (controllers s ++ [false]) s).

(** ** Messages, as the source spells them *)

Definition MSG_SEARCH_FAILED : string := "搜索失败".
Definition MSG_DETAIL_FAILED : string := "获取歌曲详情失败".
Definition MSG_INVALID_URL : string := "无效的音频 URL".
Definition MSG_AUDIO_FAILED : string := "音频加载失败，请尝试其他歌曲".
Definition MSG_PLAY_FAILED : string := "播放失败".
Definition MSG_PLAY_FAILED_LOG : string := "播放失败:".
Definition MSG_PLAY_FAILED_HINT : string := "播放���败，请尝试其他歌曲".

(** [`正在重试 (${retryCount}/${MAX_RETRIES})...`] *)
Definition MSG_RETRYING (retryCount maxRetries : nat) : string :=
  ("正在重试 (" ++ JS.show_nat retryCount ++ "/" ++ JS.show_nat maxRetries ++ ")...")%string.

(** ** onSearch *)

Definition search_url (p : string) (term : string) : string :=
  ("/api/sby?platform=" ++ p ++ "&term=" ++ JS.encodeURIComponent term)%string.

(** The provider-A part of [combinedSongs]; reading a property of
    [undefined] or calling [map] on something that is not an array throws. *)
Definition wy_items (wyResult : SearchResponse) : Error + list Song :=
  if sr_success wyResult then
    match sr_data wyResult with
    | None => inl (TypeError "Cannot read properties of undefined (reading 'code')")
    | Some data =>
        if sd_code data =? 200 then
          match sd_data data with
          | ItemsArray items => inr (mapi tag_wy 0 items)
          | _ => inl (TypeError "wyResult.data.data.map is not a function")
          end
        else inr []
    end
  else inr [].

(** The provider-B part: [Array.isArray(d) ? d : [d]], then [map]. *)
Definition qq_items (qqResult : SearchResponse) : Error + list Song :=
  if sr_success qqResult then
    match sr_data qqResult with
    | None => inl (TypeError "Cannot read properties of undefined (reading 'code')")
    | Some data =>
        if sd_code data =? 200 then
          match sd_data data with
          | ItemsArray items => inr (mapi tag_qq 0 items)
          | ItemsObject item => inr (mapi tag_qq 0 [item])
          | ItemsMissing =>
              inl (TypeError "Cannot read properties of undefined (reading 'song')")
          end
        else inr []
    end
  else inr [].

(** What the [try] block of [onSearch] computes: [Promise.all] rejects as
    soon as one of the two requests rejects. *)
Definition search_results (wy qq : Settled SearchResponse) : Error + list Song :=
  match wy, qq with
  | RejectedWith e, _ => inl e
  | _, RejectedWith e => inl e
  | Fulfilled wyResult, Fulfilled qqResult =>
      match wy_items wyResult with
      | inl e => inl e
      | inr a =>
          match qq_items qqResult with
          | inl e => inl e
          | inr b => inr (map snd (interleaveResults (alloc (a ++ b))))
          end
      end
  end.

(** [onSearch]: the guard [if (!searchTerm.trim()) return;], the two
    requests, and the [try] block with its [catch] and [finally]. *)
Definition onSearch (cl : Closure) (wy qq : Settled SearchResponse) (s : State) : State :=
  if JS.not_str (JS.trim (cl_searchTerm cl)) then s
  else
    let s := setIsSearching true s in
    let s := emit (Fetch (search_url "wy" (cl_searchTerm cl)) None) s in
    let s := emit (Fetch (search_url "qq" (cl_searchTerm cl)) None) s in
    let s :=
      match search_results wy qq with
      | inr merged => setSongs merged s
      | inl error =>
          emit (ConsoleError "" error) (emit (MessageError MSG_SEARCH_FAILED) s)
      end in
    setIsSearching false s.

(** ** PlaybackResolver *)

Record DetailData := {
  dd_code : nat;
  dd_msg : option string;
  dd_mp3 : option string;
  dd_img : option string;
  dd_lyric : option (list string);
  dd_data : option QQData
}.

Record DetailResponse := {
  dr_success : bool;
  dr_data : option DetailData
}.

(** One call [onPlaySong(song, index, quality, isRetry)] through a handler
    that closes over [call_cl]. *)
Record Call := {
  call_cl : Closure;
  call_song : Song;
  call_index : option nat;
  call_quality : option nat;
  call_isRetry : bool
}.

(** Where a suspended resolution waits: for its fetch or for its retry timer. *)
Inductive Await :=
| AwaitFetch (requestUrl : string)
| AwaitDelay.

(** A suspended call of [onPlaySong]: its locals. *)
Record Task := {
  t_call : Call;
  t_controller : nat;
  t_retryCount : nat;
  t_lastError : option Error;
  t_await : Await
}.

Definition MAX_RETRIES : nat := 3.

Definition AbortError : Error :=
  {| err_name := "AbortError"; err_message := "signal is aborted without reason" |}.

Definition is_qq (song : Song) : bool :=
  JS.eq_str (song_platform song) (Some "qq").

(** [isRetry ? isPlaying : true] *)
Definition shouldAutoPlay (c : Call) : bool :=
  if call_isRetry c then cl_isPlaying (call_cl c) else true.

(** [song.requestUrl || `/api/sby?...`] *)
Definition build_requestUrl (c : Call) : string :=
  let song := call_song c in
  if JS.truthy_str (song_requestUrl song) then JS.show_str (song_requestUrl song)
  else descriptor (song_platform song)
         (JS.or_str (song_searchTerm song) (Some (cl_searchTerm (call_cl c))))
         (JS.or_num (song_searchIndex song) (call_index c))
         (call_quality c).

(** The [updatedSong] literal. *)
Definition updatedSong (c : Call) (requestUrl : string) (data : DetailData)
    (newUrl : option string) : Song :=
  let song := call_song c in
  {| song_id := JS.or_str (match dd_data data with Some q => qq_id q | None => None end)
                          (song_id song);
     song_name := song_name song;
     song_singer := song_singer song;
     song_platform := song_platform song;
     song_url := newUrl;
     song_cover := if is_qq song
                   then match dd_data data with Some q => qq_cover q | None => None end
                   else dd_img data;
     song_lyrics := Some (if is_qq song then []
                          else match dd_lyric data with Some l => l | None => [] end);
     song_searchTerm := JS.or_str (song_searchTerm song) (Some (cl_searchTerm (call_cl c)));
     song_searchIndex := JS.or_num (song_searchIndex song) (call_index c);
     song_details := if is_qq song then dd_data data else None;
     song_requestUrl := Some requestUrl;
     song_quality := call_quality c;
     song_song := song_song song;
     song_author := song_author song |}.

(** How the [try] block of [tryPlay] ends when it does not throw. *)
Inductive Attempt :=
| SameUrl
| Resolved (song : Song).

Section Resolver.

Context `{Collaborators}.

(** The [try] block of [tryPlay] from the point where the fetch settles,
    up to the commit: [inl] is a thrown error. *)
Definition tryPlay_body (c : Call) (requestUrl : string)
    (o : Settled DetailResponse) : Error + Attempt :=
  match o with
  | RejectedWith e => inl e
  | Fulfilled r =>
      match dr_data r with
      | None => inl (TypeError "Cannot read properties of undefined")
      | Some data =>
          if dr_success r && (dd_code data =? 200) then
            let newUrl :=
              if is_qq (call_song c) then
                match dd_data data with
                | Some q => inr (qq_url q)
                | None => inl (TypeError "Cannot read properties of undefined (reading 'url')")
                end
              else inr (dd_mp3 data) in
            match newUrl with
            | inl e => inl e
            | inr newUrl =>
                if JS.eq_str (currentSong_url (cl_currentSong (call_cl c))) newUrl
                then inr SameUrl
                else
                  let updated := updatedSong c requestUrl data newUrl in
                  if negb (JS.truthy_str (song_url updated)) ||
                     negb (isValidUrl (JS.show_str (song_url updated)))
                  then inl (mkError MSG_INVALID_URL)
                  else inr (Resolved updated)
            end
          else inl (mkError (JS.or_default (dd_msg data) MSG_DETAIL_FAILED))
      end
  end.

Definition replace_same (updated : Song) (l : list Song) : list Song :=
  map (fun song => if isSameSong song updated then updated else song) l.

Definition updateSongData (c : Call) (updated : Song) (s : State) : State :=
  let s := setPlayHistory (replace_same updated) s in
  let s :=
    if existsb (fun song => isSameSong song updated) (cl_playQueue (call_cl c))
    then setPlayQueue (toggleQueue updated) (setPlayQueue (toggleQueue updated) s)
    else s in
  setSongs (replace_same updated (songs s)) s.

(** The four statements after the validation of [updatedSong]. *)
Definition commit (c : Call) (controller : nat) (updated : Song) (s : State) : State :=
  let s := updateSongData c updated s in
  let s := emit (SetCurrentSong controller updated) (setCurrentSong (Some updated) s) in
  let s := setIsPlaying (shouldAutoPlay c) s in
  setPlayHistory (addToHistory (call_cl c) updated) s.

(** [error.name === 'SecurityError' || error.message.includes('CORS')] *)
Definition is_cors (error : Error) : bool :=
  String.eqb (err_name error) "SecurityError" || JS.includes (err_message error) "CORS".

(** [tryPlay] from the point where the fetch settles: the new state, the
    returned flag and the new [lastError]. *)
Definition tryPlay_resume (t : Task) (requestUrl : string)
    (o : Settled DetailResponse) (s : State) : State * bool * option Error :=
  match tryPlay_body (t_call t) requestUrl o with
  | inr SameUrl => (s, true, t_lastError t)
  | inr (Resolved updated) =>
      (commit (t_call t) (t_controller t) updated s, true, t_lastError t)
  | inl error =>
      if is_cors error then
        let s := emit (ConsoleError "CORS error detected:" error) s in
        let s := emit (MessageError MSG_AUDIO_FAILED) s in
        (setIsPlaying false s, false, t_lastError t)
      else if String.eqb (err_name error) "AbortError" then (s, false, t_lastError t)
      else (s, false, Some error)
  end.

(** The [finally] block. *)
Definition finally_block (controller : nat) (s : State) : State :=
  let s := if signal_aborted controller s then setAbortControllerRef None s else s in
  setIsLoading false s.

(** [throw lastError || new Error(...)], its [catch] and the [finally]. *)
Definition exhausted (t : Task) (s : State) : State * option Task :=
  let error := match t_lastError t with
               | Some e => e
               | None => mkError MSG_PLAY_FAILED
               end in
  let s :=
    if negb (String.eqb (err_name error) "AbortError") then
      emit (MessageError (JS.or_default (Some (err_message error)) MSG_PLAY_FAILED_HINT))
        (emit (ConsoleError MSG_PLAY_FAILED_LOG error) s)
    else s in
  (finally_block (t_controller t) s, None).

(** [tryPlay] up to its [await]: the descriptor is built and fetched. *)
Definition tryPlay_request (t : Task) (s : State) : State * option Task :=
  let requestUrl := build_requestUrl (t_call t) in
  (emit (Fetch requestUrl (Some (t_controller t))) s,
   Some {| t_call := t_call t; t_controller := t_controller t;
           t_retryCount := t_retryCount t; t_lastError := t_lastError t;
           t_await := AwaitFetch requestUrl |}).

(** The head of the [while] loop. *)
Definition while_head (t : Task) (s : State) : State * option Task :=
  if t_retryCount t <? MAX_RETRIES then tryPlay_request t s else exhausted t s.

(** The fetch of [t] settles.  A fetch whose signal is aborted rejects with
    an [AbortError], whatever the network answered. *)
Definition on_fetch_settled (t : Task) (requestUrl : string)
    (o : Settled DetailResponse) (s : State) : State * option Task :=
  let o := if signal_aborted (t_controller t) s then RejectedWith AbortError else o in
  let '(s, success, lastError) := tryPlay_resume t requestUrl o s in
  if success then (finally_block (t_controller t) s, None)
  else if signal_aborted (t_controller t) s then (finally_block (t_controller t) s, None)
  else
    let retryCount := S (t_retryCount t) in
    let t' := {| t_call := t_call t; t_controller := t_controller t;
                 t_retryCount := retryCount; t_lastError := lastError;
                 t_await := AwaitDelay |} in
    if retryCount <? MAX_RETRIES then
      let s := emit (MessageInfo (MSG_RETRYING retryCount MAX_RETRIES)) s in
      (emit (Delay (t_controller t) 1000) s, Some t')
    else while_head t' s.

(** The retry timer of [t] fires. *)
Definition on_timer (t : Task) (s : State) : State * option Task :=
  while_head t s.

(** [onPlaySong] up to its first [await]. *)
Definition onPlaySong (c : Call) (s : State) : State * option Task :=
  if cl_isLoading (call_cl c) && negb (call_isRetry c) then (s, None)
  else
    let '(currentController, s) := new_AbortController s in
    let start s :=
      let s := setAbortControllerRef (Some currentController) s in
      let s := setIsLoading true s in
      while_head {| t_call := c; t_controller := currentController;
                    t_retryCount := 0; t_lastError := None;
                    t_await := AwaitDelay |} s in
    match abortControllerRef s with
    | Some previous =>
        if JS.eq_str (currentSong_url (cl_currentSong (call_cl c)))
                     (song_url (call_song c)) && negb (call_isRetry c)
        then (s, None)
        else start (abort previous s)
    | None => start s
    end.

(** ** Scheduling

    The single thread of control runs one of these at a time, each to its
    next [await]. *)
Inductive Event :=
| Invoke (c : Call)
| FetchSettled (controller : nat) (o : Settled DetailResponse)
| TimerFired (controller : nat).

Record Config := {
  st : State;
  pool : list Task
}.

Definition find_task (controller : nat) (tasks : list Task) : option Task :=
  find (fun t => t_controller t =? controller) tasks.

Definition remove_task (controller : nat) (tasks : list Task) : list Task :=
  filter (fun t => negb (t_controller t =? controller)) tasks.

Definition resume (controller : nat) (r : State * option Task) (cfg : Config) : Config :=
  {| st := fst r;
     pool := match snd r with
             | Some t => t :: remove_task controller (pool cfg)
             | None => remove_task controller (pool cfg)
             end |}.

(** One event; [None] when the event is not enabled. *)
Definition step (e : Event) (cfg : Config) : option Config :=
  match e with
  | Invoke c =>
      let r := onPlaySong c (st cfg) in
      Some {| st := fst r;
              pool := match snd r with
                      | Some t => t :: pool cfg
                      | None => pool cfg
                      end |}
  | FetchSettled controller o =>
      match find_task controller (pool cfg) with
      | Some t =>
          match t_await t with
          | AwaitFetch requestUrl =>
              Some (resume controller (on_fetch_settled t requestUrl o (st cfg)) cfg)
          | AwaitDelay => None
          end
      | None => None
      end
  | TimerFired controller =>
      match find_task controller (pool cfg) with
      | Some t =>
          match t_await t with
          | AwaitDelay => Some (resume controller (on_timer t (st cfg)) cfg)
          | AwaitFetch _ => None
          end
      | None => None
      end
  end.

Fixpoint run (es : list Event) (cfg : Config) : option Config :=
  match es with
  | [] => Some cfg
  | e :: es' =>
      match step e cfg with
      | Some cfg' => run es' cfg'
      | None => None
      end
  end.

(** A resolution on its own: its fetches settle as [outcomes] lists them
    and its timers fire, until it returns.  [None] when the fuel or the
    outcomes run out first. *)
Fixpoint drive (fuel : nat) (outcomes : list (Settled DetailResponse))
    (r : State * option Task) : option State :=
  match snd r, fuel with
  | None, _ => Some (fst r)
  | Some _, 0 => None
  | Some t, S fuel' =>
      match t_await t, outcomes with
      | AwaitDelay, _ => drive fuel' outcomes (on_timer t (fst r))
      | AwaitFetch requestUrl, o :: outcomes' =>
          drive fuel' outcomes' (on_fetch_settled t requestUrl o (fst r))
      | AwaitFetch _, [] => None
      end
  end.

Definition resolve (c : Call) (outcomes : list (Settled DetailResponse))
    (s : State) : option State :=
  drive (2 * MAX_RETRIES) outcomes (onPlaySong c s).

End Resolver.

(** ** Reading the log *)

Definition is_fetch (e : Effect) : bool :=
  match e with Fetch _ _ => true | _ => false end.

Definition is_delay (e : Effect) : bool :=
  match e with Delay _ _ => true | _ => false end.

Definition is_commit_of (controller : nat) (e : Effect) : bool :=
  match e with SetCurrentSong c _ => c =? controller | _ => false end.

(** The effects of [s'] that were not yet in [s]. *)
Definition since (s s' : State) : list Effect :=
  skipn (length (log s)) (log s').

Definition count (p : Effect -> bool) (l : list Effect) : nat :=
  length (filter p l).

(** A predicate on effects that ignores notices, console output and waits. *)
Definition quiet (p : Effect -> bool) : Prop :=
  (forall m, p (MessageInfo m) = false) /\
  (forall m, p (MessageError m) = false) /\
  (forall l e, p (ConsoleError l e) = false) /\
  (forall k ms, p (Delay k ms) = false).

(** ** Vocabulary of the statements *)

Definition platform_is (p : string) (s : Song) : bool :=
  JS.eq_str (song_platform s) (Some p).

(** A search response that arrived but is not usable: [success] is falsy, or
    the code is not 200. *)
Definition declined (r : SearchResponse) : bool :=
  negb (sr_success r) ||
  match sr_data r with
  | Some data => negb (sd_code data =? 200)
  | None => false
  end.

(** A usable search response carrying the array [items]. *)
Definition usable (r : SearchResponse) (items : list Song) : Prop :=
  sr_success r = true /\
  sr_data r = Some {| sd_code := 200; sd_data := ItemsArray items |}.

(** The stream URL that a settled fetch yields for the call [c], when the
    fetch succeeded: the response is usable and carries the property the
    platform of the song is read from. *)
Definition fetched_url (c : Call) (o : Settled DetailResponse) : option (option string) :=
  match o with
  | RejectedWith _ => None
  | Fulfilled r =>
      match dr_data r with
      | None => None
      | Some data =>
          if dr_success r && (dd_code data =? 200) then
            if is_qq (call_song c) then
              match dd_data data with
              | Some q => Some (qq_url q)
              | None => None
              end
            else Some (dd_mp3 data)
          else None
      end
  end.

(** An empty (or absent) URL, or one that fails URL validation. *)
Definition invalid_url `{Collaborators} (u : option string) : bool :=
  negb (JS.truthy_str u) || negb (isValidUrl (JS.show_str u)).

(** The entry guards of [onPlaySong] let the call through. *)
Definition accepted (c : Call) (s : State) : bool :=
  negb (cl_isLoading (call_cl c) && negb (call_isRetry c)) &&
  match abortControllerRef s with
  | Some _ =>
      negb (JS.eq_str (currentSong_url (cl_currentSong (call_cl c)))
                      (song_url (call_song c)) && negb (call_isRetry c))
  | None => true
  end.

(** The ref, when set, holds a controller that exists. *)
Definition ref_exists (s : State) : Prop :=
  match abortControllerRef s with
  | Some previous => previous < length (controllers s)
  | None => True
  end.

(** A failure that the retry loop counts and remembers: neither a
    cross-origin failure nor an abort. *)
Definition retryable (e : Error) : bool :=
  negb (String.eqb (err_name e) "SecurityError" || JS.includes (err_message e) "CORS") &&
  negb (String.eqb (err_name e) "AbortError").

(** The locals of [onPlaySong] at its first [await]. *)
Definition first_attempt (c : Call) (controller : nat) : Task :=
  {| t_call := c; t_controller := controller; t_retryCount := 0;
     t_lastError := None; t_await := AwaitFetch (build_requestUrl c) |}.

(** The locals of a resolution that waits for the fetch of an attempt. *)
Definition attempt_task (c : Call) (controller retryCount : nat)
    (lastError : option Error) : Task :=
  {| t_call := c; t_controller := controller; t_retryCount := retryCount;
     t_lastError := lastError; t_await := AwaitFetch (build_requestUrl c) |}.

(** The state in which an accepted call issues its first fetch. *)
Definition entered (c : Call) (s : State) : State :=
  let k := length (controllers s) in
  let s0 := setControllers (controllers s ++ [false]) s in
  let s1 := match abortControllerRef s with
            | Some previous => abort previous s0
            | None => s0
            end in
  emit (Fetch (build_requestUrl c) (Some k))
    (setIsLoading true (setAbortControllerRef (Some k) s1)).

(** What the entry of an accepted call logs before its first fetch: the abort
    of the controller that the ref held, if any. *)
Definition prelude (s : State) : list Effect :=
  match abortControllerRef s with
  | Some previous => [Abort previous]
  | None => []
  end.

(** The retry notice and the wait between two attempts. *)
Definition retry_notice (controller n : nat) : list Effect :=
  [MessageInfo (MSG_RETRYING n MAX_RETRIES); Delay controller 1000].

(** The effects of the three attempts of a resolution whose first two
    attempts fail, up to the third fetch. *)
Definition three_attempts (c : Call) (s : State) : list Effect :=
  let k := length (controllers s) in
  let request := Fetch (build_requestUrl c) (Some k) in
  prelude s ++ [request] ++ retry_notice k 1 ++ [request] ++ retry_notice k 2 ++ [request].

(** The event belongs to a resolution other than the one with controller
    [b], and is not a new call. *)
Definition other_than (b : nat) (e : Event) : bool :=
  match e with
  | Invoke _ => false
  | FetchSettled k _ => negb (k =? b)
  | TimerFired k => negb (k =? b)
  end.

(** The event resumes the resolution with controller [a]. *)
Definition resumes (a : nat) (e : Event) : bool :=
  match e with
  | Invoke _ => false
  | FetchSettled k _ => k =? a
  | TimerFired k => k =? a
  end.

(** ** Auxiliary definitions of the proofs *)

Definition olist {A} (x : option A) : list A :=
  match x with Some v => [v] | None => [] end.

Definition round {A} (W Q : list A) (i : nat) : list A :=
  olist (nth_error W i) ++ olist (nth_error Q i).

(** The fetches that a suspended resolution can still issue. *)
Definition budget (t : Task) : nat :=
  match t_await t with
  | AwaitFetch _ => MAX_RETRIES - 1 - t_retryCount t
  | AwaitDelay => MAX_RETRIES - t_retryCount t
  end.

(** The steps that a suspended resolution needs at most. *)
Definition steps (t : Task) : nat :=
  match t_await t with
  | AwaitFetch _ => 2 * (MAX_RETRIES - t_retryCount t) - 1
  | AwaitDelay => 2 * (MAX_RETRIES - t_retryCount t)
  end.

(** ** Sample data

    Used to evaluate the model on concrete inputs.  The sample host parser
    accepts a host of letters, digits, dots and hyphens, and the sample queue
    toggles membership by identity. *)

Definition sample_host_char (c : ascii) : bool :=
  JS.is_alnum c || Ascii.eqb c "." || Ascii.eqb c "-".

Definition sample : Collaborators := {|
  host_parser := fun _ host => JS.all_chars sample_host_char host;
  toggleQueue := fun song queue =>
    if existsb (isSameSong song) queue
    then filter (fun s => negb (isSameSong song s)) queue
    else queue ++ [song]
|}.

Definition sample_song (name platform : string) : Song :=
  {| song_id := None; song_name := Some name; song_singer := Some "singer";
     song_platform := Some platform; song_cover := None; song_url := None;
     song_lyrics := None; song_searchTerm := None; song_searchIndex := None;
     song_details := None; song_requestUrl := None; song_quality := None;
     song_song := Some name; song_author := None |}.

Definition sample_resolved (name platform url : string) : Song :=
  {| song_id := None; song_name := Some name; song_singer := Some "singer";
     song_platform := Some platform; song_cover := None; song_url := Some url;
     song_lyrics := Some []; song_searchTerm := None; song_searchIndex := None;
     song_details := None; song_requestUrl := None; song_quality := None;
     song_song := None; song_author := None |}.

Definition sample_state : State :=
  {| songs := []; currentSong := None; isPlaying := false; isLoading := false;
     isSearching := false; searchTerm := "abc"; selectedQuality := Some 5;
     playHistory := []; playQueue := []; abortControllerRef := None;
     controllers := []; log := [] |}.

Definition sample_search (items : list Song) : SearchResponse :=
  {| sr_success := true;
     sr_data := Some {| sd_code := 200; sd_data := ItemsArray items |} |}.

Definition sample_detail_wy (mp3 : option string) (lyric : list string) : DetailResponse :=
  {| dr_success := true;
     dr_data := Some {| dd_code := 200; dd_msg := None; dd_mp3 := mp3;
                        dd_img := None; dd_lyric := Some lyric; dd_data := None |} |}.

Definition sample_detail_qq (url : option string) (lyric : list string) : DetailResponse :=
  {| dr_success := true;
     dr_data := Some {| dd_code := 200; dd_msg := None; dd_mp3 := None;
                        dd_img := None; dd_lyric := Some lyric;
                        dd_data := Some {| qq_id := Some "7"; qq_url := url;
                                           qq_cover := None; qq_meta := [] |} |} |}.

Definition sample_call (s : State) (song : Song) (index quality : option nat)
    (isRetry : bool) : Call :=
  {| call_cl := render s; call_song := song; call_index := index;
     call_quality := quality; call_isRetry := isRetry |}.

Definition sample_task (c : Call) : Task :=
  {| t_call := c; t_controller := 0; t_retryCount := 0; t_lastError := None;
     t_await := AwaitFetch (build_requestUrl c) |}.

Definition sample_failure : Settled DetailResponse :=
  RejectedWith (TypeError "Failed to fetch").

Definition sample_security_error : Settled DetailResponse :=
  RejectedWith {| err_name := "SecurityError"; err_message := "blocked" |}.

Definition sample_success (mp3 : string) : Settled DetailResponse :=
  Fulfilled (sample_detail_wy (Some mp3) []).

(** The UTF-8 encodings of U+3000, the ideographic space, and of U+00A0, the
    no-break space. *)
Definition sample_ideographic_space : string :=
  String (ascii_of_nat 227) (String (ascii_of_nat 128) (String (ascii_of_nat 128) "")).

Definition sample_no_break_space : string :=
  String (ascii_of_nat 194) (String (ascii_of_nat 160) "").

(** A response that arrived with a falsy [success] and the message [msg]. *)
Definition sample_declined (msg : string) : Settled DetailResponse :=
  Fulfilled {| dr_success := false;
               dr_data := Some {| dd_code := 500; dd_msg := Some msg; dd_mp3 := None;
                                  dd_img := None; dd_lyric := None; dd_data := None |} |}.

(** A state in which the song "P0", which has a stream URL, is playing. *)
Definition sample_playing : State :=
  {| songs := [];
     currentSong := Some (sample_resolved "P0" "wy" "http://cdn.example/p0.mp3");
     isPlaying := true; isLoading := false;
     isSearching := false; searchTerm := "abc"; selectedQuality := Some 5;
     playHistory := []; playQueue := []; abortControllerRef := None;
     controllers := []; log := [] |}.

(** A configuration in which the resolution of the sample song "A0" is in
    flight: it was called on [sample_state] and waits for its first fetch. *)
Definition sample_in_flight : Config :=
  {| st := entered (sample_call sample_state (sample_song "A0" "wy") (Some 0) (Some 5) false)
             sample_state;
     pool := [first_attempt
                (sample_call sample_state (sample_song "A0" "wy") (Some 0) (Some 5) false) 0] |}.

From Stdlib Require Import Permutation.

(** ** Further vocabulary *)

(** The identity of a song: what [isSameSong] compares. *)
Definition identity (s : Song) : option string * option string * option string :=
  (song_name s, song_singer s, song_platform s).

(** The number of entries of [l] that are the same song as [song]. *)
Definition occurrences (song : Song) (l : list Song) : nat :=
  length (filter (fun s => isSameSong s song) l).

(** What the [catch] of [tryPlay] logs for a cross-origin failure. *)
Definition cors_notice (e : Error) : list Effect :=
  [ConsoleError "CORS error detected:" e; MessageError MSG_AUDIO_FAILED].

(** A notification shown to the user. *)
Definition is_notice (e : Effect) : bool :=
  match e with
  | MessageInfo _ | MessageError _ => true
  | _ => false
  end.

(** ** Queue navigation

    [getNextSong] and [getPreviousSong] belong to the play-queue hook; they
    are taken as functions of the queue that the handler closes over. *)
Record Navigation := {
  getNextSong : list Song -> Song -> option Song;
  getPreviousSong : list Song -> Song -> option Song
}.

(** The block that [playNextSong], [playPreviousSong] and the auto-advance
    effect share: a neighbour with a [url] becomes the current song at once,
    one without is handed to [onPlaySong]. *)
Definition play_or_resolve (cl : Closure) (neighbour : option Song) (s : State)
    : State * option Task :=
  match neighbour with
  | Some song =>
      if JS.truthy_str (song_url song) then
        (setIsPlaying true (setCurrentSong (Some song) s), None)
      else
        onPlaySong {| call_cl := cl; call_song := song;
                      call_index := song_searchIndex song;
                      call_quality := cl_selectedQuality cl;
                      call_isRetry := false |} s
  | None => (s, None)
  end.

Definition playNextSong (nav : Navigation) (cl : Closure) (s : State)
    : State * option Task :=
  match cl_currentSong cl with
  | None => (s, None)
  | Some current => play_or_resolve cl (getNextSong nav (cl_playQueue cl) current) s
  end.

Definition playPreviousSong (nav : Navigation) (cl : Closure) (s : State)
    : State * option Task :=
  match cl_currentSong cl with
  | None => (s, None)
  | Some current => play_or_resolve cl (getPreviousSong nav (cl_playQueue cl) current) s
  end.

(** The auto-advance effect; [ended] is [audioRef.current?.ended]. *)
Definition autoAdvance (nav : Navigation) (cl : Closure) (ended : bool) (s : State)
    : State * option Task :=
  match cl_currentSong cl with
  | Some current =>
      if negb (cl_isPlaying cl) && negb (cl_isLoading cl) && ended
      then play_or_resolve cl (getNextSong nav (cl_playQueue cl) current) s
      else (s, None)
  | None => (s, None)
  end.

(** A queue navigation for closed instances: the neighbour is the entry
    after (before) the current song in the queue, by identity. *)
Fixpoint sample_after (queue : list Song) (current : Song) : option Song :=
  match queue with
  | x :: ((y :: _) as rest) =>
      if isSameSong x current then Some y else sample_after rest current
  | _ => None
  end.

Definition sample_navigation : Navigation :=
  {| getNextSong := sample_after;
     getPreviousSong := fun queue current => sample_after (rev queue) current |}.

(** A configuration reached from [sample_state]: "A0" is asked for, "B0" is
    asked for as a retry and supersedes it, and the aborted fetch of "A0" has
    settled. *)
Definition sample_superseded : Config :=
  Eval vm_compute in
    match run (H := sample)
            [Invoke (sample_call sample_state (sample_song "A0" "wy") (Some 0) (Some 5) false);
             Invoke (sample_call (st sample_in_flight) (sample_song "B0" "qq")
                       (Some 0) (Some 5) true);
             FetchSettled 0 sample_failure]
            {| st := sample_state; pool := [] |} with
    | Some cfg => cfg
    | None => {| st := sample_state; pool := [] |}
    end.

(** The configurations that the scheduler reaches: the ref holds an existing
    controller, every suspended resolution has an existing controller of its
    own and has attempts left. *)
Definition well_formed (cfg : Config) : Prop :=
  ref_exists (st cfg) /\
  (forall t, In t (pool cfg) ->
             t_controller t < length (controllers (st cfg)) /\
             t_retryCount t < MAX_RETRIES) /\
  NoDup (map t_controller (pool cfg)).

(** The array entries that [interleaveResults] can return: those of the two
    providers. *)
Definition of_a_provider (s : Obj) : bool :=
  on_platform "wy" s || on_platform "qq" s.

(** A usable search response whose [data.data] is a single object. *)
Definition single_item (item : Song) : SearchResponse :=
  {| sr_success := true;
     sr_data := Some {| sd_code := 200; sd_data := ItemsObject item |} |}.

(** A usable search response whose [data.data] is the array [items]. *)
Definition item_array (items : list Song) : SearchResponse :=
  {| sr_success := true;
     sr_data := Some {| sd_code := 200; sd_data := ItemsArray items |} |}.

(** The [index] that the fetch descriptor of a tagged search result of rank
    [rank] carries when [onPlaySong] is called with the argument [index]. *)
Definition descriptor_index (rank : nat) (index : option nat) : option nat :=
  if rank =? 0 then index else Some rank.

(** The attempt on the settled fetch [o] of the call [c] throws. *)
Definition attempt_fails `{Collaborators} (c : Call) (o : Settled DetailResponse) : bool :=
  match tryPlay_body c (build_requestUrl c) o with
  | inl _ => true
  | inr _ => false
  end.

(** Any commit. *)
Definition is_commit (e : Effect) : bool :=
  match e with SetCurrentSong _ _ => true | _ => false end.

(** * Theorems *)

Section HistoryStore.

Variable cl : Closure.

Lemma isSameSong_simplified (song e : Song) :
  isSameSong (simplifiedSong cl song) e = isSameSong song e.
Proof. reflexivity. Qed.

Lemma eq_str_refl (a : option string) : JS.eq_str a a = true.
Proof. destruct a; simpl; auto using String.eqb_refl. Qed.

Lemma isSameSong_refl (s : Song) : isSameSong s s = true.
Proof. unfold isSameSong. now rewrite !eq_str_refl. Qed.

Lemma In_firstn {A} (n : nat) (l : list A) (x : A) :
  In x (firstn n l) -> In x l.
Proof.
  revert l; induction n as [|n IH]; intros [|y l]; simpl; try tauto.
  intros [->|Hin]; auto.
Qed.

End HistoryStore.

(** C6. [addToHistory] removes every entry with the identity of the added
    song, puts the projection of the new song at the front, keeps the surviving
    entries behind it in their old order, and cuts the list at 50 entries, so
    the entries past the cap (the oldest) are the ones dropped. *)
Theorem addToHistory_dedup_front_cap (cl : Closure) (song : Song) (prev : list Song) :
  let survivors := filter (fun s => negb (isSameSong s song)) prev in
  let h := addToHistory cl song prev in
  hd_error h = Some (simplifiedSong cl song) /\
  isSameSong (simplifiedSong cl song) song = true /\
  tl h = firstn 49 survivors /\
  (forall e, In e (tl h) -> In e prev /\ isSameSong e song = false) /\
  length h = Nat.min 50 (S (length survivors)) /\
  length h <= 50.
Proof.
  intros survivors h. unfold h, addToHistory, MAX_HISTORY. fold survivors.
  change 50 with (S 49) at 1 2 3 4 5. rewrite firstn_cons.
  cbn [hd_error tl].
  repeat split.
  - rewrite isSameSong_simplified. apply isSameSong_refl.
  - apply In_firstn in H. apply filter_In in H. tauto.
  - apply In_firstn in H. apply filter_In in H.
    destruct H as [_ H]. now apply negb_true_iff in H.
  - cbn [length]. rewrite length_firstn. lia.
  - cbn [length]. rewrite length_firstn. lia.
Qed.

(** ** UrlValidator *)

Section UrlValidator.

Context `{Collaborators}.

Lemma scheme_char_not_colon (c : ascii) :
  URL.is_scheme_char c = true -> Ascii.eqb c ":" = false.
Proof.
  intros Hc. destruct (Ascii.eqb_spec c ":") as [->|]; [discriminate Hc | reflexivity].
Qed.

Lemma alpha_scheme_char (c : ascii) :
  JS.is_alpha c = true -> URL.is_scheme_char c = true.
Proof.
  unfold URL.is_scheme_char, JS.is_alnum. now intros ->.
Qed.

Lemma scheme_state_app (sch rest : string) :
  JS.all_chars URL.is_scheme_char sch = true ->
  URL.scheme_state (sch ++ ":" ++ rest) = Some (lower sch, rest).
Proof.
  induction sch as [|c sch IH]; intros Hall; [reflexivity|].
  simpl in Hall. apply andb_true_iff in Hall as [Hc Hall].
  change (URL.scheme_state (String c sch ++ ":" ++ rest))
    with (if Ascii.eqb c ":" then Some (EmptyString, (sch ++ ":" ++ rest)%string)
          else if URL.is_scheme_char c then
            match URL.scheme_state (sch ++ ":" ++ rest) with
            | Some (scheme, rest) => Some (String (JS.to_lower c) scheme, rest)
            | None => None
            end
          else None).
  rewrite (scheme_char_not_colon c Hc), Hc, (IH Hall). reflexivity.
Qed.

Lemma scheme_state_inv (s sch rest : string) :
  URL.scheme_state s = Some (sch, rest) ->
  exists raw, s = (raw ++ ":" ++ rest)%string /\
              JS.all_chars URL.is_scheme_char raw = true.
Proof.
  revert sch; induction s as [|c s IH]; simpl; intros sch Hs; [discriminate|].
  destruct (Ascii.eqb_spec c ":") as [->|Hne].
  - injection Hs as <- <-. now exists "".
  - destruct (URL.is_scheme_char c) eqn:Hc; [|discriminate].
    destruct (URL.scheme_state s) as [[sch' rest']|] eqn:Hs'; [|discriminate].
    injection Hs as <- <-.
    destruct (IH _ eq_refl) as (raw & -> & Hall).
    exists (String c raw). simpl. now rewrite Hc.
Qed.

Lemma scheme_start_state_has_scheme (s : string) (r : string * string) :
  URL.scheme_start_state s = Some r -> has_scheme s.
Proof.
  destruct r as [sch rest]. destruct s as [|c s]; simpl; [discriminate|].
  destruct (JS.is_alpha c) eqn:Ha; [|discriminate].
  rewrite (scheme_char_not_colon c (alpha_scheme_char c Ha)),
    (alpha_scheme_char c Ha).
  destruct (URL.scheme_state s) as [[sch' rest']|] eqn:Hs; [|discriminate].
  intros [= <- <-].
  destruct (scheme_state_inv _ _ _ Hs) as (raw & -> & Hall).
  now exists c, raw, rest'.
Qed.

Lemma ignore_slashes_app (slashes tail : string) :
  JS.all_chars URL.is_slash slashes = true ->
  (tail = "" \/ exists t, tail = String "?" t \/ tail = String "#" t) ->
  URL.ignore_slashes (slashes ++ tail) = tail.
Proof.
  intros Hall Htail. induction slashes as [|c sl IH]; simpl.
  - destruct Htail as [->|[t [->| ->]]]; reflexivity.
  - simpl in Hall. apply andb_true_iff in Hall as [-> Hall]. auto.
Qed.

Lemma parse_authority_empty (tail : string) :
  (tail = "" \/ exists t, tail = String "?" t \/ tail = String "#" t) ->
  URL.parse_authority true tail = false.
Proof.
  intros [->|[t [->| ->]]]; reflexivity.
Qed.

Lemma requires_authority_special (scheme : string) :
  requires_authority scheme = true ->
  String.eqb scheme "file" = false /\ URL.is_special scheme = true.
Proof.
  unfold requires_authority, URL.is_special. cbn [existsb].
  rewrite !orb_false_r.
  intros Hr. repeat (apply orb_true_iff in Hr as [Hr|Hr]);
    apply String.eqb_eq in Hr; subst; split; reflexivity.
Qed.

Lemma isValidUrl_false_iff (url : string) :
  isValidUrl url = false <-> URL.basic_url_parser url = false.
Proof.
  unfold isValidUrl, URL.new_URL.
  destruct (URL.basic_url_parser url); split; congruence.
Qed.

End UrlValidator.

(** C9. [isValidUrl] is total: it answers [false] exactly when the [URL]
    constructor throws, so no exception escapes it.  It answers [false] on the
    empty string, on every input that does not start with a scheme, and on
    every input whose scheme requires an authority and that has none. *)
Theorem isValidUrl_never_throws_rejects_malformed `{Collaborators} (url : string) :
  (isValidUrl url = false <-> exists e, URL.new_URL url = inl e) /\
  (isValidUrl url = true <-> URL.new_URL url = inr tt) /\
  isValidUrl "" = false /\
  (~ has_scheme (URL.preprocess url) -> isValidUrl url = false) /\
  (lacks_required_authority (URL.preprocess url) -> isValidUrl url = false).
Proof.
  split; [|split; [|split; [|split]]].
  - unfold isValidUrl. destruct (URL.new_URL url) as [e|[]]; split; try congruence.
    + intros _. now exists e.
    + intros [e He]. discriminate He.
  - unfold isValidUrl. destruct (URL.new_URL url) as [e|[]]; split; congruence.
  - reflexivity.
  - intros Hno. apply isValidUrl_false_iff. unfold URL.basic_url_parser.
    destruct (URL.scheme_start_state (URL.preprocess url)) as [r|] eqn:Hs;
      [|reflexivity].
    exfalso. apply Hno. exact (scheme_start_state_has_scheme _ _ Hs).
  - intros (c & sch & slashes & tail & Heq & Ha & Hall & Hreq & Hsl & Htail).
    apply isValidUrl_false_iff. unfold URL.basic_url_parser. rewrite Heq.
    change (URL.scheme_start_state (String c (sch ++ ":" ++ slashes ++ tail)))
      with (if JS.is_alpha c
            then URL.scheme_state (String c sch ++ ":" ++ slashes ++ tail)
            else None).
    rewrite Ha, scheme_state_app
      by (simpl; now rewrite (alpha_scheme_char c Ha), Hall).
    destruct (requires_authority_special _ Hreq) as [-> ->].
    rewrite (ignore_slashes_app _ _ Hsl Htail).
    now apply parse_authority_empty.
Qed.

(** ** ResultMerger *)

Section ResultMerger.

Lemma indexOf_nth (l : list Obj) (j : nat) (x : Obj) :
  NoDup (map fst l) -> nth_error l j = Some x -> indexOf l x = Some j.
Proof.
  revert j; induction l as [|y l IH]; intros j Hnd Hj.
  - destruct j; discriminate.
  - inversion Hnd as [|? ? Hnotin Hnd']; subst. destruct j as [|j]; simpl in *.
    + injection Hj as ->. unfold strict_eq. now rewrite Nat.eqb_refl.
    + assert (Hne : strict_eq y x = false).
      { unfold strict_eq. apply Nat.eqb_neq. intros Heq. apply Hnotin.
        rewrite Heq. apply in_map. eapply nth_error_In; eauto. }
      rewrite Hne, (IH j Hnd' Hj). reflexivity.
Qed.

Lemma find_by_index {A} (Q : A -> bool) (F : list A) (i : nat) :
  (forall j y, nth_error F j = Some y -> Q y = (j =? i)) ->
  find Q F = nth_error F i.
Proof.
  revert i; induction F as [|y F IH]; intros i HQ.
  - now destruct i.
  - simpl. rewrite (HQ 0 y eq_refl). destruct i as [|i]; simpl; [reflexivity|].
    apply IH. intros j z Hj. exact (HQ (S j) z Hj).
Qed.

Lemma find_filter {A} (P Q : A -> bool) (l : list A) :
  find (fun s => P s && Q s) l = find Q (filter P l).
Proof.
  induction l as [|x l IH]; simpl; [reflexivity|].
  destruct (P x); simpl; [|exact IH]. now destruct (Q x).
Qed.

Lemma NoDup_fst_filter (P : Obj -> bool) (l : list Obj) :
  NoDup (map fst l) -> NoDup (map fst (filter P l)).
Proof.
  induction l as [|x l IH]; simpl; intros Hnd; [constructor|].
  inversion Hnd as [|? ? Hnotin Hnd']; subst.
  destruct (P x); simpl; auto. constructor; auto.
  intros Hin. apply Hnotin. apply in_map_iff in Hin as (y & Hy & Hin).
  apply filter_In in Hin as [Hin _]. rewrite <- Hy. now apply in_map.
Qed.

(** With distinct addresses, the quadratic lookup of the source is the
    [i]-th element of the platform's sub-list. *)
Lemma pick_nth (p : string) (songs : list Obj) (i : nat) :
  NoDup (map fst songs) ->
  pick p songs i = nth_error (filter (on_platform p) songs) i.
Proof.
  intros Hnd. unfold pick.
  rewrite (find_filter (on_platform p)
             (fun s => is_index (indexOf (filter (on_platform p) songs) s) i)).
  apply find_by_index. intros j y Hj.
  now rewrite (indexOf_nth _ j y (NoDup_fst_filter _ _ Hnd) Hj).
Qed.

Lemma fold_push_flat_map {A} (g h : nat -> option A) (l : list nat) (acc : list A) :
  fold_left (fun acc i => push_if (push_if acc (g i)) (h i)) l acc =
  acc ++ flat_map (fun i => olist (g i) ++ olist (h i)) l.
Proof.
  revert acc; induction l as [|i l IH]; intros acc; simpl.
  - now rewrite app_nil_r.
  - rewrite IH. destruct (g i), (h i); simpl; now rewrite <- ?app_assoc.
Qed.

Lemma flat_map_round_shift {A} (W Q : list A) (n k : nat) :
  flat_map (round W Q) (seq (S k) n) = flat_map (round (tl W) (tl Q)) (seq k n).
Proof.
  revert k; induction n as [|n IH]; intros k; simpl; [reflexivity|].
  rewrite IH. f_equal. unfold round.
  destruct W, Q; simpl; rewrite ?nth_error_nil; reflexivity.
Qed.

Lemma interleave_nil_r {A} (a : list A) : interleave a [] = a.
Proof. now destruct a. Qed.

Lemma flat_map_round_interleave {A} (n : nat) (W Q : list A) :
  Nat.max (length W) (length Q) <= n ->
  flat_map (round W Q) (seq 0 n) = interleave W Q.
Proof.
  revert W Q; induction n as [|n IH]; intros W Q Hn.
  - destruct W, Q; simpl in *; try lia. reflexivity.
  - cbn [seq flat_map]. rewrite flat_map_round_shift.
    destruct W as [|w W], Q as [|q Q]; cbn [tl round nth_error olist app interleave];
      rewrite IH by (simpl in *; lia); try reflexivity.
    now rewrite interleave_nil_r.
Qed.

Lemma interleaveResults_interleave (songs : list Obj) :
  NoDup (map fst songs) ->
  interleaveResults songs =
  interleave (filter (on_platform "wy") songs) (filter (on_platform "qq") songs).
Proof.
  intros Hnd. unfold interleaveResults.
  rewrite fold_push_flat_map. cbn [app].
  rewrite <- (flat_map_round_interleave _ _ _ (Nat.le_refl _)).
  apply flat_map_ext. intros i. unfold round. now rewrite !pick_nth.
Qed.

Lemma map_interleave {A B} (f : A -> B) (a b : list A) :
  map f (interleave a b) = interleave (map f a) (map f b).
Proof.
  revert b; induction a as [|x a IH]; intros [|y b]; simpl; try reflexivity.
  now rewrite IH.
Qed.

Lemma length_interleave {A} (a b : list A) :
  length (interleave a b) = length a + length b.
Proof.
  revert b; induction a as [|x a IH]; intros [|y b]; simpl; try lia.
  rewrite IH. lia.
Qed.

Lemma filter_interleave {A} (P : A -> bool) (a b : list A) :
  forallb P a = true -> forallb (fun x => negb (P x)) b = true ->
  filter P (interleave a b) = a /\
  filter (fun x => negb (P x)) (interleave a b) = b.
Proof.
  revert b; induction a as [|x a IH]; intros b Ha Hb.
  - cbn [interleave]. clear Ha. induction b as [|y b IHb]; [easy|].
    simpl in *. apply andb_true_iff in Hb as [Hy Hb].
    destruct (IHb Hb) as [E1 E2]. rewrite Hy, E2.
    apply negb_true_iff in Hy. now rewrite Hy, E1.
  - simpl in Ha. apply andb_true_iff in Ha as [Hx Ha].
    destruct b as [|y b].
    + cbn [interleave]. destruct (IH [] Ha eq_refl) as [E1 E2].
      rewrite interleave_nil_r in E1, E2. simpl. now rewrite Hx, E1, E2.
    + simpl in Hb. apply andb_true_iff in Hb as [Hy Hb].
      destruct (IH b Ha Hb) as [E1 E2]. simpl. rewrite Hx, Hy, E1, E2.
      apply negb_true_iff in Hy. now rewrite Hy.
Qed.

Lemma nth_interleave {A} (a b : list A) (i : nat) :
  i < Nat.min (length a) (length b) ->
  nth_error (interleave a b) (2 * i) = nth_error a i /\
  nth_error (interleave a b) (2 * i + 1) = nth_error b i.
Proof.
  revert a b; induction i as [|i IH]; intros [|x a] [|y b] Hi; simpl in Hi; try lia.
  - now split.
  - replace (2 * S i) with (S (S (2 * i))) by lia. cbn [interleave nth_error Nat.add].
    apply IH. lia.
Qed.

Lemma skipn_interleave {A} (a b : list A) :
  let m := Nat.min (length a) (length b) in
  skipn (2 * m) (interleave a b) = skipn m a ++ skipn m b.
Proof.
  revert b; induction a as [|x a IH]; intros [|y b]; cbn [length Nat.min];
    try reflexivity.
  - simpl. now rewrite app_nil_r.
  - replace (2 * S (Nat.min (length a) (length b)))
      with (S (S (2 * Nat.min (length a) (length b)))) by lia.
    cbn [interleave skipn]. apply IH.
Qed.

Lemma map_fst_alloc (l : list Song) : map fst (alloc l) = seq 0 (length l).
Proof.
  unfold alloc. generalize 0. induction l as [|x l IH]; intros k; simpl; [reflexivity|].
  now rewrite IH.
Qed.

Lemma map_snd_alloc (l : list Song) : map snd (alloc l) = l.
Proof.
  unfold alloc. generalize 0. induction l as [|x l IH]; intros k; simpl; [reflexivity|].
  now rewrite IH.
Qed.

Lemma map_snd_filter (P : Song -> bool) (l : list Obj) :
  map snd (filter (fun s => P (snd s)) l) = filter P (map snd l).
Proof.
  induction l as [|x l IH]; simpl; [reflexivity|].
  destruct (P (snd x)); simpl; now rewrite IH.
Qed.

Lemma length_mapi {A B} (f : A -> nat -> B) (k : nat) (l : list A) :
  length (mapi f k l) = length l.
Proof. revert k; induction l as [|x l IH]; intros k; simpl; auto. Qed.

Lemma tag_wy_platform (k : nat) (A : list Song) :
  forallb (platform_is "wy") (mapi tag_wy k A) = true /\
  forallb (fun s => negb (platform_is "qq" s)) (mapi tag_wy k A) = true.
Proof. revert k; induction A as [|x A IH]; intros k; simpl; auto. Qed.

Lemma tag_qq_platform (k : nat) (B : list Song) :
  forallb (platform_is "qq") (mapi tag_qq k B) = true /\
  forallb (fun s => negb (platform_is "wy" s)) (mapi tag_qq k B) = true.
Proof. revert k; induction B as [|x B IH]; intros k; simpl; auto. Qed.

Lemma filter_all {A} (P : A -> bool) (l : list A) :
  forallb P l = true -> filter P l = l.
Proof.
  induction l as [|x l IH]; simpl; [reflexivity|].
  intros Hall. apply andb_true_iff in Hall as [-> Hall]. now rewrite IH.
Qed.

Lemma filter_none {A} (P : A -> bool) (l : list A) :
  forallb (fun x => negb (P x)) l = true -> filter P l = [].
Proof.
  induction l as [|x l IH]; simpl; [reflexivity|].
  intros Hall. apply andb_true_iff in Hall as [Hx Hall].
  apply negb_true_iff in Hx. now rewrite Hx, IH.
Qed.

Lemma forallb_negb_negb {A} (P : A -> bool) (l : list A) :
  forallb P l = true -> forallb (fun x => negb (negb (P x))) l = true.
Proof.
  induction l as [|y l IH]; simpl; [reflexivity|].
  intros Hl. apply andb_true_iff in Hl as [-> Hl]. now rewrite IH.
Qed.

(** The merge of two tagged lists whose platforms are the two providers. *)
Lemma merge_tagged (a b : list Song) :
  forallb (platform_is "wy") a = true ->
  forallb (fun s => negb (platform_is "qq" s)) a = true ->
  forallb (platform_is "qq") b = true ->
  forallb (fun s => negb (platform_is "wy" s)) b = true ->
  map snd (interleaveResults (alloc (a ++ b))) = interleave a b.
Proof.
  intros Ha Ha' Hb Hb'.
  rewrite interleaveResults_interleave
    by (rewrite map_fst_alloc; apply seq_NoDup).
  rewrite map_interleave.
  change (on_platform "wy") with (fun s : Obj => platform_is "wy" (snd s)).
  change (on_platform "qq") with (fun s : Obj => platform_is "qq" (snd s)).
  rewrite !map_snd_filter, map_snd_alloc, !filter_app.
  rewrite (filter_all _ a Ha), (filter_none _ b Hb'),
    (filter_none _ a Ha'), (filter_all _ b Hb).
  now rewrite app_nil_r.
Qed.

End ResultMerger.

(** C8. The merge of provider lists [A] ('wy') and [B] ('qq') is the tagged
    [A] and the tagged [B] taken in turns: it has [length A + length B]
    entries; as long as both lists last, entry [2i] is the [i]-th of [A] and
    entry [2i+1] the [i]-th of [B]; after that comes the rest of the longer
    list; and the entries of each provider appear in their original order. *)
Theorem merge_alternates_and_preserves_order (A B : list Song) :
  let a := mapi tag_wy 0 A in
  let b := mapi tag_qq 0 B in
  let m := Nat.min (length A) (length B) in
  merge A B = interleave a b /\
  length (merge A B) = length A + length B /\
  (forall i, i < m ->
     nth_error (merge A B) (2 * i) = nth_error a i /\
     nth_error (merge A B) (2 * i + 1) = nth_error b i) /\
  skipn (2 * m) (merge A B) = skipn m a ++ skipn m b /\
  filter (platform_is "wy") (merge A B) = a /\
  filter (platform_is "qq") (merge A B) = b.
Proof.
  intros a b m.
  assert (Hm : merge A B = interleave a b).
  { unfold merge. apply merge_tagged;
      first [apply tag_wy_platform | apply tag_qq_platform]. }
  assert (Hla : length a = length A) by apply length_mapi.
  assert (Hlb : length b = length B) by apply length_mapi.
  rewrite Hm. repeat split.
  - rewrite length_interleave. lia.
  - apply nth_interleave. unfold m in *. lia.
  - apply nth_interleave. unfold m in *. lia.
  - unfold m. rewrite <- Hla, <- Hlb. apply skipn_interleave.
  - destruct (tag_wy_platform 0 A) as [Ha _], (tag_qq_platform 0 B) as [_ Hb].
    now apply filter_interleave.
  - destruct (tag_wy_platform 0 A) as [_ Ha], (tag_qq_platform 0 B) as [Hb _].
    rewrite (filter_ext _ (fun s => negb (negb (platform_is "qq" s))))
      by (intros s; now rewrite negb_involutive).
    apply (filter_interleave (fun s => negb (platform_is "qq" s))); [exact Ha|].
    now apply forallb_negb_negb.
Qed.

(** ** Search *)

Section Search.

Lemma wy_items_declined (r : SearchResponse) :
  declined r = true -> wy_items r = inr [].
Proof.
  unfold declined, wy_items. destruct (sr_success r); simpl; [|reflexivity].
  destruct (sr_data r) as [data|]; [|discriminate].
  intros Hc. apply negb_true_iff in Hc. now rewrite Hc.
Qed.

Lemma qq_items_declined (r : SearchResponse) :
  declined r = true -> qq_items r = inr [].
Proof.
  unfold declined, qq_items. destruct (sr_success r); simpl; [|reflexivity].
  destruct (sr_data r) as [data|]; [|discriminate].
  intros Hc. apply negb_true_iff in Hc. now rewrite Hc.
Qed.

Lemma wy_items_usable (r : SearchResponse) (items : list Song) :
  usable r items -> wy_items r = inr (mapi tag_wy 0 items).
Proof. intros [Hs Hd]. unfold wy_items. now rewrite Hs, Hd. Qed.

Lemma qq_items_usable (r : SearchResponse) (items : list Song) :
  usable r items -> qq_items r = inr (mapi tag_qq 0 items).
Proof. intros [Hs Hd]. unfold qq_items. now rewrite Hs, Hd. Qed.

Lemma interleaveResults_alloc_one_platform (l : list Song) :
  map snd (interleaveResults (alloc l)) =
  interleave (filter (platform_is "wy") l) (filter (platform_is "qq") l).
Proof.
  rewrite interleaveResults_interleave
    by (rewrite map_fst_alloc; apply seq_NoDup).
  rewrite map_interleave.
  change (on_platform "wy") with (fun s : Obj => platform_is "wy" (snd s)).
  change (on_platform "qq") with (fun s : Obj => platform_is "qq" (snd s)).
  now rewrite !map_snd_filter, map_snd_alloc.
Qed.

Lemma search_results_rejected (wy qq : Settled SearchResponse) :
  (exists e, wy = RejectedWith e) \/ (exists e, qq = RejectedWith e) ->
  exists e, search_results wy qq = inl e.
Proof.
  intros [[e ->]|[e ->]].
  - now exists e.
  - destruct wy as [r|e']; [now exists e | now exists e'].
Qed.

(** [trim] gives the empty string exactly when [trimStart] does: the guard
    of [onSearch] only asks whether the term is white space from its start to
    its end. *)
Lemma trim_empty_iff (s : string) : JS.trim s = "" <-> JS.trimStart s = "".
Proof.
  unfold JS.trim. split; [|now intros ->].
  assert (Hidem : forall n r, String.length r <= n ->
                   JS.trimStart (JS.trimStart r) = JS.trimStart r).
  { induction n as [|n IH]; intros [|a r1] Hn; cbn [String.length] in Hn;
      try reflexivity; try lia.
    cbn [JS.trimStart]. destruct (JS.is_whitespace a) eqn:Ha; [apply IH; lia|].
    destruct r1 as [|b r2]; [cbn [JS.trimStart]; now rewrite Ha|].
    cbn [String.length] in Hn.
    destruct (JS.is_whitespace2 a b) eqn:Hab; [apply IH; lia|].
    destruct r2 as [|c r3]; [cbn [JS.trimStart]; now rewrite Ha, Hab|].
    cbn [String.length] in Hn.
    destruct (JS.is_whitespace3 a b c) eqn:Habc; [apply IH; lia|].
    cbn [JS.trimStart]. now rewrite Ha, Hab, Habc. }
  intros He. destruct (JS.trimStart s) as [|c r] eqn:Hs; [reflexivity|].
  cbn [JS.trimEnd] in He. rewrite <- Hs, (Hidem _ s (le_n _)), Hs in He.
  cbn in He. discriminate.
Qed.

(** A term of one-byte white space only is blank. *)
Lemma trim_ascii_blank (s : string) :
  JS.all_chars JS.is_whitespace s = true -> JS.trim s = "".
Proof.
  intros Hs. apply trim_empty_iff. induction s as [|c s IH]; [reflexivity|].
  cbn [JS.all_chars] in Hs. apply andb_true_iff in Hs as [Hc Hs].
  cbn [JS.trimStart]. rewrite Hc. now apply IH.
Qed.

(** [trim] on white space of more than one byte: the ideographic space and
    the no-break space are stripped at both ends, and a term made of them is
    blank, so that the search does nothing. *)
Remark trim_unicode_white_space :
  JS.trim (sample_ideographic_space ++ " a b " ++ sample_no_break_space) = "a b" /\
  JS.trim (sample_ideographic_space ++ sample_no_break_space) = "" /\
  forall wy qq s,
    onSearch {| cl_isLoading := false; cl_currentSong := None; cl_isPlaying := false;
                cl_searchTerm := sample_ideographic_space;
                cl_selectedQuality := None; cl_playQueue := [] |} wy qq s = s.
Proof. repeat split; reflexivity. Qed.

End Search.

(** C5, as the code has it.  A request that rejects fails the whole search:
    the error notice is shown and the result list stays as it was, whatever
    the other provider answered.  A response that arrives with a falsy
    [success] or a code other than 200 contributes no results: the list is
    built from the other provider's items and no error is shown. *)
Theorem onSearch_declined_degrades_rejected_fails
    (cl : Closure) (wy qq : Settled SearchResponse) (s : State) :
  JS.not_str (JS.trim (cl_searchTerm cl)) = false ->
  let s' := onSearch cl wy qq s in
  let fetches := [Fetch (search_url "wy" (cl_searchTerm cl)) None;
                  Fetch (search_url "qq" (cl_searchTerm cl)) None] in
  ((exists e, wy = RejectedWith e) \/ (exists e, qq = RejectedWith e) ->
   songs s' = songs s /\
   exists e, log s' = log s ++ fetches ++
                      [MessageError MSG_SEARCH_FAILED; ConsoleError "" e]) /\
  (forall r r' items,
     wy = Fulfilled r -> qq = Fulfilled r' -> declined r = true -> usable r' items ->
     songs s' = mapi tag_qq 0 items /\ log s' = log s ++ fetches) /\
  (forall r r' items,
     wy = Fulfilled r -> qq = Fulfilled r' -> usable r items -> declined r' = true ->
     songs s' = mapi tag_wy 0 items /\ log s' = log s ++ fetches) /\
  (forall r r',
     wy = Fulfilled r -> qq = Fulfilled r' -> declined r = true -> declined r' = true ->
     songs s' = [] /\ log s' = log s ++ fetches).
Proof.
  intros Hterm s' fetches. unfold s', onSearch. rewrite Hterm.
  split; [|split; [|split]].
  - intros Hrej. destruct (search_results_rejected wy qq Hrej) as [e ->].
    cbn. split; [reflexivity|]. exists e. now rewrite <- !app_assoc.
  - intros r r' items -> -> Hd Hu. cbn [search_results].
    rewrite (wy_items_declined r Hd), (qq_items_usable r' items Hu).
    cbn [app]. rewrite interleaveResults_alloc_one_platform.
    destruct (tag_qq_platform 0 items) as [Hqq Hnwy].
    rewrite (filter_none _ _ Hnwy), (filter_all _ _ Hqq).
    cbn. now rewrite <- !app_assoc.
  - intros r r' items -> -> Hu Hd. cbn [search_results].
    rewrite (wy_items_usable r items Hu), (qq_items_declined r' Hd).
    rewrite app_nil_r, interleaveResults_alloc_one_platform.
    destruct (tag_wy_platform 0 items) as [Hwy Hnqq].
    rewrite (filter_none _ _ Hnqq), (filter_all _ _ Hwy), interleave_nil_r.
    cbn. now rewrite <- !app_assoc.
  - intros r r' -> -> Hd Hd'. cbn [search_results].
    rewrite (wy_items_declined r Hd), (qq_items_declined r' Hd').
    cbn. now rewrite <- !app_assoc.
Qed.

Lemma onSearch_declined_degrades_rejected_fails_witness :
  songs (onSearch (render sample_state)
           (Fulfilled {| sr_success := false; sr_data := None |})
           (Fulfilled (sample_search [sample_song "B0" "qq"])) sample_state)
  = mapi tag_qq 0 [sample_song "B0" "qq"].
Proof.
  refine (proj1 (proj1 (proj2
    (onSearch_declined_degrades_rejected_fails (render sample_state) _ _ sample_state _))
    _ _ _ eq_refl eq_refl _ _)).
  - reflexivity.
  - reflexivity.
  - split; reflexivity.
Defined.

(** C5 as stated fails: provider A's request rejects, provider B answers
    with one item, and the search shows the error and keeps the old (empty)
    list instead of showing provider B's item. *)
Lemma onSearch_rejected_provider_counterexample :
  let wy := RejectedWith (TypeError "Failed to fetch") in
  let qq := Fulfilled (sample_search [sample_song "B0" "qq"]) in
  let s' := onSearch (render sample_state) wy qq sample_state in
  songs s' = [] /\
  songs s' <> mapi tag_qq 0 [sample_song "B0" "qq"] /\
  In (MessageError MSG_SEARCH_FAILED) (log s').
Proof.
  cbv zeta. split; [reflexivity|]. split; [discriminate|].
  vm_compute. auto.
Qed.

(** ** PlaybackResolver: one attempt *)

Section Attempt.

Context `{Collaborators}.

Lemma tryPlay_resume_commit (t : Task) (url : string) (o : Settled DetailResponse)
    (s : State) (u : Song) :
  tryPlay_body (t_call t) url o = inr (Resolved u) ->
  tryPlay_resume t url o s = (commit (t_call t) (t_controller t) u s, true, t_lastError t).
Proof. unfold tryPlay_resume. now intros ->. Qed.

Lemma tryPlay_resume_same (t : Task) (url : string) (o : Settled DetailResponse)
    (s : State) :
  tryPlay_body (t_call t) url o = inr SameUrl ->
  tryPlay_resume t url o s = (s, true, t_lastError t).
Proof. unfold tryPlay_resume. now intros ->. Qed.

Lemma retryable_spec (e : Error) :
  retryable e = true ->
  is_cors e = false /\ String.eqb (err_name e) "AbortError" = false.
Proof.
  unfold retryable, is_cors. intros Hr. apply andb_true_iff in Hr as [H1 H2].
  now apply negb_true_iff in H1, H2.
Qed.

Lemma tryPlay_resume_retryable (t : Task) (url : string) (o : Settled DetailResponse)
    (s : State) (e : Error) :
  tryPlay_body (t_call t) url o = inl e -> retryable e = true ->
  tryPlay_resume t url o s = (s, false, Some e).
Proof.
  unfold tryPlay_resume. intros -> Hr.
  destruct (retryable_spec e Hr) as [-> ->]. reflexivity.
Qed.

Lemma invalid_url_error_retryable : retryable (mkError MSG_INVALID_URL) = true.
Proof. vm_compute. reflexivity. Qed.

(** What the [try] block does with the URL that the fetch yields. *)
Lemma tryPlay_body_fetched (c : Call) (url : string) (o : Settled DetailResponse)
    (nu : option string) :
  fetched_url c o = Some nu ->
  exists data,
    o = Fulfilled {| dr_success := true; dr_data := Some data |} /\
    tryPlay_body c url o =
    if JS.eq_str (currentSong_url (cl_currentSong (call_cl c))) nu then inr SameUrl
    else if invalid_url nu then inl (mkError MSG_INVALID_URL)
    else inr (Resolved (updatedSong c url data nu)).
Proof.
  unfold fetched_url, tryPlay_body, invalid_url.
  destruct o as [[success [data|]]|e]; cbn [dr_data dr_success]; try discriminate.
  destruct success; cbn [andb]; [|discriminate].
  destruct (dd_code data =? 200); [|discriminate].
  intros Hnu. exists data. split; [reflexivity|].
  destruct (is_qq (call_song c)).
  - destruct (dd_data data) as [q|]; [|discriminate].
    injection Hnu as <-. reflexivity.
  - injection Hnu as <-. reflexivity.
Qed.

Lemma tryPlay_body_resolved_inv (c : Call) (url : string) (o : Settled DetailResponse)
    (u : Song) :
  tryPlay_body c url o = inr (Resolved u) ->
  exists data nu,
    fetched_url c o = Some nu /\ u = updatedSong c url data nu /\
    invalid_url nu = false /\
    JS.eq_str (currentSong_url (cl_currentSong (call_cl c))) nu = false.
Proof.
  unfold tryPlay_body, fetched_url, invalid_url.
  destruct o as [[success [data|]]|e]; cbn [dr_data dr_success]; try discriminate.
  destruct (success && (dd_code data =? 200)); [|discriminate].
  destruct (is_qq (call_song c)) eqn:Hqq.
  - destruct (dd_data data) as [q|]; [|discriminate].
    destruct (JS.eq_str _ (qq_url q)) eqn:Hsame; [discriminate|].
    cbn [song_url updatedSong].
    destruct (negb (JS.truthy_str (qq_url q)) || _) eqn:Hv; [discriminate|].
    intros [= <-]. exists data, (qq_url q). repeat split; assumption.
  - destruct (JS.eq_str _ (dd_mp3 data)) eqn:Hsame; [discriminate|].
    cbn [song_url updatedSong].
    destruct (negb (JS.truthy_str (dd_mp3 data)) || _) eqn:Hv; [discriminate|].
    intros [= <-]. exists data, (dd_mp3 data). repeat split; assumption.
Qed.

Lemma currentSong_commit (c : Call) (k : nat) (u : Song) (s : State) :
  currentSong (commit c k u s) = Some u.
Proof. reflexivity. Qed.

Lemma playHistory_commit (c : Call) (k : nat) (u : Song) (s : State) :
  playHistory (commit c k u s) =
  addToHistory (call_cl c) u (replace_same u (playHistory s)).
Proof.
  unfold commit, updateSongData.
  destruct (existsb _ (cl_playQueue (call_cl c))); reflexivity.
Qed.

Lemma log_commit (c : Call) (k : nat) (u : Song) (s : State) :
  log (commit c k u s) = log s ++ [SetCurrentSong k u].
Proof.
  unfold commit, updateSongData.
  destruct (existsb _ (cl_playQueue (call_cl c))); reflexivity.
Qed.

Lemma isPlaying_commit (c : Call) (k : nat) (u : Song) (s : State) :
  isPlaying (commit c k u s) = shouldAutoPlay c.
Proof. reflexivity. Qed.

Lemma or_str_idem (a : option string) (b : string) :
  JS.or_str (JS.or_str a (Some b)) (Some b) = JS.or_str a (Some b).
Proof.
  unfold JS.or_str. destruct (JS.truthy_str a) eqn:Ha.
  - now rewrite Ha.
  - now destruct (JS.truthy_str (Some b)).
Qed.

End Attempt.

(** C10. When an attempt commits, the committed song carries the platform of
    the song that was asked for; if that platform is 'qq' its lyrics are the
    empty list whatever the response held, so a committed song with a
    non-empty lyrics list is not a 'qq' song, and of the two providers it is
    a 'wy' song. *)
Theorem qq_commit_has_no_lyrics `{Collaborators}
    (t : Task) (url : string) (o : Settled DetailResponse) (s : State) (u : Song) :
  tryPlay_body (t_call t) url o = inr (Resolved u) ->
  let s' := fst (fst (tryPlay_resume t url o s)) in
  currentSong s' = Some u /\
  song_platform u = song_platform (call_song (t_call t)) /\
  (song_platform u = Some "qq" -> song_lyrics u = Some []) /\
  (forall l, song_lyrics u = Some l -> l <> [] -> song_platform u <> Some "qq") /\
  (forall l, song_platform u = Some "wy" \/ song_platform u = Some "qq" ->
             song_lyrics u = Some l -> l <> [] -> song_platform u = Some "wy").
Proof.
  intros Hbody s'. unfold s'. rewrite (tryPlay_resume_commit _ _ _ _ _ Hbody).
  destruct (tryPlay_body_resolved_inv _ _ _ _ Hbody) as (data & nu & _ & -> & _ & _).
  cbn [fst]. split; [reflexivity|]. split; [reflexivity|].
  assert (Hqq : song_platform (updatedSong (t_call t) url data nu) = Some "qq" ->
                song_lyrics (updatedSong (t_call t) url data nu) = Some []).
  { cbn [song_platform song_lyrics updatedSong]. unfold is_qq. now intros ->. }
  split; [exact Hqq|]. split.
  - intros l Hl Hne Hp. rewrite (Hqq Hp) in Hl. injection Hl as <-. now apply Hne.
  - intros l [Hp|Hp] Hl Hne; [exact Hp|].
    rewrite (Hqq Hp) in Hl. injection Hl as <-. now contradiction Hne.
Qed.

Lemma qq_commit_has_no_lyrics_witness :
  let s := sample_state in
  let c := sample_call s (sample_song "B0" "qq") (Some 0) (Some 5) false in
  let t := {| t_call := c; t_controller := 0; t_retryCount := 0;
              t_lastError := None; t_await := AwaitFetch (build_requestUrl c) |} in
  let o := Fulfilled (sample_detail_qq (Some "http://cdn.example/b0.mp3") ["la"; "la"]) in
  exists u,
    currentSong (fst (fst (tryPlay_resume (H := sample) t (build_requestUrl c) o s))) = Some u /\
    song_lyrics u = Some [].
Proof.
  cbv zeta.
  eexists. 
  pose proof (qq_commit_has_no_lyrics (H := sample)
    {| t_call := sample_call sample_state (sample_song "B0" "qq") (Some 0) (Some 5) false;
       t_controller := 0; t_retryCount := 0; t_lastError := None;
       t_await := AwaitFetch
         (build_requestUrl
            (sample_call sample_state (sample_song "B0" "qq") (Some 0) (Some 5) false)) |}
    (build_requestUrl
       (sample_call sample_state (sample_song "B0" "qq") (Some 0) (Some 5) false))
    (Fulfilled (sample_detail_qq (Some "http://cdn.example/b0.mp3") ["la"; "la"]))
    sample_state _ eq_refl) as (Hc & _ & Hl & _).
  split; [exact Hc | exact (Hl eq_refl)].
Defined.

Section Validation.

Context `{Collaborators}.

Lemma tryPlay_resume_body_ext (t : Task) (url : string)
    (o o' : Settled DetailResponse) (s : State) :
  tryPlay_body (t_call t) url o = tryPlay_body (t_call t) url o' ->
  tryPlay_resume t url o s = tryPlay_resume t url o' s.
Proof. unfold tryPlay_resume. now intros ->. Qed.

Lemma on_fetch_settled_body_ext (t : Task) (url : string)
    (o o' : Settled DetailResponse) (s : State) :
  tryPlay_body (t_call t) url o = tryPlay_body (t_call t) url o' ->
  on_fetch_settled t url o s = on_fetch_settled t url o' s.
Proof.
  intros Hb. unfold on_fetch_settled.
  destruct (signal_aborted (t_controller t) s); [reflexivity|].
  now rewrite (tryPlay_resume_body_ext t url o o' s Hb).
Qed.

(** A counted failure: the signal is not aborted and the attempt threw a
    retryable error. *)
Lemma on_fetch_settled_retryable (t : Task) (url : string)
    (o : Settled DetailResponse) (s : State) (e : Error) :
  signal_aborted (t_controller t) s = false ->
  tryPlay_body (t_call t) url o = inl e -> retryable e = true ->
  on_fetch_settled t url o s =
  let t' := {| t_call := t_call t; t_controller := t_controller t;
               t_retryCount := S (t_retryCount t); t_lastError := Some e;
               t_await := AwaitDelay |} in
  if S (t_retryCount t) <? MAX_RETRIES then
    (emit (Delay (t_controller t) 1000)
       (emit (MessageInfo (MSG_RETRYING (S (t_retryCount t)) MAX_RETRIES)) s), Some t')
  else while_head t' s.
Proof.
  intros Hna Hb Hr. unfold on_fetch_settled. rewrite Hna.
  rewrite (tryPlay_resume_retryable t url o s e Hb Hr). now rewrite Hna.
Qed.

End Validation.

(** C4, as the code has it.  An attempt whose fetch yields an empty or
    malformed URL changes nothing: the current song, the history and the log
    stay as they were.  When that URL is not the URL of the current song, the
    attempt throws the invalid-URL error and is handled exactly like a fetch
    that rejected with it: the error becomes [lastError] and the retry count
    goes up by one. *)
Theorem invalid_url_attempt_changes_nothing `{Collaborators}
    (t : Task) (url : string) (o : Settled DetailResponse) (s : State)
    (nu : option string) :
  fetched_url (t_call t) o = Some nu ->
  invalid_url nu = true ->
  fst (fst (tryPlay_resume t url o s)) = s /\
  (JS.eq_str (currentSong_url (cl_currentSong (call_cl (t_call t)))) nu = false ->
   tryPlay_resume t url o s = (s, false, Some (mkError MSG_INVALID_URL)) /\
   on_fetch_settled t url o s =
   on_fetch_settled t url (RejectedWith (mkError MSG_INVALID_URL)) s /\
   (signal_aborted (t_controller t) s = false ->
    S (t_retryCount t) < MAX_RETRIES ->
    exists t', snd (on_fetch_settled t url o s) = Some t' /\
               t_retryCount t' = S (t_retryCount t) /\
               t_lastError t' = Some (mkError MSG_INVALID_URL) /\
               t_await t' = AwaitDelay)).
Proof.
  intros Hf Hinv.
  destruct (tryPlay_body_fetched (t_call t) url o nu Hf) as (data & _ & Hbody).
  rewrite Hinv in Hbody.
  destruct (JS.eq_str (currentSong_url (cl_currentSong (call_cl (t_call t)))) nu).
  - split; [|discriminate]. now rewrite (tryPlay_resume_same t url o s Hbody).
  - pose proof (tryPlay_resume_retryable t url o s _ Hbody invalid_url_error_retryable)
      as Hres.
    split; [now rewrite Hres|]. intros _. split; [exact Hres|]. split.
    + apply on_fetch_settled_body_ext. now rewrite Hbody.
    + intros Hna Hrc.
      rewrite (on_fetch_settled_retryable t url o s _ Hna Hbody invalid_url_error_retryable).
      cbv zeta. apply Nat.ltb_lt in Hrc. rewrite Hrc. cbn [snd]. eauto.
Qed.

Lemma invalid_url_attempt_changes_nothing_witness :
  let c := sample_call sample_state (sample_song "A0" "wy") (Some 0) (Some 5) false in
  let o := Fulfilled (sample_detail_wy (Some "not a url") []) in
  fst (fst (tryPlay_resume (H := sample) (sample_task c) (build_requestUrl c) o sample_state))
  = sample_state.
Proof.
  cbv zeta.
  refine (proj1 (invalid_url_attempt_changes_nothing (H := sample)
            (sample_task (sample_call sample_state (sample_song "A0" "wy")
                            (Some 0) (Some 5) false))
            _ _ sample_state (Some "not a url") _ _)).
  - reflexivity.
  - reflexivity.
Defined.

(** C4 as stated fails.  The current song holds the URL "stale", which is
    not a URL; the fetch yields the same text.  The attempt returns [true]
    before the validation, so the resolution ends after this one attempt, with
    no error kept, no retry notice and no further fetch: the invalid URL was
    not counted as a failure. *)
Lemma invalid_url_same_as_current_counterexample :
  let s := setCurrentSong (Some (sample_resolved "Z" "wy" "stale")) sample_state in
  let c := sample_call s (sample_song "A0" "wy") (Some 0) (Some 5) false in
  let o := Fulfilled (sample_detail_wy (Some "stale") []) in
  fetched_url c o = Some (Some "stale") /\
  invalid_url (H := sample) (Some "stale") = true /\
  tryPlay_resume (H := sample) (sample_task c) (build_requestUrl c) o s = (s, true, None) /\
  option_map log (resolve (H := sample) c [o] s) =
  Some [Fetch "/api/sby?platform=wy&term=abc&index=0&quality=5" (Some 0)].
Proof.
  cbv zeta. repeat split; vm_compute; reflexivity.
Qed.

(** ** History entries and fetch descriptors *)

(** C7, as the code has it.  After a commit the newest history entry is the
    projection of the committed song, and its [requestUrl] is built anew from
    the committed song's platform, search term and search index and from the
    selected quality of the render.  It is the descriptor that was fetched
    when the song asked for carried no [requestUrl] of its own and the quality
    passed to [onPlaySong] is the selected quality. *)
Theorem history_requestUrl_is_rebuilt `{Collaborators}
    (t : Task) (o : Settled DetailResponse) (s : State) (u : Song) :
  let c := t_call t in
  let url := build_requestUrl c in
  tryPlay_body c url o = inr (Resolved u) ->
  let s' := fst (fst (tryPlay_resume t url o s)) in
  exists e rest,
    playHistory s' = e :: rest /\
    e = simplifiedSong (call_cl c) u /\
    song_requestUrl u = Some url /\
    song_requestUrl e =
      Some (descriptor (song_platform u) (song_searchTerm u) (song_searchIndex u)
              (cl_selectedQuality (call_cl c))) /\
    (JS.truthy_str (song_requestUrl (call_song c)) = false ->
     call_quality c = cl_selectedQuality (call_cl c) ->
     song_requestUrl e = Some url).
Proof.
  intros c url Hbody s'. unfold s'.
  rewrite (tryPlay_resume_commit _ _ _ _ _ Hbody). cbn [fst].
  rewrite playHistory_commit. unfold addToHistory, MAX_HISTORY.
  change 50 with (S 49). rewrite firstn_cons.
  destruct (tryPlay_body_resolved_inv _ _ _ _ Hbody) as (data & nu & _ & -> & _ & _).
  eexists _, _. split; [reflexivity|]. split; [reflexivity|]. split; [reflexivity|].
  cbn [song_requestUrl simplifiedSong song_platform song_searchTerm song_searchIndex
       updatedSong].
  fold c. rewrite or_str_idem. split; [reflexivity|].
  intros Hno Hq. unfold url, build_requestUrl. fold c. now rewrite Hno, Hq.
Qed.

Lemma history_requestUrl_is_rebuilt_witness :
  let c := sample_call sample_state (sample_song "A0" "wy") (Some 0) (Some 5) false in
  let o := Fulfilled (sample_detail_wy (Some "http://cdn.example/a0.mp3") []) in
  exists e rest,
    playHistory (fst (fst (tryPlay_resume (H := sample) (sample_task c)
                             (build_requestUrl c) o sample_state))) = e :: rest /\
    song_requestUrl e = Some (build_requestUrl c).
Proof.
  cbv zeta.
  destruct (history_requestUrl_is_rebuilt (H := sample)
              (sample_task (sample_call sample_state (sample_song "A0" "wy")
                              (Some 0) (Some 5) false))
              (Fulfilled (sample_detail_wy (Some "http://cdn.example/a0.mp3") []))
              sample_state _ eq_refl)
    as (e & rest & Hh & _ & _ & _ & Hurl).
  exists e, rest. split; [exact Hh|]. apply Hurl; reflexivity.
Defined.

(** C7 as stated fails.  The song is resolved at quality 9 while the selected
    quality is 5: the descriptor that is fetched ends in [quality=9], the one
    stored in the history entry ends in [quality=5]. *)
Lemma history_requestUrl_counterexample :
  let c := sample_call sample_state (sample_song "A0" "wy") (Some 0) (Some 9) false in
  let o := Fulfilled (sample_detail_wy (Some "http://cdn.example/a0.mp3") []) in
  exists s' e,
    resolve (H := sample) c [o] sample_state = Some s' /\
    hd_error (playHistory s') = Some e /\
    In (Fetch "/api/sby?platform=wy&term=abc&index=0&quality=9" (Some 0)) (log s') /\
    option_map song_requestUrl (currentSong s') =
      Some (Some "/api/sby?platform=wy&term=abc&index=0&quality=9") /\
    song_requestUrl e = Some "/api/sby?platform=wy&term=abc&index=0&quality=5" /\
    song_requestUrl e <> Some "/api/sby?platform=wy&term=abc&index=0&quality=9".
Proof.
  cbv zeta. eexists _, _. split; [vm_compute; reflexivity|].
  split; [reflexivity|]. split; [cbn; auto|]. split; [reflexivity|].
  split; [reflexivity|discriminate].
Qed.

(** ** PlaybackResolver: the retry loop *)

Section RetryLoop.

Context `{Collaborators}.

Lemma count_app (p : Effect -> bool) (l l' : list Effect) :
  count p (l ++ l') = count p l + count p l'.
Proof. unfold count. now rewrite filter_app, length_app. Qed.

Lemma since_app (s s' : State) (evs : list Effect) :
  log s' = log s ++ evs -> since s s' = evs.
Proof.
  unfold since. intros ->. rewrite skipn_app, skipn_all, Nat.sub_diag. reflexivity.
Qed.

Lemma nth_set_flag_other (i j : nat) (flags : list bool) :
  i <> j -> nth j (set_flag i flags) false = nth j flags false.
Proof.
  revert i j; induction flags as [|b flags IH]; intros [|i] [|j] Hne; simpl;
    try reflexivity; try congruence.
  apply IH. congruence.
Qed.

Lemma nth_fresh_flag (flags : list bool) :
  nth (length flags) (flags ++ [false]) false = false.
Proof. rewrite app_nth2, Nat.sub_diag by lia. reflexivity. Qed.

Lemma onPlaySong_accepted (c : Call) (s : State) :
  accepted c s = true ->
  onPlaySong c s = (entered c s, Some (first_attempt c (length (controllers s)))).
Proof.
  unfold accepted, onPlaySong, entered. intros Hacc.
  apply andb_true_iff in Hacc as [Hg Hs]. apply negb_true_iff in Hg. rewrite Hg.
  cbn [new_AbortController abortControllerRef setControllers].
  destruct (abortControllerRef s) as [previous|].
  - apply negb_true_iff in Hs. rewrite Hs. reflexivity.
  - reflexivity.
Qed.

Lemma onPlaySong_rejected (c : Call) (s : State) :
  accepted c s = false ->
  snd (onPlaySong c s) = None /\ log (fst (onPlaySong c s)) = log s /\
  currentSong (fst (onPlaySong c s)) = currentSong s /\
  playHistory (fst (onPlaySong c s)) = playHistory s /\
  abortControllerRef (fst (onPlaySong c s)) = abortControllerRef s /\
  (forall k, k < length (controllers s) ->
             signal_aborted k (fst (onPlaySong c s)) = signal_aborted k s).
Proof.
  unfold accepted, onPlaySong. intros Hacc.
  destruct (cl_isLoading (call_cl c) && negb (call_isRetry c));
    [cbn; intuition reflexivity|].
  cbn [new_AbortController abortControllerRef setControllers negb andb] in *.
  destruct (abortControllerRef s) as [previous|] eqn:Href; [|discriminate].
  apply negb_false_iff in Hacc. rewrite Hacc. cbn [fst snd].
  do 4 (split; [reflexivity|]). split; [exact Href|].
  intros k Hk. unfold signal_aborted. cbn. now rewrite app_nth1.
Qed.

Lemma entered_log (c : Call) (s : State) :
  log (entered c s) =
  log s ++ prelude s ++ [Fetch (build_requestUrl c) (Some (length (controllers s)))].
Proof.
  unfold entered, prelude. destruct (abortControllerRef s); cbn;
    now rewrite <- ?app_assoc.
Qed.

Lemma entered_not_aborted (c : Call) (s : State) :
  ref_exists s -> signal_aborted (length (controllers s)) (entered c s) = false.
Proof.
  unfold ref_exists, entered, signal_aborted. destruct (abortControllerRef s) as [p|]; cbn.
  - intros Hp. rewrite nth_set_flag_other by lia. apply nth_fresh_flag.
  - intros _. apply nth_fresh_flag.
Qed.

Lemma entered_keeps (c : Call) (s : State) :
  currentSong (entered c s) = currentSong s /\
  playHistory (entered c s) = playHistory s /\
  isPlaying (entered c s) = isPlaying s /\
  songs (entered c s) = songs s.
Proof. unfold entered. destruct (abortControllerRef s); now cbn. Qed.

Lemma finally_block_keeps (k : nat) (s : State) :
  log (finally_block k s) = log s /\
  currentSong (finally_block k s) = currentSong s /\
  playHistory (finally_block k s) = playHistory s /\
  isPlaying (finally_block k s) = isPlaying s /\
  controllers (finally_block k s) = controllers s /\
  isLoading (finally_block k s) = false.
Proof. unfold finally_block. destruct (signal_aborted k s); now cbn. Qed.

Lemma on_fetch_settled_commit (t : Task) (url : string)
    (o : Settled DetailResponse) (s : State) (u : Song) :
  signal_aborted (t_controller t) s = false ->
  tryPlay_body (t_call t) url o = inr (Resolved u) ->
  on_fetch_settled t url o s =
  (finally_block (t_controller t) (commit (t_call t) (t_controller t) u s), None).
Proof.
  intros Hna Hb. unfold on_fetch_settled. rewrite Hna.
  now rewrite (tryPlay_resume_commit t url o s u Hb).
Qed.

Lemma drive_done (fuel : nat) (os : list (Settled DetailResponse)) (s : State) :
  drive fuel os (s, None) = Some s.
Proof. now destruct fuel. Qed.

Lemma quiet_is_fetch : quiet is_fetch /\ forall k u, is_fetch (SetCurrentSong k u) = false.
Proof. now repeat split. Qed.

Lemma quiet_count2 (p : Effect -> bool) (e1 e2 : Effect) :
  p e1 = false -> p e2 = false -> count p [e1; e2] = 0.
Proof. unfold count. cbn. now intros -> ->. Qed.

(** What one step of a suspended resolution adds to the log. *)
Lemma tryPlay_resume_log (p : Effect -> bool) (t : Task) (url : string)
    (o : Settled DetailResponse) (s : State) :
  quiet p -> (forall u, p (SetCurrentSong (t_controller t) u) = false) ->
  exists evs, log (fst (fst (tryPlay_resume t url o s))) = log s ++ evs /\
              count p evs = 0.
Proof.
  intros (Hi & He & Hc & Hd) Hu. unfold tryPlay_resume.
  destruct (tryPlay_body (t_call t) url o) as [e|[|u]].
  - destruct (is_cors e).
    + eexists. cbn. rewrite <- app_assoc. split; [reflexivity|].
      now apply quiet_count2.
    + destruct (String.eqb (err_name e) "AbortError"); exists [];
        cbn; now rewrite app_nil_r.
  - exists []. cbn. now rewrite app_nil_r.
  - eexists. cbn [fst]. rewrite log_commit. split; [reflexivity|].
    unfold count. cbn. now rewrite Hu.
Qed.

Lemma exhausted_log (p : Effect -> bool) (t : Task) (s : State) :
  quiet p ->
  snd (exhausted t s) = None /\
  exists evs, log (fst (exhausted t s)) = log s ++ evs /\ count p evs = 0.
Proof.
  intros (Hi & He & Hc & Hd). unfold exhausted. split; [reflexivity|]. cbn [fst].
  match goal with |- context [finally_block ?k ?s1] =>
    destruct (finally_block_keeps k s1) as [-> _] end.
  destruct (negb _).
  - eexists. cbn. rewrite <- app_assoc. split; [reflexivity|].
    now apply quiet_count2.
  - exists []. now rewrite app_nil_r.
Qed.

Lemma on_timer_cases (t : Task) (s : State) :
  (t_retryCount t < MAX_RETRIES /\
   on_timer t s =
   (emit (Fetch (build_requestUrl (t_call t)) (Some (t_controller t))) s,
    Some {| t_call := t_call t; t_controller := t_controller t;
            t_retryCount := t_retryCount t; t_lastError := t_lastError t;
            t_await := AwaitFetch (build_requestUrl (t_call t)) |})) \/
  (MAX_RETRIES <= t_retryCount t /\ on_timer t s = exhausted t s).
Proof.
  unfold on_timer, while_head, tryPlay_request.
  destruct (t_retryCount t <? MAX_RETRIES) eqn:Hrc.
  - left. apply Nat.ltb_lt in Hrc. auto.
  - right. apply Nat.ltb_ge in Hrc. auto.
Qed.

Lemma on_fetch_settled_cases (p : Effect -> bool) (t : Task) (url : string)
    (o : Settled DetailResponse) (s : State) :
  quiet p -> (forall u, p (SetCurrentSong (t_controller t) u) = false) ->
  exists evs,
    log (fst (on_fetch_settled t url o s)) = log s ++ evs /\
    count p evs = 0 /\
    (snd (on_fetch_settled t url o s) = None \/
     exists t', snd (on_fetch_settled t url o s) = Some t' /\
                t_await t' = AwaitDelay /\
                t_controller t' = t_controller t /\
                t_retryCount t' = S (t_retryCount t) /\
                S (t_retryCount t) < MAX_RETRIES).
Proof.
  intros Hq Hu. unfold on_fetch_settled.
  set (o' := if signal_aborted (t_controller t) s then RejectedWith AbortError else o).
  destruct (tryPlay_resume_log p t url o' s Hq Hu) as (evs & Hlog & Hcount).
  destruct (tryPlay_resume t url o' s) as [[s1 success] lastError]. cbn [fst] in Hlog.
  destruct success.
  - exists evs. cbn [fst snd]. destruct (finally_block_keeps (t_controller t) s1) as [-> _].
    auto.
  - destruct (signal_aborted (t_controller t) s1).
    + exists evs. cbn [fst snd].
      destruct (finally_block_keeps (t_controller t) s1) as [-> _]. auto.
    + destruct (S (t_retryCount t) <? MAX_RETRIES) eqn:Hrc.
      * eexists. cbn [fst snd emit log]. rewrite Hlog, <- !app_assoc.
        split; [reflexivity|]. split.
        -- rewrite count_app, Hcount. destruct Hq as (Hi & He & Hc & Hd).
           now apply quiet_count2.
        -- right. eexists. split; [reflexivity|]. apply Nat.ltb_lt in Hrc. now cbn.
      * unfold while_head. cbn [t_retryCount]. rewrite Hrc.
        match goal with |- context [exhausted ?t' s1] =>
          destruct (exhausted_log p t' s1 Hq) as (Hnone & evs' & Hlog' & Hcount') end.
        exists (evs ++ evs'). rewrite Hlog', Hlog, <- app_assoc.
        split; [reflexivity|]. split; [|now left].
        rewrite count_app. lia.
Qed.

Lemma drive_returns (fuel : nat) :
  forall (os : list (Settled DetailResponse)) (t : Task) (s : State),
    t_retryCount t < MAX_RETRIES ->
    steps t <= fuel ->
    MAX_RETRIES - t_retryCount t <= length os ->
    exists s' evs,
      drive fuel os (s, Some t) = Some s' /\
      log s' = log s ++ evs /\
      count is_fetch evs <= budget t.
Proof.
  unfold steps, budget, MAX_RETRIES.
  induction fuel as [|fuel IH]; intros os t s Hrc Hfuel Hos.
  - destruct (t_await t); cbv beta iota in Hfuel; lia.
  - cbn [drive snd fst]. destruct (t_await t) as [url|] eqn:Haw.
    + destruct os as [|o os]; [cbn [length] in Hos; lia|].
      destruct (on_fetch_settled_cases is_fetch t url o s
                  (proj1 quiet_is_fetch) (proj2 quiet_is_fetch (t_controller t)))
        as (evs & Hlog & Hcount & [Hnone|(t' & Hsome & Haw' & _ & Hrc' & Hlt)]).
      * destruct (on_fetch_settled t url o s) as [s1 ot]. cbn [fst snd] in *. subst ot.
        rewrite drive_done. exists s1, evs. split; [reflexivity|]. split; [exact Hlog|lia].
      * destruct (on_fetch_settled t url o s) as [s1 ot]. cbn [fst snd] in *. subst ot.
        unfold MAX_RETRIES in Hlt.
        destruct (IH os t' s1) as (s' & evs' & Hd & Hlog' & Hcount').
        -- lia.
        -- rewrite Haw'. cbv beta iota in Hfuel |- *. lia.
        -- cbn [length] in Hos. lia.
        -- exists s', (evs ++ evs'). split; [exact Hd|].
           rewrite Hlog', Hlog, <- app_assoc. split; [reflexivity|].
           rewrite count_app. rewrite Haw' in Hcount'. cbv beta iota in Hcount' |- *. lia.
    + destruct (on_timer_cases t s) as [[_ ->]|[Hge _]]; [|unfold MAX_RETRIES in Hge; lia].
      match goal with |- context [drive fuel os (?s1, Some ?t')] =>
        destruct (IH os t' s1) as (s' & evs' & Hd & Hlog' & Hcount') end.
      * exact Hrc.
      * cbn [t_await t_retryCount]. cbv beta iota in Hfuel |- *. lia.
      * exact Hos.
      * exists s', (Fetch (build_requestUrl (t_call t)) (Some (t_controller t)) :: evs').
        split; [exact Hd|]. split.
        -- rewrite Hlog'. cbn [emit log]. now rewrite <- app_assoc.
        -- change (S (count is_fetch evs') <= 3 - t_retryCount t).
           cbn [t_await t_retryCount] in Hcount'. lia.
Qed.

Lemma resolve_returns (c : Call) (os : list (Settled DetailResponse)) (s : State) :
  MAX_RETRIES <= length os ->
  exists s', resolve c os s = Some s' /\ count is_fetch (since s s') <= MAX_RETRIES.
Proof.
  intros Hos. unfold resolve. destruct (accepted c s) eqn:Hacc.
  - rewrite (onPlaySong_accepted c s Hacc).
    destruct (drive_returns (2 * MAX_RETRIES) os
                (first_attempt c (length (controllers s))) (entered c s))
      as (s' & evs & Hd & Hlog & Hcount).
    + cbn. unfold MAX_RETRIES. lia.
    + cbn. lia.
    + cbn [first_attempt t_retryCount]. lia.
    + exists s'. split; [exact Hd|]. rewrite entered_log, <- !app_assoc in Hlog.
      rewrite (since_app _ _ _ Hlog), !count_app.
      unfold budget in Hcount. cbn [first_attempt t_await t_retryCount] in Hcount.
      assert (count is_fetch (prelude s) = 0)
        by (unfold prelude; now destruct (abortControllerRef s)).
      unfold MAX_RETRIES in *. cbn [count filter is_fetch length]. lia.
  - destruct (onPlaySong_rejected c s Hacc) as (Hnone & Hlog & _).
    destruct (onPlaySong c s) as [s1 ot]. cbn [fst snd] in *. subst ot.
    rewrite drive_done. exists s1. split; [reflexivity|].
    rewrite (since_app s s1 []) by now rewrite app_nil_r.
    cbn. lia.
Qed.

End RetryLoop.

Section RetryScenarios.

Context `{Collaborators}.

Variables (c : Call) (k : nat).

#[local] Abbreviation url := (build_requestUrl c).

Lemma drive_failed_round (fuel : nat) (os : list (Settled DetailResponse))
    (o : Settled DetailResponse) (s : State) (rc : nat) (le : option Error) (e : Error) :
  signal_aborted k s = false ->
  tryPlay_body c url o = inl e -> retryable e = true ->
  S rc < MAX_RETRIES ->
  drive (S (S fuel)) (o :: os) (s, Some (attempt_task c k rc le)) =
  drive fuel os
    (emit (Fetch url (Some k))
       (emit (Delay k 1000) (emit (MessageInfo (MSG_RETRYING (S rc) MAX_RETRIES)) s)),
     Some (attempt_task c k (S rc) (Some e))).
Proof.
  intros Hna Hb Hr Hrc.
  change (drive (S (S fuel)) (o :: os) (s, Some (attempt_task c k rc le)))
    with (drive (S fuel) os (on_fetch_settled (attempt_task c k rc le) url o s)).
  rewrite (on_fetch_settled_retryable (attempt_task c k rc le) url o s e Hna Hb Hr).
  cbv zeta. cbn [t_retryCount t_controller t_call attempt_task].
  apply Nat.ltb_lt in Hrc. rewrite Hrc.
  cbn [drive snd fst t_await]. unfold on_timer, while_head, tryPlay_request.
  cbn [t_retryCount t_controller t_call t_lastError]. now rewrite Hrc.
Qed.

Lemma drive_last_failure (fuel : nat) (os : list (Settled DetailResponse))
    (o : Settled DetailResponse) (s : State) (rc : nat) (le : option Error) (e : Error) :
  signal_aborted k s = false ->
  tryPlay_body c url o = inl e -> retryable e = true ->
  MAX_RETRIES <= S rc ->
  drive (S fuel) (o :: os) (s, Some (attempt_task c k rc le)) =
  Some (finally_block k
          (emit (MessageError (JS.or_default (Some (err_message e)) MSG_PLAY_FAILED_HINT))
             (emit (ConsoleError MSG_PLAY_FAILED_LOG e) s))).
Proof.
  intros Hna Hb Hr Hrc.
  change (drive (S fuel) (o :: os) (s, Some (attempt_task c k rc le)))
    with (drive fuel os (on_fetch_settled (attempt_task c k rc le) url o s)).
  rewrite (on_fetch_settled_retryable (attempt_task c k rc le) url o s e Hna Hb Hr).
  cbv zeta. cbn [t_retryCount t_controller t_call attempt_task].
  apply Nat.ltb_ge in Hrc. rewrite Hrc.
  unfold while_head, exhausted. cbn [t_retryCount t_controller t_lastError]. rewrite Hrc.
  destruct (retryable_spec e Hr) as [_ ->]. cbn [negb snd fst]. apply drive_done.
Qed.

Lemma drive_commit (fuel : nat) (os : list (Settled DetailResponse))
    (o : Settled DetailResponse) (s : State) (rc : nat) (le : option Error) (u : Song) :
  signal_aborted k s = false ->
  tryPlay_body c url o = inr (Resolved u) ->
  drive (S fuel) (o :: os) (s, Some (attempt_task c k rc le)) =
  Some (finally_block k (commit c k u s)).
Proof.
  intros Hna Hb.
  change (drive (S fuel) (o :: os) (s, Some (attempt_task c k rc le)))
    with (drive fuel os (on_fetch_settled (attempt_task c k rc le) url o s)).
  rewrite (on_fetch_settled_commit (attempt_task c k rc le) url o s u Hna Hb).
  apply drive_done.
Qed.

End RetryScenarios.

(** The retry loop on failures that it counts and remembers (neither
    cross-origin nor abort).  A resolution fetches at most three times and
    returns.  When the first two attempts fail and the third resolves a song, the log holds three
    fetches with a retry notice and a one-second wait after the first and after
    the second, then the commit of the third attempt, which becomes the current
    song and the newest history entry.  When all three attempts fail, nothing
    is committed, no notice or wait follows the third attempt, and the message
    of the third error is shown. *)
Theorem retry_policy `{Collaborators} (c : Call) (s : State) :
  let k := length (controllers s) in
  let body := tryPlay_body c (build_requestUrl c) in
  (forall os, MAX_RETRIES <= length os ->
     exists s', resolve c os s = Some s' /\ count is_fetch (since s s') <= 3) /\
  (accepted c s = true -> ref_exists s ->
   forall o1 o2 o3 e1 e2,
     body o1 = inl e1 -> retryable e1 = true ->
     body o2 = inl e2 -> retryable e2 = true ->
     (forall u, body o3 = inr (Resolved u) ->
        exists s',
          resolve c [o1; o2; o3] s = Some s' /\
          since s s' = three_attempts c s ++ [SetCurrentSong k u] /\
          count is_fetch (since s s') = 3 /\
          count is_delay (since s s') = 2 /\
          currentSong s' = Some u /\
          hd_error (playHistory s') = Some (simplifiedSong (call_cl c) u)) /\
     (forall e3, body o3 = inl e3 -> retryable e3 = true ->
        exists s',
          resolve c [o1; o2; o3] s = Some s' /\
          since s s' =
            three_attempts c s ++
            [ConsoleError MSG_PLAY_FAILED_LOG e3;
             MessageError (JS.or_default (Some (err_message e3)) MSG_PLAY_FAILED_HINT)] /\
          count is_fetch (since s s') = 3 /\
          count is_delay (since s s') = 2 /\
          count (is_commit_of k) (since s s') = 0 /\
          currentSong s' = currentSong s /\
          playHistory s' = playHistory s)).
Proof.
  intros k body. split; [intros os Hos; now apply resolve_returns|].
  intros Hacc Href o1 o2 o3 e1 e2 Hb1 Hr1 Hb2 Hr2.
  pose proof (entered_not_aborted c s Href) as Hna. fold k in Hna.
  pose proof (entered_log c s) as Hlog. fold k in Hlog.
  destruct (entered_keeps c s) as (Hcur & Hhist & _ & _).
  assert (Hpre0 : forall p, (forall a, p (Abort a) = false) -> count p (prelude s) = 0).
  { intros p Hp. unfold prelude, count. destruct (abortControllerRef s) as [a|];
      [|reflexivity]. cbn. now rewrite Hp. }
  unfold resolve. rewrite (onPlaySong_accepted c s Hacc). fold k.
  change (first_attempt c k) with (attempt_task c k 0 None).
  change (2 * MAX_RETRIES) with 6.
  rewrite (drive_failed_round c k 4 _ o1 _ 0 None e1 Hna Hb1 Hr1)
    by (unfold MAX_RETRIES; lia).
  match goal with |- context [drive 4 _ (?s2, _)] =>
    assert (Hna2 : signal_aborted k s2 = false) by exact Hna end.
  rewrite (drive_failed_round c k 2 _ o2 _ 1 (Some e1) e2 Hna2 Hb2 Hr2)
    by (unfold MAX_RETRIES; lia).
  match goal with |- context [drive 2 _ (?s3, _)] =>
    assert (Hna3 : signal_aborted k s3 = false) by exact Hna end.
  split.
  - intros u Hb3.
    rewrite (drive_commit c k 1 _ o3 _ 2 (Some e2) u Hna3 Hb3).
    eexists. split; [reflexivity|].
    match goal with |- since s ?s' = ?evs /\ _ =>
      assert (Hs : log s' = log s ++ evs) end.
    { destruct (finally_block_keeps k
        (commit c k u
           (emit (Fetch (build_requestUrl c) (Some k))
              (emit (Delay k 1000)
                 (emit (MessageInfo (MSG_RETRYING 2 MAX_RETRIES))
                    (emit (Fetch (build_requestUrl c) (Some k))
                       (emit (Delay k 1000)
                          (emit (MessageInfo (MSG_RETRYING 1 MAX_RETRIES))
                             (entered c s))))))))) as [-> _].
      rewrite log_commit. cbn [log emit]. rewrite Hlog.
      unfold three_attempts, retry_notice. fold k.
      rewrite <- !app_assoc. reflexivity. }
    rewrite (since_app _ _ _ Hs).
    split; [reflexivity|].
    unfold three_attempts, retry_notice. rewrite !count_app.
    rewrite !Hpre0 by reflexivity.
    split; [reflexivity|]. split; [reflexivity|].
    match goal with |- currentSong (finally_block ?a ?b) = _ /\ _ =>
      destruct (finally_block_keeps a b) as (_ & -> & -> & _) end.
    split; [reflexivity|].
    rewrite playHistory_commit. unfold addToHistory, MAX_HISTORY.
    change 50 with (S 49). now rewrite firstn_cons.
  - intros e3 Hb3 Hr3.
    rewrite (drive_last_failure c k 1 _ o3 _ 2 (Some e2) e3 Hna3 Hb3 Hr3)
      by (unfold MAX_RETRIES; lia).
    eexists. split; [reflexivity|].
    match goal with |- since s ?s' = ?evs /\ _ =>
      assert (Hs : log s' = log s ++ evs) end.
    { match goal with |- log (finally_block ?a ?b) = _ =>
        destruct (finally_block_keeps a b) as [-> _] end.
      cbn [log emit]. rewrite Hlog.
      unfold three_attempts, retry_notice. fold k.
      rewrite <- !app_assoc. reflexivity. }
    rewrite (since_app _ _ _ Hs).
    split; [reflexivity|].
    unfold three_attempts, retry_notice. rewrite !count_app.
    rewrite !Hpre0 by reflexivity.
    split; [reflexivity|]. split; [reflexivity|]. split; [reflexivity|].
    match goal with |- currentSong (finally_block ?a ?b) = _ /\ _ =>
      destruct (finally_block_keeps a b) as (_ & -> & -> & _) end.
    cbn [currentSong playHistory emit]. auto.
Qed.

Lemma retry_policy_witness :
  let c := sample_call sample_state (sample_song "A0" "wy") (Some 0) (Some 5) false in
  let os := [sample_failure; sample_failure; sample_success "http://cdn.example/a0.mp3"] in
  exists s',
    resolve (H := sample) c os sample_state = Some s' /\
    count is_delay (since sample_state s') = 2 /\
    option_map song_url (currentSong s') = Some (Some "http://cdn.example/a0.mp3").
Proof.
  cbv zeta.
  destruct (proj2 (retry_policy (H := sample)
              (sample_call sample_state (sample_song "A0" "wy") (Some 0) (Some 5) false)
              sample_state)
              eq_refl I sample_failure sample_failure
              (sample_success "http://cdn.example/a0.mp3")
              _ _ eq_refl eq_refl eq_refl eq_refl) as [Hcommit _].
  destruct (Hcommit _ eq_refl) as (s' & Hres & _ & _ & Hdelays & Hcur & _).
  exists s'. split; [exact Hres|]. split; [exact Hdelays|]. now rewrite Hcur.
Defined.

(** C2 on the code: the first attempt fails with a [SecurityError].  The
    error notice is shown and [isPlaying] is set to [false], but the loop goes
    on: the retry notice appears, the wait is taken and a second fetch is
    issued; it succeeds, the song is committed and [isPlaying] is [true]
    again. *)
Theorem security_error_is_retried :
  let c := sample_call sample_state (sample_song "A0" "wy") (Some 0) (Some 5) false in
  let request := Fetch "/api/sby?platform=wy&term=abc&index=0&quality=5" (Some 0) in
  exists s' u,
    resolve (H := sample) c
      [sample_security_error; sample_success "http://cdn.example/a0.mp3"] sample_state
    = Some s' /\
    log s' = [request;
              ConsoleError "CORS error detected:"
                {| err_name := "SecurityError"; err_message := "blocked" |};
              MessageError MSG_AUDIO_FAILED;
              MessageInfo (MSG_RETRYING 1 3);
              Delay 0 1000;
              request;
              SetCurrentSong 0 u] /\
    currentSong s' = Some u /\
    isPlaying s' = true.
Proof.
  cbv zeta. eexists _, _. split; [vm_compute; reflexivity|].
  split; [reflexivity|]. split; reflexivity.
Qed.

(** Three [SecurityError]s in a row: three fetches are issued, and the
    notice shown at the end is the generic one, since no error was kept. *)
Lemma security_error_uses_all_attempts :
  let c := sample_call sample_state (sample_song "A0" "wy") (Some 0) (Some 5) false in
  exists s',
    resolve (H := sample) c
      [sample_security_error; sample_security_error; sample_security_error] sample_state
    = Some s' /\
    count is_fetch (log s') = 3 /\
    last (log s') (Abort 0) = MessageError MSG_PLAY_FAILED.
Proof.
  cbv zeta. eexists. split; [vm_compute; reflexivity|]. split; reflexivity.
Qed.

(** C3 on the code: the first two attempts fail with errors that the loop
    keeps, the third with an error whose message contains 'CORS'.  The catch
    shows the audio error and returns without recording the third error, so
    the error thrown after the loop and shown to the user is the second one:
    the last notice carries the message of the second error, not of the
    third.  Nothing is committed. *)
Theorem cross_origin_third_failure_surfaces_second_error :
  let c := sample_call sample_state (sample_song "A0" "wy") (Some 0) (Some 5) false in
  let request := Fetch "/api/sby?platform=wy&term=abc&index=0&quality=5" (Some 0) in
  exists s',
    resolve (H := sample) c
      [sample_failure; sample_declined "server busy";
       sample_declined "CORS preflight failed"] sample_state
    = Some s' /\
    log s' = [request; MessageInfo (MSG_RETRYING 1 3); Delay 0 1000;
              request; MessageInfo (MSG_RETRYING 2 3); Delay 0 1000;
              request;
              ConsoleError "CORS error detected:" (mkError "CORS preflight failed");
              MessageError MSG_AUDIO_FAILED;
              ConsoleError MSG_PLAY_FAILED_LOG (mkError "server busy");
              MessageError "server busy"] /\
    currentSong s' = None /\ playHistory s' = [].
Proof.
  cbv zeta. eexists. split; [vm_compute; reflexivity|].
  split; [reflexivity|]. split; reflexivity.
Qed.

(** ** Cancellation *)

Section Cancellation.

Context `{Collaborators}.

Lemma nth_true_lt (a : nat) (flags : list bool) :
  nth a flags false = true -> a < length flags.
Proof.
  intros Hn. destruct (Nat.lt_ge_cases a (length flags)) as [Hlt|Hge]; [exact Hlt|].
  rewrite nth_overflow in Hn by exact Hge. discriminate.
Qed.

Lemma nth_set_flag_mono (a p : nat) (flags : list bool) :
  nth a flags false = true -> nth a (set_flag p flags) false = true.
Proof.
  revert a p; induction flags as [|b flags IH]; intros [|a] [|p]; simpl; auto.
Qed.

Lemma nth_set_flag_same (a : nat) (flags : list bool) :
  a < length flags -> nth a (set_flag a flags) false = true.
Proof.
  revert a; induction flags as [|b flags IH]; intros [|a]; simpl; try lia; auto.
  intros Hlt. apply IH. lia.
Qed.

Lemma entered_controllers (c : Call) (s : State) :
  controllers (entered c s) =
  match abortControllerRef s with
  | Some previous => set_flag previous (controllers s ++ [false])
  | None => controllers s ++ [false]
  end.
Proof. unfold entered. now destruct (abortControllerRef s). Qed.

(** An aborted signal stays aborted through a call of [onPlaySong]. *)
Lemma onPlaySong_keeps_aborted (c : Call) (s : State) (a : nat) :
  signal_aborted a s = true -> signal_aborted a (fst (onPlaySong c s)) = true.
Proof.
  intros Hab. pose proof (nth_true_lt _ _ Hab) as Hlt.
  destruct (accepted c s) eqn:Hacc.
  - rewrite (onPlaySong_accepted c s Hacc). cbn [fst].
    unfold signal_aborted in *. rewrite entered_controllers.
    assert (Hin : nth a (controllers s ++ [false]) false = true)
      by now rewrite app_nth1.
    destruct (abortControllerRef s); [now apply nth_set_flag_mono | exact Hin].
  - destruct (onPlaySong_rejected c s Hacc) as (_ & _ & _ & _ & _ & Hk).
    now rewrite Hk.
Qed.

Lemma onPlaySong_commits (c : Call) (s : State) (a : nat) :
  count (is_commit_of a) (log (fst (onPlaySong c s))) = count (is_commit_of a) (log s).
Proof.
  destruct (accepted c s) eqn:Hacc.
  - rewrite (onPlaySong_accepted c s Hacc). cbn [fst].
    rewrite entered_log, !count_app. unfold prelude.
    destruct (abortControllerRef s); cbn; lia.
  - destruct (onPlaySong_rejected c s Hacc) as (_ & -> & _). reflexivity.
Qed.

Lemma is_cors_AbortError : is_cors AbortError = false.
Proof. vm_compute. reflexivity. Qed.

(** The continuation of a fetch whose signal is aborted only runs the
    [finally] block. *)
Lemma on_fetch_settled_aborted (t : Task) (url : string)
    (o : Settled DetailResponse) (s : State) :
  signal_aborted (t_controller t) s = true ->
  on_fetch_settled t url o s = (finally_block (t_controller t) s, None).
Proof.
  intros Hab. unfold on_fetch_settled. rewrite Hab.
  assert (Hres : tryPlay_resume t url (RejectedWith AbortError) s
                 = (s, false, t_lastError t)).
  { unfold tryPlay_resume. cbn [tryPlay_body]. now rewrite is_cors_AbortError. }
  rewrite Hres. now rewrite Hab.
Qed.

Lemma commit_controllers (c : Call) (k : nat) (u : Song) (s : State) :
  controllers (commit c k u s) = controllers s.
Proof.
  unfold commit, updateSongData.
  destruct (existsb _ (cl_playQueue (call_cl c))); reflexivity.
Qed.

Lemma tryPlay_resume_controllers (t : Task) (url : string)
    (o : Settled DetailResponse) (s : State) :
  controllers (fst (fst (tryPlay_resume t url o s))) = controllers s.
Proof.
  unfold tryPlay_resume.
  destruct (tryPlay_body (t_call t) url o) as [e|[|u]]; cbn [fst].
  - destruct (is_cors e); [reflexivity|].
    now destruct (String.eqb (err_name e) "AbortError").
  - reflexivity.
  - apply commit_controllers.
Qed.

Lemma exhausted_keeps (t : Task) (s : State) :
  controllers (fst (exhausted t s)) = controllers s /\
  currentSong (fst (exhausted t s)) = currentSong s /\
  playHistory (fst (exhausted t s)) = playHistory s.
Proof.
  unfold exhausted. cbn [fst].
  match goal with |- context [finally_block ?k ?s1] =>
    destruct (finally_block_keeps k s1) as (_ & -> & -> & _ & -> & _) end.
  now destruct (negb _).
Qed.

Lemma on_timer_keeps (t : Task) (s : State) :
  controllers (fst (on_timer t s)) = controllers s /\
  currentSong (fst (on_timer t s)) = currentSong s /\
  playHistory (fst (on_timer t s)) = playHistory s.
Proof.
  destruct (on_timer_cases t s) as [[_ ->]|[_ ->]]; [now cbn|apply exhausted_keeps].
Qed.

Lemma on_fetch_settled_controllers (t : Task) (url : string)
    (o : Settled DetailResponse) (s : State) :
  controllers (fst (on_fetch_settled t url o s)) = controllers s.
Proof.
  unfold on_fetch_settled.
  set (o' := if signal_aborted (t_controller t) s then RejectedWith AbortError else o).
  pose proof (tryPlay_resume_controllers t url o' s) as Hc.
  destruct (tryPlay_resume t url o' s) as [[s1 success] lastError]. cbn [fst] in Hc.
  destruct success; cbn [fst].
  - destruct (finally_block_keeps (t_controller t) s1) as (_ & _ & _ & _ & -> & _).
    exact Hc.
  - destruct (signal_aborted (t_controller t) s1); cbn [fst].
    + destruct (finally_block_keeps (t_controller t) s1) as (_ & _ & _ & _ & -> & _).
      exact Hc.
    + destruct (S (t_retryCount t) <? MAX_RETRIES) eqn:Hrc; [exact Hc|].
      unfold while_head. cbn [t_retryCount]. rewrite Hrc.
      match goal with |- context [exhausted ?t' s1] =>
        destruct (exhausted_keeps t' s1) as [-> _] end.
      exact Hc.
Qed.

Lemma on_timer_commits (t : Task) (s : State) (a : nat) :
  count (is_commit_of a) (log (fst (on_timer t s))) = count (is_commit_of a) (log s).
Proof.
  assert (Hq : quiet (is_commit_of a)) by now repeat split.
  destruct (on_timer_cases t s) as [[_ ->]|[_ ->]].
  - cbn [fst emit log]. rewrite count_app. cbn. lia.
  - destruct (exhausted_log (is_commit_of a) t s Hq) as (_ & evs & -> & Hc).
    rewrite count_app. lia.
Qed.

Lemma on_timer_controller (t t' : Task) (s : State) :
  snd (on_timer t s) = Some t' -> t_controller t' = t_controller t.
Proof.
  destruct (on_timer_cases t s) as [[_ ->]|[_ ->]]; cbn [snd].
  - now intros [= <-].
  - discriminate.
Qed.

Lemma find_task_controller (k : nat) (tasks : list Task) (t : Task) :
  find_task k tasks = Some t -> t_controller t = k.
Proof.
  unfold find_task. intros Hf. apply find_some in Hf as [_ Hk].
  now apply Nat.eqb_eq in Hk.
Qed.

Lemma find_task_remove_other (k b : nat) (tasks : list Task) :
  k <> b -> find_task b (remove_task k tasks) = find_task b tasks.
Proof.
  intros Hne. unfold find_task, remove_task.
  induction tasks as [|t tasks IH]; [reflexivity|]. cbn [filter find].
  destruct (t_controller t =? k) eqn:Hk; cbn [negb find].
  - apply Nat.eqb_eq in Hk.
    assert (Hb : (t_controller t =? b) = false) by (apply Nat.eqb_neq; lia).
    now rewrite Hb.
  - now rewrite IH.
Qed.

(** Once the signal of controller [a] is aborted, no event makes the
    resolution with that controller commit, and the signal stays aborted. *)
Lemma step_after_abort (a : nat) (e : Event) (cfg cfg' : Config) :
  signal_aborted a (st cfg) = true ->
  step e cfg = Some cfg' ->
  signal_aborted a (st cfg') = true /\
  count (is_commit_of a) (log (st cfg')) = count (is_commit_of a) (log (st cfg)).
Proof.
  intros Hab Hstep. destruct e as [c|k o|k]; cbn [step] in Hstep.
  - injection Hstep as <-. cbn [st]. split.
    + now apply onPlaySong_keeps_aborted.
    + apply onPlaySong_commits.
  - destruct (find_task k (pool cfg)) as [t|] eqn:Hfind; [|discriminate].
    destruct (t_await t) as [url|]; [|discriminate].
    injection Hstep as <-. cbn [st resume].
    pose proof (find_task_controller _ _ _ Hfind) as Hk. split.
    + unfold signal_aborted in *. now rewrite on_fetch_settled_controllers.
    + destruct (Nat.eq_dec k a) as [->|Hne].
      * rewrite <- Hk in Hab. rewrite (on_fetch_settled_aborted t url o _ Hab).
        cbn [fst]. now destruct (finally_block_keeps (t_controller t) (st cfg)) as [-> _].
      * destruct (on_fetch_settled_cases (is_commit_of a) t url o (st cfg))
          as (evs & -> & Hc & _).
        -- now repeat split.
        -- intros u. cbn. apply Nat.eqb_neq. lia.
        -- rewrite count_app. lia.
  - destruct (find_task k (pool cfg)) as [t|] eqn:Hfind; [|discriminate].
    destruct (t_await t) as [url|]; [discriminate|].
    injection Hstep as <-. cbn [st resume]. split.
    + unfold signal_aborted in *.
      now destruct (on_timer_keeps t (st cfg)) as [-> _].
    + apply on_timer_commits.
Qed.

Lemma run_after_abort (a : nat) (es : list Event) :
  forall cfg cfg',
    signal_aborted a (st cfg) = true ->
    run es cfg = Some cfg' ->
    signal_aborted a (st cfg') = true /\
    count (is_commit_of a) (log (st cfg')) = count (is_commit_of a) (log (st cfg)).
Proof.
  induction es as [|e es IH]; intros cfg cfg' Hab Hrun; cbn [run] in Hrun.
  - injection Hrun as <-. auto.
  - destruct (step e cfg) as [cfg1|] eqn:Hstep; [|discriminate].
    destruct (step_after_abort a e cfg cfg1 Hab Hstep) as [Hab1 Hc1].
    destruct (IH cfg1 cfg' Hab1 Hrun) as [Hab' Hc']. split; [exact Hab'|]. lia.
Qed.

(** The continuation of an aborted resolution neither sets the current
    song nor writes history. *)
Lemma aborted_step_keeps (a : nat) (e : Event) (cfg cfg' : Config) :
  signal_aborted a (st cfg) = true ->
  resumes a e = true ->
  step e cfg = Some cfg' ->
  currentSong (st cfg') = currentSong (st cfg) /\
  playHistory (st cfg') = playHistory (st cfg).
Proof.
  intros Hab He Hstep. destruct e as [c|k o|k]; cbn [resumes] in He; [discriminate| |];
    apply Nat.eqb_eq in He; subst k; cbn [step] in Hstep;
    destruct (find_task a (pool cfg)) as [t|] eqn:Hfind; try discriminate;
    pose proof (find_task_controller _ _ _ Hfind) as Hk.
  - destruct (t_await t) as [url|]; [|discriminate].
    injection Hstep as <-. cbn [st resume].
    rewrite <- Hk in Hab. rewrite (on_fetch_settled_aborted t url o _ Hab). cbn [fst].
    now destruct (finally_block_keeps (t_controller t) (st cfg)) as (_ & -> & -> & _).
  - destruct (t_await t) as [url|]; [discriminate|].
    injection Hstep as <-. cbn [st resume].
    now destruct (on_timer_keeps t (st cfg)) as (_ & -> & ->).
Qed.

(** Events of other resolutions leave a waiting resolution in the pool
    and its signal as it was. *)
Lemma step_other_keeps (b : nat) (B : Task) (e : Event) (cfg cfg' : Config) :
  other_than b e = true ->
  step e cfg = Some cfg' ->
  find_task b (pool cfg) = Some B ->
  find_task b (pool cfg') = Some B /\
  signal_aborted b (st cfg') = signal_aborted b (st cfg).
Proof.
  intros He Hstep HB. destruct e as [c|k o|k]; cbn [other_than] in He; [discriminate| |];
    apply negb_true_iff, Nat.eqb_neq in He; cbn [step] in Hstep;
    destruct (find_task k (pool cfg)) as [t|] eqn:Hfind; try discriminate;
    pose proof (find_task_controller _ _ _ Hfind) as Hk.
  - destruct (t_await t) as [url|]; [|discriminate].
    injection Hstep as <-. cbn [st pool resume]. split.
    + destruct (on_fetch_settled_cases is_fetch t url o (st cfg)
                  (proj1 quiet_is_fetch) (proj2 quiet_is_fetch (t_controller t)))
        as (_ & _ & _ & [->|(t' & -> & _ & Hk' & _)]).
      * now rewrite find_task_remove_other.
      * unfold find_task at 1. cbn [find].
        assert (Hb : (t_controller t' =? b) = false) by (apply Nat.eqb_neq; lia).
        rewrite Hb. fold (find_task b (remove_task k (pool cfg))).
        now rewrite find_task_remove_other.
    + unfold signal_aborted. now rewrite on_fetch_settled_controllers.
  - destruct (t_await t) as [url|]; [discriminate|].
    injection Hstep as <-. cbn [st pool resume]. split.
    + destruct (snd (on_timer t (st cfg))) as [t'|] eqn:Ht'.
      * pose proof (on_timer_controller t t' _ Ht') as Hk'.
        unfold find_task at 1. cbn [find].
        assert (Hb : (t_controller t' =? b) = false) by (apply Nat.eqb_neq; lia).
        rewrite Hb. fold (find_task b (remove_task k (pool cfg))).
        now rewrite find_task_remove_other.
      * now rewrite find_task_remove_other.
    + unfold signal_aborted. now destruct (on_timer_keeps t (st cfg)) as [-> _].
Qed.

Lemma run_other_keeps (b : nat) (B : Task) (es : list Event) :
  forall cfg cfg',
    forallb (other_than b) es = true ->
    run es cfg = Some cfg' ->
    find_task b (pool cfg) = Some B ->
    find_task b (pool cfg') = Some B /\
    signal_aborted b (st cfg') = signal_aborted b (st cfg).
Proof.
  induction es as [|e es IH]; intros cfg cfg' Hes Hrun HB; cbn [run] in Hrun.
  - injection Hrun as <-. auto.
  - cbn [forallb] in Hes. apply andb_true_iff in Hes as [He Hes].
    destruct (step e cfg) as [cfg1|] eqn:Hstep; [|discriminate].
    destruct (step_other_keeps b B e cfg cfg1 He Hstep HB) as [HB1 Hs1].
    destruct (IH cfg1 cfg' Hes Hrun HB1) as [HB' Hs']. split; [exact HB'|].
    now rewrite Hs'.
Qed.

End Cancellation.

(** C1, as the code has it.  Resolution [A] is in flight when [onPlaySong]
    is called for [B].

    A call that the entry guards turn away is a no-op: nothing is logged, the
    ref and [A]'s signal stay as they were, and [A]'s fetch, when it settles
    with a song that resolves, commits it.

    A call that passes the guards first aborts the controller that the ref
    holds, if any, and only then issues its own fetch; and when [B]'s fetch
    settles with a song that resolves, after any events of other resolutions,
    [B] commits it: it is the current song and the newest history entry.
    When the controller that the ref holds is [A]'s, then from the call on,
    whatever events follow, no commit of [A] is ever logged and the
    continuations of [A] leave the current song and the history alone. *)
Theorem superseding_call_cancels_and_commits `{Collaborators}
    (cfg : Config) (A : Task) (cB : Call) :
  let s := st cfg in
  let a := t_controller A in
  let b := length (controllers s) in
  let urlB := build_requestUrl cB in
  In A (pool cfg) ->
  a < b ->
  ref_exists s ->
  exists cfg1,
    step (Invoke cB) cfg = Some cfg1 /\
    (accepted cB s = false ->
     log (st cfg1) = log s /\
     pool cfg1 = pool cfg /\
     abortControllerRef (st cfg1) = abortControllerRef s /\
     signal_aborted a (st cfg1) = signal_aborted a s /\
     forall urlA o u,
       find_task a (pool cfg) = Some A ->
       t_await A = AwaitFetch urlA ->
       signal_aborted a s = false ->
       tryPlay_body (t_call A) urlA o = inr (Resolved u) ->
       exists cfg2,
         step (FetchSettled a o) cfg1 = Some cfg2 /\
         log (st cfg2) = log s ++ [SetCurrentSong a u] /\
         currentSong (st cfg2) = Some u /\
         hd_error (playHistory (st cfg2)) =
           Some (simplifiedSong (call_cl (t_call A)) u)) /\
    (accepted cB s = true ->
     since s (st cfg1) = prelude s ++ [Fetch urlB (Some b)] /\
     In A (pool cfg1) /\
     (forall es cfg2,
        forallb (other_than b) es = true -> run es cfg1 = Some cfg2 ->
        forall o u,
          tryPlay_body cB urlB o = inr (Resolved u) ->
          exists cfg3,
            step (FetchSettled b o) cfg2 = Some cfg3 /\
            log (st cfg3) = log (st cfg2) ++ [SetCurrentSong b u] /\
            currentSong (st cfg3) = Some u /\
            isPlaying (st cfg3) = shouldAutoPlay cB /\
            hd_error (playHistory (st cfg3)) = Some (simplifiedSong (call_cl cB) u)) /\
     (abortControllerRef s = Some a ->
      since s (st cfg1) = [Abort a; Fetch urlB (Some b)] /\
      signal_aborted a (st cfg1) = true /\
      forall es cfg2,
        run es cfg1 = Some cfg2 ->
        count (is_commit_of a) (log (st cfg2)) = count (is_commit_of a) (log s) /\
        forall e cfg3,
          resumes a e = true -> step e cfg2 = Some cfg3 ->
          currentSong (st cfg3) = currentSong (st cfg2) /\
          playHistory (st cfg3) = playHistory (st cfg2))).
Proof.
  intros s a b urlB HA Hlt Hex.
  destruct (accepted cB s) eqn:Hacc.
  - (* the call passes the guards *)
    pose (cfg1 := {| st := entered cB s; pool := first_attempt cB b :: pool cfg |}).
    exists cfg1.
    assert (Hnb : signal_aborted b (entered cB s) = false)
      by now apply entered_not_aborted.
    split; [|split; [discriminate|intros _]].
    { cbn [step]. fold s. now rewrite (onPlaySong_accepted cB s Hacc). }
    split; [|split; [|split]].
    + cbn [st]. apply since_app. apply entered_log.
    + cbn [pool]. now right.
    + intros es cfg2 Hes Hrun o u Hbody.
      destruct (run_other_keeps b (first_attempt cB b) es cfg1 cfg2 Hes Hrun) as [HB Hsig].
      { unfold cfg1, find_task. cbn [pool find first_attempt t_controller].
        now rewrite Nat.eqb_refl. }
      unfold cfg1 in Hsig. cbn [st] in Hsig. rewrite Hnb in Hsig.
      exists {| st := finally_block b (commit cB b u (st cfg2));
                pool := remove_task b (pool cfg2) |}.
      split.
      * cbn [step]. rewrite HB. cbn [t_await first_attempt]. fold urlB.
        rewrite (on_fetch_settled_commit (first_attempt cB b) urlB o (st cfg2) u Hsig Hbody).
        reflexivity.
      * cbn [st].
        destruct (finally_block_keeps b (commit cB b u (st cfg2)))
          as (-> & -> & -> & -> & _).
        rewrite log_commit, playHistory_commit. unfold addToHistory, MAX_HISTORY.
        change 50 with (S 49). rewrite firstn_cons. now repeat split.
    + intros Href.
      assert (Hlog : log (entered cB s) = log s ++ [Abort a; Fetch urlB (Some b)]).
      { rewrite entered_log. unfold prelude. now rewrite Href. }
      assert (Hab : signal_aborted a (entered cB s) = true).
      { unfold signal_aborted. rewrite entered_controllers, Href.
        apply nth_set_flag_same. rewrite length_app. cbn. fold b. lia. }
      split; [cbn [st]; now apply since_app|]. split; [exact Hab|].
      intros es cfg2 Hrun.
      destruct (run_after_abort a es cfg1 cfg2 Hab Hrun) as [Hab2 Hc2]. split.
      * rewrite Hc2. unfold cfg1. cbn [st]. rewrite Hlog, count_app. cbn. lia.
      * intros e cfg3 He Hstep. exact (aborted_step_keeps a e cfg2 cfg3 Hab2 He Hstep).
  - (* the call is turned away *)
    destruct (onPlaySong_rejected cB s Hacc) as (Hnone & Hlog & _ & _ & Href & Hsig).
    exists {| st := fst (onPlaySong cB s); pool := pool cfg |}.
    split; [|split; [intros _|discriminate]].
    { cbn [step]. fold s. now rewrite Hnone. }
    cbn [st pool]. do 3 (split; [assumption || reflexivity|]).
    split; [now apply Hsig|].
    intros urlA o u Hfind Haw Hna Hbody.
    assert (Hna1 : signal_aborted a (fst (onPlaySong cB s)) = false)
      by (rewrite Hsig; assumption).
    exists {| st := finally_block a (commit (t_call A) a u (fst (onPlaySong cB s)));
              pool := remove_task a (pool cfg) |}.
    split.
    + cbn [step pool st]. rewrite Hfind, Haw.
      rewrite (on_fetch_settled_commit A urlA o _ u Hna1 Hbody). reflexivity.
    + cbn [st].
      destruct (finally_block_keeps a (commit (t_call A) a u (fst (onPlaySong cB s))))
        as (-> & -> & -> & _).
      rewrite log_commit, playHistory_commit, Hlog. unfold addToHistory, MAX_HISTORY.
      change 50 with (S 49). rewrite firstn_cons. now repeat split.
Qed.

Lemma superseding_call_cancels_and_commits_witness :
  (let cB := sample_call (st sample_in_flight) (sample_song "B0" "qq")
               (Some 0) (Some 5) true in
   exists cfg1,
     step (H := sample) (Invoke cB) sample_in_flight = Some cfg1 /\
     since (st sample_in_flight) (st cfg1) =
       [Abort 0; Fetch "/api/sby?platform=qq&term=abc&index=0&quality=5" (Some 1)] /\
     signal_aborted 0 (st cfg1) = true) /\
  (let cB := sample_call (st sample_in_flight) (sample_song "B0" "qq")
               (Some 0) (Some 5) false in
   exists cfg1 cfg2 uA,
     step (H := sample) (Invoke cB) sample_in_flight = Some cfg1 /\
     log (st cfg1) = log (st sample_in_flight) /\
     step (H := sample) (FetchSettled 0 (sample_success "http://cdn.example/a0.mp3")) cfg1
       = Some cfg2 /\
     currentSong (st cfg2) = Some uA).
Proof.
  cbv zeta. split.
  - destruct (superseding_call_cancels_and_commits (H := sample) sample_in_flight
                (first_attempt
                   (sample_call sample_state (sample_song "A0" "wy") (Some 0) (Some 5) false) 0)
                (sample_call (st sample_in_flight) (sample_song "B0" "qq")
                   (Some 0) (Some 5) true)
                (or_introl eq_refl) (Nat.le_refl 1) (Nat.le_refl 1))
      as (cfg1 & Hstep & _ & Hacc).
    destruct (Hacc eq_refl) as (_ & _ & _ & Hheld).
    destruct (Hheld eq_refl) as (Hsince & Hab & _).
    exists cfg1. split; [exact Hstep|]. split; [exact Hsince|exact Hab].
  - destruct (superseding_call_cancels_and_commits (H := sample) sample_in_flight
                (first_attempt
                   (sample_call sample_state (sample_song "A0" "wy") (Some 0) (Some 5) false) 0)
                (sample_call (st sample_in_flight) (sample_song "B0" "qq")
                   (Some 0) (Some 5) false)
                (or_introl eq_refl) (Nat.le_refl 1) (Nat.le_refl 1))
      as (cfg1 & Hstep & Hrej & _).
    destruct (Hrej eq_refl) as (Hlog & _ & _ & _ & HA).
    destruct (HA _ (sample_success "http://cdn.example/a0.mp3") _
                eq_refl eq_refl eq_refl eq_refl)
      as (cfg2 & Hstep2 & _ & Hcur & _).
    exists cfg1, cfg2. eexists. split; [exact Hstep|]. split; [exact Hlog|].
    split; [exact Hstep2|exact Hcur].
Defined.

(** C1 as stated fails, in two ways.

    By the entry guard: while the resolution of "A0" is in flight, "B0" is
    asked for through the handler of the current render, not as a retry.  The
    render sees [isLoading], so the call returns at once: nothing is aborted
    and no request for "B0" is issued.  The fetch of "A0" then settles and
    "A0" is committed.

    By the [finally] block of an aborted resolution: "P0" is playing; "A0" and
    "B0" are asked for by handlers of the same render, so "B0" aborts "A0"
    and the ref holds the controller of "B0".  The aborted fetch of "A0"
    settles, and its [finally] block sets the ref to [null] and lowers
    [isLoading].  "C0" is then asked for through the handler of the new
    render while "B0" is still in flight: the call passes the guards, finds
    nothing in the ref and aborts nothing.  Both fetches settle, "C0" first:
    both songs are committed, and the current song at the end is "B0". *)
Lemma superseding_call_rejected_counterexample :
  (let cB := sample_call (st sample_in_flight) (sample_song "B0" "qq")
               (Some 0) (Some 5) false in
   let oA := sample_success "http://cdn.example/a0.mp3" in
   step (H := sample) (Invoke
       (sample_call sample_state (sample_song "A0" "wy") (Some 0) (Some 5) false))
       {| st := sample_state; pool := [] |} = Some sample_in_flight /\
   accepted cB (st sample_in_flight) = false /\
   exists cfg2 uA,
     run (H := sample) [Invoke cB; FetchSettled 0 oA] sample_in_flight = Some cfg2 /\
     log (st cfg2) =
       [Fetch "/api/sby?platform=wy&term=abc&index=0&quality=5" (Some 0);
        SetCurrentSong 0 uA] /\
     currentSong (st cfg2) = Some uA /\
     song_name uA = Some "A0" /\
     count (is_commit_of 0) (log (st cfg2)) = 1 /\
     count (is_commit_of 1) (log (st cfg2)) = 0) /\
  (let cA := sample_call sample_playing (sample_song "A0" "wy") (Some 0) (Some 5) false in
   let cB := sample_call sample_playing (sample_song "B0" "qq") (Some 0) (Some 5) false in
   let oB := Fulfilled (sample_detail_qq (Some "http://cdn.example/b0.mp3") []) in
   let oC := sample_success "http://cdn.example/c0.mp3" in
   exists cfg1,
     run (H := sample) [Invoke cA; Invoke cB; FetchSettled 0 sample_failure]
       {| st := sample_playing; pool := [] |} = Some cfg1 /\
     log (st cfg1) =
       [Fetch "/api/sby?platform=wy&term=abc&index=0&quality=5" (Some 0);
        Abort 0;
        Fetch "/api/sby?platform=qq&term=abc&index=0&quality=5" (Some 1)] /\
     map t_controller (pool cfg1) = [1] /\
     signal_aborted 1 (st cfg1) = false /\
     abortControllerRef (st cfg1) = None /\
     isLoading (st cfg1) = false /\
     let cC := sample_call (st cfg1) (sample_song "C0" "wy") (Some 0) (Some 5) false in
     accepted cC (st cfg1) = true /\
     exists cfg2 uB uC,
       run (H := sample) [Invoke cC; FetchSettled 2 oC; FetchSettled 1 oB] cfg1
         = Some cfg2 /\
       since (st cfg1) (st cfg2) =
         [Fetch "/api/sby?platform=wy&term=abc&index=0&quality=5" (Some 2);
          SetCurrentSong 2 uC;
          SetCurrentSong 1 uB] /\
       song_name uB = Some "B0" /\ song_name uC = Some "C0" /\
       currentSong (st cfg2) = Some uB).
Proof.
  split.
  - cbv zeta. split; [reflexivity|]. split; [reflexivity|].
    eexists _, _. split; [vm_compute; reflexivity|].
    repeat split; reflexivity.
  - cbv zeta. eexists. split; [vm_compute; reflexivity|].
    do 5 (split; [reflexivity|]). split; [reflexivity|].
    eexists _, _, _. split; [vm_compute; reflexivity|].
    repeat split; reflexivity.
Qed.

(** The boundaries of the validator on the sample host parser: a scheme that
    needs no authority is accepted without one, and a special scheme is
    accepted without the two slashes as long as a host follows. *)
Remark isValidUrl_accepts_without_slashes :
  isValidUrl (H := sample) "mailto:someone" = true /\
  isValidUrl (H := sample) "http:cdn.example/a0.mp3" = true /\
  isValidUrl (H := sample) "http://" = false /\
  isValidUrl (H := sample) "cdn.example/a0.mp3" = false.
Proof. repeat split; reflexivity. Qed.

(** * Further properties *)

(** ** SongIdentity and HistoryStore *)

Lemma eq_str_eq (a b : option string) : JS.eq_str a b = true <-> a = b.
Proof.
  destruct a as [x|], b as [y|]; simpl; try (split; congruence).
  rewrite String.eqb_eq. split; congruence.
Qed.

Lemma isSameSong_identity (a b : Song) :
  isSameSong a b = true <-> identity a = identity b.
Proof.
  unfold isSameSong, identity. rewrite !andb_true_iff, !eq_str_eq.
  split; [intros [[-> ->] ->]; reflexivity | intros [= -> -> ->]; auto].
Qed.

Lemma isSameSong_false_identity (a b : Song) :
  isSameSong a b = false <-> identity a <> identity b.
Proof.
  rewrite <- isSameSong_identity. destruct (isSameSong a b); split; congruence.
Qed.

Lemma isSameSong_sym (a b : Song) : isSameSong a b = isSameSong b a.
Proof.
  destruct (isSameSong b a) eqn:Hba.
  - apply isSameSong_identity. apply isSameSong_identity in Hba. congruence.
  - apply isSameSong_false_identity. apply isSameSong_false_identity in Hba. congruence.
Qed.

(** [isSameSong] is an equivalence: it holds exactly when name, singer and
    platform are equal (as values, with an absent property equal to an absent
    one only). *)
Theorem isSameSong_is_equivalence :
  (forall a, isSameSong a a = true) /\
  (forall a b, isSameSong a b = isSameSong b a) /\
  (forall a b c, isSameSong a b = true -> isSameSong b c = true -> isSameSong a c = true) /\
  (forall a b, isSameSong a b = true <->
               song_name a = song_name b /\ song_singer a = song_singer b /\
               song_platform a = song_platform b).
Proof.
  split; [|split; [|split]].
  - intros a. now apply isSameSong_identity.
  - apply isSameSong_sym.
  - intros a b c Hab Hbc. apply isSameSong_identity.
    apply isSameSong_identity in Hab, Hbc. congruence.
  - intros a b. rewrite isSameSong_identity. unfold identity.
    split; [intros [= -> -> ->]; auto | intros (-> & -> & ->); reflexivity].
Qed.

Lemma filter_idem {A} (p : A -> bool) (l : list A) :
  filter p (filter p l) = filter p l.
Proof.
  induction l as [|x l IH]; simpl; [reflexivity|].
  destruct (p x) eqn:Hp; simpl; [now rewrite Hp, IH | exact IH].
Qed.

Lemma filter_firstn_filter {A} (p : A -> bool) (n : nat) (l : list A) :
  filter p (firstn n (filter p l)) = firstn n (filter p l).
Proof.
  apply filter_all. apply forallb_forall. intros x Hx.
  apply In_firstn in Hx. now apply filter_In in Hx.
Qed.

Lemma not_same_simplified (cl : Closure) (song : Song) :
  negb (isSameSong (simplifiedSong cl song) song) = false.
Proof.
  apply negb_false_iff. change (isSameSong song song = true).
  now apply isSameSong_identity.
Qed.

(** Adding the same song twice in a row leaves the history as after the
    first add. *)
Theorem addToHistory_idempotent (cl : Closure) (song : Song) (prev : list Song) :
  addToHistory cl song (addToHistory cl song prev) = addToHistory cl song prev.
Proof.
  unfold addToHistory, MAX_HISTORY. change 50 with (S 49). rewrite !firstn_cons.
  cbn [filter]. rewrite not_same_simplified, filter_firstn_filter.
  now rewrite firstn_firstn, Nat.min_id.
Qed.

Lemma NoDup_identity_filter (p : Song -> bool) (l : list Song) :
  NoDup (map identity l) -> NoDup (map identity (filter p l)).
Proof.
  induction l as [|x l IH]; simpl; intros Hnd; [constructor|].
  inversion Hnd as [|? ? Hnotin Hnd']; subst.
  destruct (p x); simpl; auto. constructor; auto.
  intros Hin. apply Hnotin. apply in_map_iff in Hin as (y & Hy & Hin).
  apply filter_In in Hin as [Hin _]. rewrite <- Hy. now apply in_map.
Qed.

Lemma NoDup_identity_firstn (n : nat) (l : list Song) :
  NoDup (map identity l) -> NoDup (map identity (firstn n l)).
Proof.
  revert l; induction n as [|n IH]; intros [|x l] Hnd; simpl; try constructor.
  - inversion Hnd as [|? ? Hnotin Hnd']; subst. intros Hin. apply Hnotin.
    apply in_map_iff in Hin as (y & Hy & Hin). rewrite <- Hy.
    apply in_map. now apply In_firstn in Hin.
  - inversion Hnd; subst. now apply IH.
Qed.

Lemma identity_not_in_filter (song : Song) (l : list Song) :
  ~ In (identity song) (map identity (filter (fun s => negb (isSameSong s song)) l)).
Proof.
  intros Hin. apply in_map_iff in Hin as (y & Hy & Hin).
  apply filter_In in Hin as [_ Hns]. apply negb_true_iff in Hns.
  apply isSameSong_false_identity in Hns. congruence.
Qed.

Lemma map_identity_replace_same (u : Song) (l : list Song) :
  map identity (replace_same u l) = map identity l.
Proof.
  unfold replace_same. rewrite map_map. apply map_ext. intros s.
  destruct (isSameSong s u) eqn:Hs; [|reflexivity].
  apply isSameSong_identity in Hs. congruence.
Qed.

Lemma occurrences_filter_out (song : Song) (l : list Song) :
  occurrences song (filter (fun s => negb (isSameSong s song)) l) = 0.
Proof.
  unfold occurrences. induction l as [|x l IH]; simpl; [reflexivity|].
  destruct (isSameSong x song) eqn:Hx; simpl; [exact IH|]. now rewrite Hx.
Qed.

Lemma occurrences_firstn_zero (song : Song) (n : nat) (l : list Song) :
  occurrences song l = 0 -> occurrences song (firstn n l) = 0.
Proof.
  unfold occurrences. revert l; induction n as [|n IH]; intros [|x l]; simpl; auto.
  destruct (isSameSong x song); simpl; [discriminate|]. apply IH.
Qed.

Lemma NoDup_identity_addToHistory (cl : Closure) (song : Song) (prev : list Song) :
  NoDup (map identity prev) -> NoDup (map identity (addToHistory cl song prev)).
Proof.
  intros Hnd. unfold addToHistory. apply NoDup_identity_firstn.
  cbn [map]. constructor.
  - exact (identity_not_in_filter song prev).
  - now apply NoDup_identity_filter.
Qed.

Lemma length_addToHistory (cl : Closure) (song : Song) (prev : list Song) :
  length (addToHistory cl song prev) <= 50.
Proof. unfold addToHistory, MAX_HISTORY. rewrite length_firstn. lia. Qed.

Lemma occurrences_addToHistory (cl : Closure) (song : Song) (prev : list Song) :
  occurrences song (addToHistory cl song prev) = 1.
Proof.
  unfold addToHistory, MAX_HISTORY. change 50 with (S 49). rewrite firstn_cons.
  unfold occurrences. cbn [filter].
  assert (Hs : isSameSong (simplifiedSong cl song) song = true)
    by (change (isSameSong song song = true); now apply isSameSong_identity).
  rewrite Hs. cbn [length]. f_equal.
  apply (occurrences_firstn_zero song 49), occurrences_filter_out.
Qed.

(** The history keeps its invariant under every operation of the provider:
    if no two entries are the same song, this still holds after
    [addToHistory], after [removeFromHistory] and after the in-place
    replacement of [updateSongData]; none of them makes a history of at most
    50 entries longer than 50; and after an add, the added song is in the
    history exactly once. *)
Theorem history_invariant_kept (cl : Closure) (song : Song) (prev : list Song) :
  NoDup (map identity prev) ->
  length prev <= 50 ->
  (NoDup (map identity (addToHistory cl song prev)) /\
   length (addToHistory cl song prev) <= 50 /\
   occurrences song (addToHistory cl song prev) = 1) /\
  (NoDup (map identity (removeFromHistory song prev)) /\
   length (removeFromHistory song prev) <= 50 /\
   occurrences song (removeFromHistory song prev) = 0) /\
  (NoDup (map identity (replace_same song prev)) /\
   length (replace_same song prev) <= 50 /\
   occurrences song (replace_same song prev) = occurrences song prev).
Proof.
  intros Hnd Hlen. split; [|split].
  - split; [now apply NoDup_identity_addToHistory|].
    split; [apply length_addToHistory | apply occurrences_addToHistory].
  - unfold removeFromHistory. split; [now apply NoDup_identity_filter|].
    split; [|apply occurrences_filter_out].
    pose proof (filter_length_le (fun s => negb (isSameSong s song)) prev). lia.
  - split; [now rewrite map_identity_replace_same|].
    split; [unfold replace_same; rewrite length_map; lia|].
    unfold occurrences, replace_same. clear. induction prev as [|x l IH]; [reflexivity|].
    simpl. destruct (isSameSong x song) eqn:Hx.
    + assert (Hs : isSameSong song song = true) by now apply isSameSong_identity.
      rewrite Hs. simpl. now rewrite IH.
    + rewrite Hx. exact IH.
Qed.

Lemma history_invariant_kept_witness :
  NoDup (map identity (addToHistory (render sample_state) (sample_song "A0" "wy")
                         [sample_resolved "A0" "wy" "http://cdn.example/a0.mp3";
                          sample_resolved "B0" "qq" "http://cdn.example/b0.mp3"])).
Proof.
  refine (proj1 (proj1 (history_invariant_kept (render sample_state) (sample_song "A0" "wy")
            [sample_resolved "A0" "wy" "http://cdn.example/a0.mp3";
             sample_resolved "B0" "qq" "http://cdn.example/b0.mp3"] _ _))).
  - repeat constructor; simpl; intuition discriminate.
  - simpl. lia.
Defined.

(** Removing a song right after adding it gives the first 49 entries of the
    old history without that song; when the song was not in the history and
    the history had fewer than 50 entries, the history is as it was before the
    add. *)
Theorem removeFromHistory_undoes_add (cl : Closure) (song : Song) (prev : list Song) :
  removeFromHistory song (addToHistory cl song prev) =
    firstn 49 (removeFromHistory song prev) /\
  (occurrences song prev = 0 -> length prev < 50 ->
   removeFromHistory song (addToHistory cl song prev) = prev).
Proof.
  assert (Heq : removeFromHistory song (addToHistory cl song prev) =
                firstn 49 (removeFromHistory song prev)).
  { unfold removeFromHistory, addToHistory, MAX_HISTORY.
    change 50 with (S 49). rewrite firstn_cons. cbn [filter].
    now rewrite not_same_simplified, filter_firstn_filter. }
  split; [exact Heq|]. intros Hocc Hlen. rewrite Heq.
  assert (Hf : removeFromHistory song prev = prev).
  { unfold removeFromHistory. apply filter_all. apply forallb_forall. intros x Hx.
    apply negb_true_iff. destruct (isSameSong x song) eqn:Hs; [|reflexivity].
    exfalso. unfold occurrences in Hocc.
    assert (Hin : In x (filter (fun s => isSameSong s song) prev))
      by (apply filter_In; auto).
    destruct (filter (fun s => isSameSong s song) prev); [destruct Hin|discriminate]. }
  rewrite Hf. apply firstn_all2. lia.
Qed.

Lemma removeFromHistory_undoes_add_witness :
  removeFromHistory (sample_song "A0" "wy")
    (addToHistory (render sample_state) (sample_song "A0" "wy")
       [sample_resolved "B0" "qq" "http://cdn.example/b0.mp3"])
  = [sample_resolved "B0" "qq" "http://cdn.example/b0.mp3"].
Proof.
  refine (proj2 (removeFromHistory_undoes_add (render sample_state) (sample_song "A0" "wy")
            [sample_resolved "B0" "qq" "http://cdn.example/b0.mp3"]) _ _).
  - reflexivity.
  - simpl. lia.
Defined.

(** ** Propagation and the commit *)

Section Propagation.

Context `{Collaborators}.

Lemma nth_error_replace_same (u : Song) (l : list Song) (i : nat) :
  nth_error (replace_same u l) i =
  option_map (fun e => if isSameSong e u then u else e) (nth_error l i).
Proof. unfold replace_same. apply nth_error_map. Qed.

Lemma updateSongData_fields (c : Call) (u : Song) (s : State) :
  songs (updateSongData c u s) = replace_same u (songs s) /\
  playHistory (updateSongData c u s) = replace_same u (playHistory s) /\
  currentSong (updateSongData c u s) = currentSong s /\
  isPlaying (updateSongData c u s) = isPlaying s /\
  isLoading (updateSongData c u s) = isLoading s /\
  log (updateSongData c u s) = log s /\
  (existsb (fun song => isSameSong song u) (cl_playQueue (call_cl c)) = false ->
   playQueue (updateSongData c u s) = playQueue s).
Proof.
  unfold updateSongData.
  destruct (existsb _ (cl_playQueue (call_cl c))); cbn; repeat split; congruence.
Qed.

End Propagation.

(** [updateSongData] replaces in place: the search results and the history
    keep their length and the identity of the entry at every position; an
    entry that is the same song as the updated one becomes the updated song,
    every other entry stays as it was; the current song, the playing flag and
    the log are not touched, and the queue is not touched when the queue of
    the render does not hold the song. *)
Theorem updateSongData_replaces_in_place `{Collaborators} (c : Call) (u : Song) (s : State) :
  let s' := updateSongData c u s in
  map identity (songs s') = map identity (songs s) /\
  map identity (playHistory s') = map identity (playHistory s) /\
  (forall i, nth_error (songs s') i =
             option_map (fun e => if isSameSong e u then u else e) (nth_error (songs s) i)) /\
  (forall i, nth_error (playHistory s') i =
             option_map (fun e => if isSameSong e u then u else e)
               (nth_error (playHistory s) i)) /\
  currentSong s' = currentSong s /\ isPlaying s' = isPlaying s /\ log s' = log s /\
  (existsb (fun song => isSameSong song u) (cl_playQueue (call_cl c)) = false ->
   playQueue s' = playQueue s).
Proof.
  intros s'. unfold s'.
  destruct (updateSongData_fields c u s) as (-> & -> & -> & -> & _ & -> & Hq).
  rewrite !map_identity_replace_same.
  repeat split; auto using nth_error_replace_same.
Qed.

(** Whatever an attempt commits has passed the URL gate: the committed song
    has a non-empty [url] that [isValidUrl] accepts, it is the current song,
    and the newest history entry carries the same [url]; the search results
    and the older history entries keep their identities and positions. *)
Theorem committed_url_is_valid `{Collaborators}
    (t : Task) (url : string) (o : Settled DetailResponse) (s : State) (u : Song) :
  tryPlay_body (t_call t) url o = inr (Resolved u) ->
  let s' := fst (fst (tryPlay_resume t url o s)) in
  exists stream,
    song_url u = Some stream /\ stream <> "" /\ isValidUrl stream = true /\
    currentSong s' = Some u /\
    option_map song_url (hd_error (playHistory s')) = Some (Some stream) /\
    occurrences u (playHistory s') = 1 /\
    map identity (songs s') = map identity (songs s).
Proof.
  intros Hbody s'. unfold s'. rewrite (tryPlay_resume_commit _ _ _ _ _ Hbody). cbn [fst].
  destruct (tryPlay_body_resolved_inv _ _ _ _ Hbody) as (data & nu & _ & Hu & Hinv & _).
  unfold invalid_url in Hinv. apply orb_false_iff in Hinv as [Ht Hv].
  apply negb_false_iff in Ht, Hv.
  destruct nu as [stream|]; [|discriminate]. cbn in Ht, Hv.
  exists stream. split; [now rewrite Hu|]. split.
  { intros ->. discriminate. }
  split; [exact Hv|]. split; [reflexivity|].
  rewrite playHistory_commit. split; [|split].
  - unfold addToHistory, MAX_HISTORY. change 50 with (S 49). rewrite firstn_cons.
    cbn. now rewrite Hu.
  - apply occurrences_addToHistory.
  - unfold commit. cbn [songs setPlayHistory setIsPlaying emit setCurrentSong].
    destruct (updateSongData_fields (t_call t) u s) as (-> & _).
    apply map_identity_replace_same.
Qed.

Lemma committed_url_is_valid_witness :
  let c := sample_call sample_state (sample_song "A0" "wy") (Some 0) (Some 5) false in
  let o := sample_success "http://cdn.example/a0.mp3" in
  exists stream,
    option_map song_url
      (currentSong (fst (fst (tryPlay_resume (H := sample) (sample_task c)
                                (build_requestUrl c) o sample_state))))
    = Some (Some stream) /\
    isValidUrl (H := sample) stream = true.
Proof.
  cbv zeta.
  destruct (committed_url_is_valid (H := sample)
              (sample_task (sample_call sample_state (sample_song "A0" "wy")
                              (Some 0) (Some 5) false))
              (build_requestUrl
                 (sample_call sample_state (sample_song "A0" "wy") (Some 0) (Some 5) false))
              (sample_success "http://cdn.example/a0.mp3") sample_state _ eq_refl)
    as (stream & Hu & _ & Hv & Hc & _).
  exists stream. split; [|exact Hv]. rewrite Hc. cbn [option_map]. now rewrite Hu.
Defined.

(** ** The entry guards and the loading flag *)

Section EntryAndExit.

Context `{Collaborators}.

Lemma nth_app_false (k : nat) (flags : list bool) :
  nth k (flags ++ [false]) false = nth k flags false.
Proof.
  destruct (Nat.lt_ge_cases k (length flags)) as [Hlt|Hge].
  - now apply app_nth1.
  - rewrite app_nth2, (nth_overflow flags) by lia.
    destruct (k - length flags) as [|[|n]]; reflexivity.
Qed.

Lemma exhausted_not_loading (t : Task) (s : State) :
  isLoading (fst (exhausted t s)) = false.
Proof.
  unfold exhausted. cbn [fst].
  match goal with |- context [finally_block ?k ?s1] =>
    now destruct (finally_block_keeps k s1) as (_ & _ & _ & _ & _ & ->) end.
Qed.

Lemma on_timer_ends (t : Task) (s : State) :
  snd (on_timer t s) = None -> isLoading (fst (on_timer t s)) = false.
Proof.
  destruct (on_timer_cases t s) as [[_ ->]|[_ ->]]; [discriminate|].
  intros _. apply exhausted_not_loading.
Qed.

Lemma on_fetch_settled_ends (t : Task) (url : string) (o : Settled DetailResponse)
    (s : State) :
  snd (on_fetch_settled t url o s) = None ->
  isLoading (fst (on_fetch_settled t url o s)) = false.
Proof.
  unfold on_fetch_settled.
  destruct (tryPlay_resume t url _ s) as [[s1 success] lastError].
  destruct success; cbn [fst snd].
  - intros _. now destruct (finally_block_keeps (t_controller t) s1) as (_ & _ & _ & _ & _ & ->).
  - destruct (signal_aborted (t_controller t) s1); cbn [fst snd].
    + intros _.
      now destruct (finally_block_keeps (t_controller t) s1) as (_ & _ & _ & _ & _ & ->).
    + destruct (S (t_retryCount t) <? MAX_RETRIES) eqn:Hrc; [discriminate|].
      unfold while_head. cbn [t_retryCount]. rewrite Hrc.
      intros _. apply exhausted_not_loading.
Qed.

Lemma drive_ends_not_loading (fuel : nat) :
  forall (os : list (Settled DetailResponse)) (t : Task) (s s' : State),
    drive fuel os (s, Some t) = Some s' -> isLoading s' = false.
Proof.
  induction fuel as [|fuel IH]; intros os t s s' Hd; [discriminate|].
  cbn [drive snd fst] in Hd. destruct (t_await t) as [url|].
  - destruct os as [|o os]; [discriminate|].
    pose proof (on_fetch_settled_ends t url o s) as Hend.
    destruct (on_fetch_settled t url o s) as [s1 [t'|]]; cbn [fst snd] in *.
    + exact (IH os t' s1 s' Hd).
    + rewrite drive_done in Hd. injection Hd as <-. now apply Hend.
  - pose proof (on_timer_ends t s) as Hend.
    destruct (on_timer t s) as [s1 [t'|]]; cbn [fst snd] in *.
    + exact (IH os t' s1 s' Hd).
    + rewrite drive_done in Hd. injection Hd as <-. now apply Hend.
Qed.

Lemma on_fetch_settled_same (t : Task) (url : string) (o : Settled DetailResponse)
    (s : State) :
  signal_aborted (t_controller t) s = false ->
  tryPlay_body (t_call t) url o = inr SameUrl ->
  on_fetch_settled t url o s = (finally_block (t_controller t) s, None).
Proof.
  intros Hna Hb. unfold on_fetch_settled. rewrite Hna.
  now rewrite (tryPlay_resume_same t url o s Hb).
Qed.

Lemma on_fetch_settled_cors (t : Task) (url : string) (o : Settled DetailResponse)
    (s : State) (e : Error) :
  signal_aborted (t_controller t) s = false ->
  tryPlay_body (t_call t) url o = inl e -> is_cors e = true ->
  on_fetch_settled t url o s =
  let s1 := setIsPlaying false
              (emit (MessageError MSG_AUDIO_FAILED)
                 (emit (ConsoleError "CORS error detected:" e) s)) in
  let t' := {| t_call := t_call t; t_controller := t_controller t;
               t_retryCount := S (t_retryCount t); t_lastError := t_lastError t;
               t_await := AwaitDelay |} in
  if S (t_retryCount t) <? MAX_RETRIES then
    (emit (Delay (t_controller t) 1000)
       (emit (MessageInfo (MSG_RETRYING (S (t_retryCount t)) MAX_RETRIES)) s1), Some t')
  else while_head t' s1.
Proof.
  intros Hna Hb Hc. unfold on_fetch_settled. rewrite Hna.
  unfold tryPlay_resume. rewrite Hb, Hc. cbv zeta.
  change (signal_aborted (t_controller t)
            (setIsPlaying false
               (emit (MessageError MSG_AUDIO_FAILED)
                  (emit (ConsoleError "CORS error detected:" e) s))))
    with (signal_aborted (t_controller t) s).
  now rewrite Hna.
Qed.

Lemma drive_cors_round (c : Call) (k fuel : nat) (os : list (Settled DetailResponse))
    (o : Settled DetailResponse) (s : State) (rc : nat) (le : option Error) (e : Error) :
  signal_aborted k s = false ->
  tryPlay_body c (build_requestUrl c) o = inl e -> is_cors e = true ->
  S rc < MAX_RETRIES ->
  drive (S (S fuel)) (o :: os) (s, Some (attempt_task c k rc le)) =
  drive fuel os
    (emit (Fetch (build_requestUrl c) (Some k))
       (emit (Delay k 1000)
          (emit (MessageInfo (MSG_RETRYING (S rc) MAX_RETRIES))
             (setIsPlaying false
                (emit (MessageError MSG_AUDIO_FAILED)
                   (emit (ConsoleError "CORS error detected:" e) s))))),
     Some (attempt_task c k (S rc) le)).
Proof.
  intros Hna Hb Hc Hrc.
  change (drive (S (S fuel)) (o :: os) (s, Some (attempt_task c k rc le)))
    with (drive (S fuel) os
            (on_fetch_settled (attempt_task c k rc le) (build_requestUrl c) o s)).
  rewrite (on_fetch_settled_cors (attempt_task c k rc le) _ o s e Hna Hb Hc).
  cbv zeta. cbn [t_retryCount t_controller t_call t_lastError attempt_task].
  apply Nat.ltb_lt in Hrc. rewrite Hrc.
  cbn [drive snd fst t_await]. unfold on_timer, while_head, tryPlay_request.
  cbn [t_retryCount t_controller t_call t_lastError]. now rewrite Hrc.
Qed.

Lemma drive_last_cors (c : Call) (k fuel : nat) (os : list (Settled DetailResponse))
    (o : Settled DetailResponse) (s : State) (rc : nat) (e : Error) :
  signal_aborted k s = false ->
  tryPlay_body c (build_requestUrl c) o = inl e -> is_cors e = true ->
  MAX_RETRIES <= S rc ->
  drive (S fuel) (o :: os) (s, Some (attempt_task c k rc None)) =
  Some (finally_block k
          (emit (MessageError MSG_PLAY_FAILED)
             (emit (ConsoleError MSG_PLAY_FAILED_LOG (mkError MSG_PLAY_FAILED))
                (setIsPlaying false
                   (emit (MessageError MSG_AUDIO_FAILED)
                      (emit (ConsoleError "CORS error detected:" e) s)))))).
Proof.
  intros Hna Hb Hc Hrc.
  change (drive (S fuel) (o :: os) (s, Some (attempt_task c k rc None)))
    with (drive fuel os
            (on_fetch_settled (attempt_task c k rc None) (build_requestUrl c) o s)).
  rewrite (on_fetch_settled_cors (attempt_task c k rc None) _ o s e Hna Hb Hc).
  cbv zeta. cbn [t_retryCount t_controller t_call t_lastError attempt_task].
  apply Nat.ltb_ge in Hrc. rewrite Hrc.
  unfold while_head, exhausted. cbn [t_retryCount t_controller t_lastError]. rewrite Hrc.
  cbn [snd fst]. apply drive_done.
Qed.

End EntryAndExit.

(** An accepted call raises the loading flag before its first fetch, and
    every way out of the resolution lowers it again: when the resolution
    returns, on success, on failure or on cancellation, [isLoading] is
    [false]. *)
Theorem loading_flag_lowered_on_return `{Collaborators} (c : Call) (s : State) :
  accepted c s = true ->
  isLoading (fst (onPlaySong c s)) = true /\
  forall os s', resolve c os s = Some s' -> isLoading s' = false.
Proof.
  intros Hacc. rewrite (onPlaySong_accepted c s Hacc). split; [reflexivity|].
  intros os s' Hres. unfold resolve in Hres. rewrite (onPlaySong_accepted c s Hacc) in Hres.
  exact (drive_ends_not_loading _ _ _ _ _ Hres).
Qed.

Lemma loading_flag_lowered_on_return_witness :
  isLoading (fst (onPlaySong
    (sample_call sample_state (sample_song "A0" "wy") (Some 0) (Some 5) false)
    sample_state)) = true.
Proof.
  exact (proj1 (loading_flag_lowered_on_return (H := sample)
                  (sample_call sample_state (sample_song "A0" "wy") (Some 0) (Some 5) false)
                  sample_state eq_refl)).
Defined.

(** A call that the entry guards turn away does nothing: no resolution is
    started, nothing is logged (no abort, no fetch, no notice), and the songs,
    the current song, the flags, the history, the queue, the ref and the
    signal of every controller are as before. *)
Theorem rejected_call_does_nothing (c : Call) (s : State) :
  accepted c s = false ->
  let s' := fst (onPlaySong c s) in
  snd (onPlaySong c s) = None /\
  songs s' = songs s /\ currentSong s' = currentSong s /\
  isPlaying s' = isPlaying s /\ isLoading s' = isLoading s /\
  playHistory s' = playHistory s /\ playQueue s' = playQueue s /\
  abortControllerRef s' = abortControllerRef s /\ log s' = log s /\
  forall k, signal_aborted k s' = signal_aborted k s.
Proof.
  unfold accepted, onPlaySong. intros Hacc.
  destruct (cl_isLoading (call_cl c) && negb (call_isRetry c));
    [cbn; intuition reflexivity|].
  cbn [new_AbortController abortControllerRef setControllers negb andb] in *.
  destruct (abortControllerRef s) as [previous|] eqn:Href; [|discriminate].
  apply negb_false_iff in Hacc. rewrite Hacc. cbn [fst snd].
  do 7 (split; [reflexivity|]). split; [exact Href|]. split; [reflexivity|].
  intros k. unfold signal_aborted. cbn. apply nth_app_false.
Qed.

Lemma rejected_call_does_nothing_witness :
  log (fst (onPlaySong
         (sample_call (st sample_in_flight) (sample_song "B0" "qq") (Some 0) (Some 5) false)
         (st sample_in_flight)))
  = log (st sample_in_flight).
Proof.
  refine (proj1 (proj2 (proj2 (proj2 (proj2 (proj2 (proj2 (proj2 (proj2
    (rejected_call_does_nothing
       (sample_call (st sample_in_flight) (sample_song "B0" "qq") (Some 0) (Some 5) false)
       (st sample_in_flight) _)))))))))).
  reflexivity.
Defined.

(** When the fetch of the first attempt yields the URL that the current song
    of the render already has, the resolution ends after that one fetch: the
    URL is not validated, nothing is committed, no notice is shown, and the
    current song, the playing flag, the history and the search results stay
    as they were. *)
Theorem same_url_keeps_state `{Collaborators}
    (c : Call) (s : State) (o : Settled DetailResponse) (nu : option string)
    (os : list (Settled DetailResponse)) :
  accepted c s = true -> ref_exists s ->
  fetched_url c o = Some nu ->
  JS.eq_str (currentSong_url (cl_currentSong (call_cl c))) nu = true ->
  exists s',
    resolve c (o :: os) s = Some s' /\
    since s s' = prelude s ++ [Fetch (build_requestUrl c) (Some (length (controllers s)))] /\
    currentSong s' = currentSong s /\ isPlaying s' = isPlaying s /\
    playHistory s' = playHistory s /\ songs s' = songs s /\
    isLoading s' = false.
Proof.
  intros Hacc Href Hf Hsame.
  destruct (tryPlay_body_fetched c (build_requestUrl c) o nu Hf) as (data & _ & Hbody).
  rewrite Hsame in Hbody.
  pose proof (entered_not_aborted c s Href) as Hna.
  unfold resolve. rewrite (onPlaySong_accepted c s Hacc).
  change (drive (2 * MAX_RETRIES) (o :: os)
            (entered c s, Some (first_attempt c (length (controllers s)))))
    with (drive 5 os (on_fetch_settled (first_attempt c (length (controllers s)))
                        (build_requestUrl c) o (entered c s))).
  rewrite (on_fetch_settled_same (first_attempt c (length (controllers s))) _ o _ Hna Hbody).
  rewrite drive_done. eexists. split; [reflexivity|].
  cbn [first_attempt t_controller].
  destruct (finally_block_keeps (length (controllers s)) (entered c s))
    as (Hlog & -> & -> & -> & _ & ->).
  destruct (entered_keeps c s) as (-> & -> & -> & Hsongs).
  split; [apply since_app; rewrite Hlog; apply entered_log|].
  do 3 (split; [reflexivity|]). split; [|reflexivity].
  unfold finally_block. destruct (signal_aborted _ _); exact Hsongs.
Qed.

Lemma same_url_keeps_state_witness :
  let s := setCurrentSong (Some (sample_resolved "A0" "wy" "http://cdn.example/a0.mp3"))
             sample_state in
  let c := sample_call s (sample_song "A0" "wy") (Some 0) (Some 5) false in
  exists s',
    resolve (H := sample) c [sample_success "http://cdn.example/a0.mp3"] s = Some s' /\
    currentSong s' = currentSong s.
Proof.
  cbv zeta.
  destruct (same_url_keeps_state (H := sample)
              (sample_call
                 (setCurrentSong
                    (Some (sample_resolved "A0" "wy" "http://cdn.example/a0.mp3"))
                    sample_state)
                 (sample_song "A0" "wy") (Some 0) (Some 5) false)
              (setCurrentSong
                 (Some (sample_resolved "A0" "wy" "http://cdn.example/a0.mp3"))
                 sample_state)
              (sample_success "http://cdn.example/a0.mp3")
              (Some "http://cdn.example/a0.mp3") [] eq_refl I eq_refl eq_refl)
    as (s' & Hres & _ & Hcur & _).
  exists s'. split; [exact Hres | exact Hcur].
Defined.

(** Three cross-origin failures in a row: every one of them shows the audio
    error and sets [isPlaying] to [false], and none of them ends the loop.
    The retry notice and the wait follow the first and the second, three
    fetches are issued, no error is kept, and the notice after the third is
    the generic one; nothing is committed. *)
Theorem cross_origin_failures_use_all_attempts `{Collaborators}
    (c : Call) (s : State) (o1 o2 o3 : Settled DetailResponse) (e1 e2 e3 : Error) :
  accepted c s = true -> ref_exists s ->
  tryPlay_body c (build_requestUrl c) o1 = inl e1 -> is_cors e1 = true ->
  tryPlay_body c (build_requestUrl c) o2 = inl e2 -> is_cors e2 = true ->
  tryPlay_body c (build_requestUrl c) o3 = inl e3 -> is_cors e3 = true ->
  let k := length (controllers s) in
  let request := Fetch (build_requestUrl c) (Some k) in
  exists s',
    resolve c [o1; o2; o3] s = Some s' /\
    since s s' =
      prelude s ++ [request] ++ cors_notice e1 ++ retry_notice k 1 ++
      [request] ++ cors_notice e2 ++ retry_notice k 2 ++
      [request] ++ cors_notice e3 ++
      [ConsoleError MSG_PLAY_FAILED_LOG (mkError MSG_PLAY_FAILED);
       MessageError MSG_PLAY_FAILED] /\
    isPlaying s' = false /\ isLoading s' = false /\
    currentSong s' = currentSong s /\ playHistory s' = playHistory s.
Proof.
  intros Hacc Href Hb1 Hc1 Hb2 Hc2 Hb3 Hc3 k request.
  pose proof (entered_not_aborted c s Href) as Hna. fold k in Hna.
  pose proof (entered_log c s) as Hlog. fold k in Hlog.
  destruct (entered_keeps c s) as (Hcur & Hhist & _ & _).
  unfold resolve. rewrite (onPlaySong_accepted c s Hacc). fold k.
  change (first_attempt c k) with (attempt_task c k 0 None).
  change (2 * MAX_RETRIES) with 6.
  rewrite (drive_cors_round c k 4 _ o1 _ 0 None e1 Hna Hb1 Hc1)
    by (unfold MAX_RETRIES; lia).
  match goal with |- context [drive 4 _ (?s2, _)] =>
    assert (Hna2 : signal_aborted k s2 = false) by exact Hna end.
  rewrite (drive_cors_round c k 2 _ o2 _ 1 None e2 Hna2 Hb2 Hc2)
    by (unfold MAX_RETRIES; lia).
  match goal with |- context [drive 2 _ (?s3, _)] =>
    assert (Hna3 : signal_aborted k s3 = false) by exact Hna end.
  rewrite (drive_last_cors c k 1 _ o3 _ 2 e3 Hna3 Hb3 Hc3)
    by (unfold MAX_RETRIES; lia).
  eexists. split; [reflexivity|].
  match goal with |- since s (finally_block ?a ?b) = _ /\ _ =>
    destruct (finally_block_keeps a b) as (Hl & -> & -> & -> & _ & ->) end.
  split.
  - apply since_app. rewrite Hl. cbn [log emit setIsPlaying]. rewrite Hlog.
    unfold cors_notice, retry_notice, request. rewrite <- !app_assoc. reflexivity.
  - cbn [isPlaying currentSong playHistory emit setIsPlaying]. auto.
Qed.

Lemma cross_origin_failures_use_all_attempts_witness :
  exists s',
    resolve (H := sample)
      (sample_call sample_state (sample_song "A0" "wy") (Some 0) (Some 5) false)
      [sample_security_error; sample_security_error; sample_security_error] sample_state
    = Some s' /\
    isPlaying s' = false.
Proof.
  destruct (cross_origin_failures_use_all_attempts (H := sample)
              (sample_call sample_state (sample_song "A0" "wy") (Some 0) (Some 5) false)
              sample_state sample_security_error sample_security_error
              sample_security_error _ _ _ eq_refl I
              eq_refl eq_refl eq_refl eq_refl eq_refl eq_refl)
    as (s' & Hres & _ & Hp & _).
  exists s'. split; [exact Hres | exact Hp].
Defined.

(** ** Cancellation and the ref *)

(** The continuation of a resolution whose signal is aborted is silent: when
    its fetch settles, whatever the network answered, nothing is logged (no
    notice, no commit), the current song, the playing flag, the history and
    the search results stay, and the resolution ends.  Its [finally] block
    lowers the loading flag and clears the ref, whichever controller the ref
    holds and whether or not another resolution is still in flight. *)
Theorem aborted_continuation_is_silent `{Collaborators}
    (t : Task) (url : string) (o : Settled DetailResponse) (s : State) :
  signal_aborted (t_controller t) s = true ->
  let s' := fst (on_fetch_settled t url o s) in
  snd (on_fetch_settled t url o s) = None /\
  log s' = log s /\
  currentSong s' = currentSong s /\ isPlaying s' = isPlaying s /\
  playHistory s' = playHistory s /\ songs s' = songs s /\
  controllers s' = controllers s /\
  isLoading s' = false /\
  abortControllerRef s' = None.
Proof.
  intros Hab s'. unfold s'. rewrite (on_fetch_settled_aborted t url o s Hab).
  unfold finally_block. rewrite Hab. cbn. repeat split.
Qed.

Lemma aborted_continuation_is_silent_witness :
  abortControllerRef (st sample_superseded) = None /\
  map t_controller (pool sample_superseded) = [1].
Proof.
  split; [|reflexivity].
  pose proof (aborted_continuation_is_silent (H := sample)
    (first_attempt (sample_call sample_state (sample_song "A0" "wy") (Some 0) (Some 5) false) 0)
    (build_requestUrl
       (sample_call sample_state (sample_song "A0" "wy") (Some 0) (Some 5) false))
    sample_failure
    (entered (sample_call (st sample_in_flight) (sample_song "B0" "qq") (Some 0) (Some 5) true)
       (st sample_in_flight))
    eq_refl) as (_ & _ & _ & _ & _ & _ & _ & _ & Href).
  exact Href.
Defined.

Section TwoInFlight.

Context `{Collaborators}.

Lemma finally_block_not_aborted (k : nat) (s : State) :
  signal_aborted k s = false -> finally_block k s = setIsLoading false s.
Proof. unfold finally_block. now intros ->. Qed.

Lemma commit_keeps_signals (c : Call) (k j : nat) (u : Song) (s : State) :
  signal_aborted j (commit c k u s) = signal_aborted j s.
Proof. unfold signal_aborted. now rewrite commit_controllers. Qed.

End TwoInFlight.

(** With the ref cleared while resolution [B] is still in flight, a new call
    [C] finds nothing to abort: it logs no abort, [B]'s signal stays clear,
    and both resolutions commit, each when its fetch settles, the later one
    replacing the song of the earlier one. *)
Theorem cleared_ref_lets_two_resolutions_commit `{Collaborators}
    (cfg : Config) (B : Task) (urlB : string) (cC : Call)
    (oB oC : Settled DetailResponse) (uB uC : Song) :
  let s := st cfg in
  let b := t_controller B in
  let k := length (controllers s) in
  find_task b (pool cfg) = Some B ->
  t_await B = AwaitFetch urlB ->
  signal_aborted b s = false ->
  abortControllerRef s = None ->
  cl_isLoading (call_cl cC) && negb (call_isRetry cC) = false ->
  b < k ->
  tryPlay_body (t_call B) urlB oB = inr (Resolved uB) ->
  tryPlay_body cC (build_requestUrl cC) oC = inr (Resolved uC) ->
  exists cfg',
    run [Invoke cC; FetchSettled b oB; FetchSettled k oC] cfg = Some cfg' /\
    log (st cfg') =
      log s ++ [Fetch (build_requestUrl cC) (Some k); SetCurrentSong b uB;
                SetCurrentSong k uC] /\
    currentSong (st cfg') = Some uC.
Proof.
  intros s b k HB Haw Hnb Href Hguard Hlt HbB HbC.
  assert (Hacc : accepted cC s = true).
  { unfold accepted. rewrite Hguard, Href. reflexivity. }
  assert (Hent_ctrl : controllers (entered cC s) = controllers s ++ [false]).
  { rewrite entered_controllers. now rewrite Href. }
  assert (Hnb1 : signal_aborted b (entered cC s) = false).
  { unfold signal_aborted in *. rewrite Hent_ctrl, app_nth1 by exact Hlt. exact Hnb. }
  assert (Hnk1 : signal_aborted k (entered cC s) = false).
  { unfold signal_aborted. rewrite Hent_ctrl. apply nth_fresh_flag. }
  assert (Hkb : (k =? b) = false) by (apply Nat.eqb_neq; lia).
  cbn [run step]. fold s. rewrite (onPlaySong_accepted cC s Hacc). fold k.
  cbn [fst snd st pool].
  unfold find_task at 1. cbn [find first_attempt t_controller]. rewrite Hkb.
  fold (find_task b (pool cfg)). rewrite HB, Haw.
  fold b. rewrite (on_fetch_settled_commit B urlB oB (entered cC s) uB Hnb1 HbB).
  fold b. cbn [resume fst snd st pool].
  unfold remove_task at 1. cbn [filter first_attempt t_controller]. rewrite Hkb.
  cbn [negb]. unfold find_task at 1. cbn [find t_controller]. rewrite Nat.eqb_refl.
  change (t_await (first_attempt cC k)) with (AwaitFetch (build_requestUrl cC)).
  cbv beta iota.
  assert (Hnk2 : signal_aborted k
                   (finally_block b (commit (t_call B) b uB (entered cC s))) = false).
  { unfold signal_aborted.
    destruct (finally_block_keeps b (commit (t_call B) b uB (entered cC s)))
      as (_ & _ & _ & _ & -> & _).
    rewrite commit_controllers. exact Hnk1. }
  match goal with |- context [on_fetch_settled ?t ?u oC ?x] =>
    rewrite (on_fetch_settled_commit t u oC x uC
               (Hnk2 : signal_aborted (t_controller t) x = false)
               (HbC : tryPlay_body (t_call t) u oC = inr (Resolved uC))) end.
  eexists. split; [reflexivity|]. cbn [st resume fst t_call t_controller].
  match goal with |- log (finally_block ?a ?x) = _ /\ _ =>
    destruct (finally_block_keeps a x) as (-> & -> & _) end.
  rewrite log_commit.
  match goal with |- context [log (finally_block ?a ?x)] =>
    destruct (finally_block_keeps a x) as (-> & _) end.
  rewrite log_commit, entered_log. unfold prelude. fold s. rewrite Href.
  rewrite <- !app_assoc. split; reflexivity.
Qed.

Lemma cleared_ref_lets_two_resolutions_commit_witness :
  exists cfg',
    run (H := sample)
      [Invoke (sample_call (st sample_superseded) (sample_song "C0" "wy")
                 (Some 0) (Some 5) false);
       FetchSettled 1 (Fulfilled (sample_detail_qq (Some "http://cdn.example/b0.mp3") []));
       FetchSettled 2 (sample_success "http://cdn.example/c0.mp3")]
      sample_superseded = Some cfg' /\
    option_map song_name (currentSong (st cfg')) = Some (Some "C0") /\
    count (is_commit_of 1) (log (st cfg')) = 1 /\
    count (is_commit_of 2) (log (st cfg')) = 1.
Proof.
  destruct (cleared_ref_lets_two_resolutions_commit (H := sample) sample_superseded
              (first_attempt
                 (sample_call (st sample_in_flight) (sample_song "B0" "qq")
                    (Some 0) (Some 5) true) 1)
              _
              (sample_call (st sample_superseded) (sample_song "C0" "wy")
                 (Some 0) (Some 5) false)
              (Fulfilled (sample_detail_qq (Some "http://cdn.example/b0.mp3") []))
              (sample_success "http://cdn.example/c0.mp3") _ _
              eq_refl eq_refl eq_refl eq_refl eq_refl (Nat.le_refl 2) eq_refl eq_refl)
    as (cfg' & Hrun & Hlog & Hcur).
  exists cfg'. split; [exact Hrun|]. rewrite Hlog, Hcur. repeat split.
Defined.

(** ** Queue navigation *)

(** [playNextSong] and [playPreviousSong] with a neighbour that already has
    a [url] make it the current song and set [isPlaying], and do nothing else:
    no fetch, no URL validation, no history entry, no abort.  A resolution
    that is in flight is therefore not cancelled, and when its fetch settles
    with a song that resolves, that song replaces the one just chosen.
    Without a current song in the render both do nothing. *)
Theorem play_neighbour_with_url_skips_resolver `{Collaborators}
    (nav : Navigation) (cl : Closure) (s : State) :
  (cl_currentSong cl = None ->
   playNextSong nav cl s = (s, None) /\ playPreviousSong nav cl s = (s, None)) /\
  (forall current neighbour play,
     cl_currentSong cl = Some current ->
     (play = playNextSong /\ getNextSong nav (cl_playQueue cl) current = Some neighbour \/
      play = playPreviousSong /\
      getPreviousSong nav (cl_playQueue cl) current = Some neighbour) ->
     JS.truthy_str (song_url neighbour) = true ->
     let s1 := fst (play nav cl s) in
     snd (play nav cl s) = None /\
     currentSong s1 = Some neighbour /\ isPlaying s1 = true /\
     log s1 = log s /\ playHistory s1 = playHistory s /\ songs s1 = songs s /\
     isLoading s1 = isLoading s /\
     abortControllerRef s1 = abortControllerRef s /\ controllers s1 = controllers s /\
     forall A url o u,
       signal_aborted (t_controller A) s = false ->
       tryPlay_body (t_call A) url o = inr (Resolved u) ->
       currentSong (fst (on_fetch_settled A url o s1)) = Some u).
Proof.
  split.
  - intros Hcur. unfold playNextSong, playPreviousSong. now rewrite Hcur.
  - intros current neighbour play Hcur Hplay Hurl s1.
    assert (Heq : play nav cl s =
                  (setIsPlaying true (setCurrentSong (Some neighbour) s), None)).
    { destruct Hplay as [[-> Hn]|[-> Hn]];
        unfold playNextSong, playPreviousSong, play_or_resolve;
        now rewrite Hcur, Hn, Hurl. }
    unfold s1. rewrite Heq. cbn [fst snd]. do 9 (split; [reflexivity|]).
    intros A url o u Hna Hbody.
    rewrite (on_fetch_settled_commit A url o
               (setIsPlaying true (setCurrentSong (Some neighbour) s)) u Hna Hbody).
    cbn [fst].
    now destruct (finally_block_keeps (t_controller A)
                    (commit (t_call A) (t_controller A) u
                       (setIsPlaying true (setCurrentSong (Some neighbour) s))))
      as (_ & -> & _).
Qed.

Lemma play_neighbour_with_url_skips_resolver_witness :
  let queue := [sample_resolved "A0" "wy" "http://cdn.example/a0.mp3";
                sample_resolved "B0" "qq" "not a url"] in
  let s := setPlayQueue (fun _ => queue)
             (setCurrentSong (Some (sample_resolved "A0" "wy" "http://cdn.example/a0.mp3"))
                sample_state) in
  let s1 := fst (playNextSong sample_navigation (render s) s) in
  option_map song_url (currentSong s1) = Some (Some "not a url") /\
  playHistory s1 = [] /\ log s1 = [].
Proof.
  cbv zeta.
  destruct (proj2 (play_neighbour_with_url_skips_resolver (H := sample) sample_navigation
              (render (setPlayQueue
                         (fun _ => [sample_resolved "A0" "wy" "http://cdn.example/a0.mp3";
                                    sample_resolved "B0" "qq" "not a url"])
                         (setCurrentSong
                            (Some (sample_resolved "A0" "wy" "http://cdn.example/a0.mp3"))
                            sample_state)))
              (setPlayQueue
                 (fun _ => [sample_resolved "A0" "wy" "http://cdn.example/a0.mp3";
                            sample_resolved "B0" "qq" "not a url"])
                 (setCurrentSong
                    (Some (sample_resolved "A0" "wy" "http://cdn.example/a0.mp3"))
                    sample_state)))
              _ (sample_resolved "B0" "qq" "not a url") playNextSong
              eq_refl (or_introl (conj eq_refl eq_refl)) eq_refl)
    as (_ & Hcur & _ & Hlog & Hhist & _).
  rewrite Hcur, Hlog, Hhist. repeat split.
Defined.

(** A neighbour without a [url] is handed to [onPlaySong] as a fresh call
    with the neighbour's own [searchIndex] and the selected quality of the
    render; the auto-advance effect does the same as [playNextSong], and only
    when the render is neither playing nor loading and the audio has ended. *)
Theorem play_neighbour_without_url_resolves
    (nav : Navigation) (cl : Closure) (s : State) (current neighbour : Song) (ended : bool) :
  cl_currentSong cl = Some current ->
  getNextSong nav (cl_playQueue cl) current = Some neighbour ->
  JS.truthy_str (song_url neighbour) = false ->
  let call := {| call_cl := cl; call_song := neighbour;
                 call_index := song_searchIndex neighbour;
                 call_quality := cl_selectedQuality cl; call_isRetry := false |} in
  playNextSong nav cl s = onPlaySong call s /\
  (cl_isLoading cl = true -> playNextSong nav cl s = (s, None)) /\
  autoAdvance nav cl ended s =
    (if negb (cl_isPlaying cl) && negb (cl_isLoading cl) && ended
     then playNextSong nav cl s else (s, None)) /\
  (cl_isLoading cl = true \/ cl_isPlaying cl = true \/ ended = false ->
   autoAdvance nav cl ended s = (s, None)).
Proof.
  intros Hcur Hn Hurl call.
  assert (Heq : playNextSong nav cl s = onPlaySong call s).
  { unfold playNextSong, play_or_resolve. now rewrite Hcur, Hn, Hurl. }
  split; [exact Heq|]. split; [|split].
  - intros Hl. rewrite Heq. unfold onPlaySong. cbn [call_cl call_isRetry call].
    now rewrite Hl.
  - unfold autoAdvance, playNextSong. now rewrite Hcur.
  - intros Hor. unfold autoAdvance. rewrite Hcur.
    destruct Hor as [Hx | [Hx | Hx]]; rewrite Hx; cbn; rewrite ?andb_false_r; reflexivity.
Qed.

Lemma play_neighbour_without_url_resolves_witness :
  let queue := [sample_resolved "A0" "wy" "http://cdn.example/a0.mp3";
                sample_song "B0" "qq"] in
  let s := setPlayQueue (fun _ => queue)
             (setCurrentSong (Some (sample_resolved "A0" "wy" "http://cdn.example/a0.mp3"))
                sample_state) in
  playNextSong sample_navigation (render s) s =
  onPlaySong {| call_cl := render s; call_song := sample_song "B0" "qq";
                call_index := None; call_quality := Some 5; call_isRetry := false |} s.
Proof.
  cbv zeta.
  exact (proj1 (play_neighbour_without_url_resolves sample_navigation
    (render (setPlayQueue
               (fun _ => [sample_resolved "A0" "wy" "http://cdn.example/a0.mp3";
                          sample_song "B0" "qq"])
               (setCurrentSong (Some (sample_resolved "A0" "wy" "http://cdn.example/a0.mp3"))
                  sample_state)))
    (setPlayQueue
       (fun _ => [sample_resolved "A0" "wy" "http://cdn.example/a0.mp3";
                  sample_song "B0" "qq"])
       (setCurrentSong (Some (sample_resolved "A0" "wy" "http://cdn.example/a0.mp3"))
          sample_state))
    _ (sample_song "B0" "qq") true eq_refl eq_refl eq_refl)).
Defined.

(** ** Reachable configurations *)

Section WellFormed.

Context `{Collaborators}.

Lemma length_set_flag (i : nat) (flags : list bool) :
  length (set_flag i flags) = length flags.
Proof.
  revert i; induction flags as [|b flags IH]; intros [|i]; simpl; auto.
Qed.

Lemma entered_length (c : Call) (s : State) :
  length (controllers (entered c s)) = S (length (controllers s)).
Proof.
  rewrite entered_controllers. destruct (abortControllerRef s);
    rewrite ?length_set_flag, length_app; simpl; lia.
Qed.

Lemma entered_ref (c : Call) (s : State) :
  abortControllerRef (entered c s) = Some (length (controllers s)).
Proof. unfold entered. now destruct (abortControllerRef s). Qed.

Lemma commit_ref (c : Call) (k : nat) (u : Song) (s : State) :
  abortControllerRef (commit c k u s) = abortControllerRef s.
Proof.
  unfold commit, updateSongData.
  destruct (existsb _ (cl_playQueue (call_cl c))); reflexivity.
Qed.

Lemma finally_block_ref (k : nat) (s : State) :
  abortControllerRef (finally_block k s) = abortControllerRef s \/
  abortControllerRef (finally_block k s) = None.
Proof. unfold finally_block. destruct (signal_aborted k s); cbn; auto. Qed.

Lemma exhausted_ref (t : Task) (s : State) :
  abortControllerRef (fst (exhausted t s)) = abortControllerRef s \/
  abortControllerRef (fst (exhausted t s)) = None.
Proof.
  unfold exhausted. cbn [fst].
  match goal with |- context [finally_block ?k ?s1] =>
    destruct (finally_block_ref k s1) as [-> | ->]; [left | now right] end.
  now destruct (negb _).
Qed.

Lemma tryPlay_resume_ref (t : Task) (url : string) (o : Settled DetailResponse) (s : State) :
  abortControllerRef (fst (fst (tryPlay_resume t url o s))) = abortControllerRef s.
Proof.
  unfold tryPlay_resume.
  destruct (tryPlay_body (t_call t) url o) as [e|[|u]]; cbn [fst].
  - destruct (is_cors e); [reflexivity|].
    now destruct (String.eqb (err_name e) "AbortError").
  - reflexivity.
  - apply commit_ref.
Qed.

Lemma on_fetch_settled_ref (t : Task) (url : string) (o : Settled DetailResponse)
    (s : State) :
  abortControllerRef (fst (on_fetch_settled t url o s)) = abortControllerRef s \/
  abortControllerRef (fst (on_fetch_settled t url o s)) = None.
Proof.
  unfold on_fetch_settled.
  set (o' := if signal_aborted (t_controller t) s then RejectedWith AbortError else o).
  pose proof (tryPlay_resume_ref t url o' s) as Hr.
  destruct (tryPlay_resume t url o' s) as [[s1 success] lastError]. cbn [fst] in Hr.
  rewrite <- Hr. destruct success; cbn [fst]; [apply finally_block_ref|].
  destruct (signal_aborted (t_controller t) s1); cbn [fst]; [apply finally_block_ref|].
  destruct (S (t_retryCount t) <? MAX_RETRIES) eqn:Hrc; [now left|].
  unfold while_head. cbn [t_retryCount]. rewrite Hrc. apply exhausted_ref.
Qed.

Lemma on_timer_ref (t : Task) (s : State) :
  abortControllerRef (fst (on_timer t s)) = abortControllerRef s \/
  abortControllerRef (fst (on_timer t s)) = None.
Proof.
  destruct (on_timer_cases t s) as [[_ ->]|[_ ->]]; [now left | apply exhausted_ref].
Qed.

Lemma ref_exists_kept (s s' : State) :
  ref_exists s ->
  length (controllers s) <= length (controllers s') ->
  abortControllerRef s' = abortControllerRef s \/ abortControllerRef s' = None ->
  ref_exists s'.
Proof.
  unfold ref_exists. intros Hr Hlen [-> | ->]; [|exact I].
  destruct (abortControllerRef s); [lia | exact I].
Qed.

Lemma in_remove_task (k : nat) (tasks : list Task) (t : Task) :
  In t (remove_task k tasks) -> In t tasks /\ t_controller t <> k.
Proof.
  unfold remove_task. intros Hin. apply filter_In in Hin as [Hin Hk].
  split; [exact Hin|]. apply negb_true_iff, Nat.eqb_neq in Hk. exact Hk.
Qed.

Lemma NoDup_remove_task (k : nat) (tasks : list Task) :
  NoDup (map t_controller tasks) -> NoDup (map t_controller (remove_task k tasks)).
Proof.
  unfold remove_task. induction tasks as [|x l IH]; simpl; intros Hnd; [constructor|].
  inversion Hnd as [|? ? Hnotin Hnd']; subst.
  destruct (negb (t_controller x =? k)); simpl; auto. constructor; auto.
  intros Hin. apply Hnotin. apply in_map_iff in Hin as (y & Hy & Hin).
  apply filter_In in Hin as [Hin _]. rewrite <- Hy. now apply in_map.
Qed.

Lemma controller_not_in_remove_task (k : nat) (tasks : list Task) :
  ~ In k (map t_controller (remove_task k tasks)).
Proof.
  intros Hin. apply in_map_iff in Hin as (y & Hy & Hin).
  apply in_remove_task in Hin as [_ Hne]. congruence.
Qed.

Lemma find_task_in (k : nat) (tasks : list Task) (t : Task) :
  find_task k tasks = Some t -> In t tasks.
Proof. unfold find_task. intros Hf. now apply find_some in Hf. Qed.

Lemma well_formed_resume (cfg : Config) (k : nat) (t : Task) (r : State * option Task) :
  well_formed cfg ->
  find_task k (pool cfg) = Some t ->
  controllers (fst r) = controllers (st cfg) ->
  (abortControllerRef (fst r) = abortControllerRef (st cfg) \/
   abortControllerRef (fst r) = None) ->
  (forall t', snd r = Some t' ->
              t_controller t' = t_controller t /\ t_retryCount t' < MAX_RETRIES) ->
  well_formed (resume k r cfg).
Proof.
  intros (Href & Hpool & Hnd) Hfind Hctl Hr Ht'.
  pose proof (find_task_controller _ _ _ Hfind) as Hk.
  pose proof (find_task_in _ _ _ Hfind) as Hin.
  unfold well_formed, resume. cbn [st pool]. split; [|split].
  - apply (ref_exists_kept (st cfg)); [exact Href | rewrite Hctl; lia | exact Hr].
  - intros x Hx. rewrite Hctl.
    destruct (snd r) as [t'|] eqn:Hs.
    + destruct Hx as [<-|Hx].
      * destruct (Ht' t' eq_refl) as [Hc Hrc]. rewrite Hc.
        split; [apply (Hpool t Hin) | exact Hrc].
      * apply in_remove_task in Hx as [Hx _]. now apply Hpool.
    + apply in_remove_task in Hx as [Hx _]. now apply Hpool.
  - destruct (snd r) as [t'|] eqn:Hs.
    + cbn [map]. constructor.
      * destruct (Ht' t' eq_refl) as [Hc _]. rewrite Hc, Hk.
        apply controller_not_in_remove_task.
      * now apply NoDup_remove_task.
    + now apply NoDup_remove_task.
Qed.

Lemma onPlaySong_rejected_length (c : Call) (s : State) :
  accepted c s = false ->
  length (controllers s) <= length (controllers (fst (onPlaySong c s))).
Proof.
  unfold accepted, onPlaySong. intros Hacc.
  destruct (cl_isLoading (call_cl c) && negb (call_isRetry c)); [cbn; lia|].
  cbn [new_AbortController abortControllerRef setControllers negb andb] in *.
  destruct (abortControllerRef s) as [previous|] eqn:Href; [|discriminate].
  apply negb_false_iff in Hacc. rewrite Hacc. cbn. rewrite length_app. lia.
Qed.

Lemma well_formed_step (e : Event) (cfg cfg' : Config) :
  well_formed cfg -> step e cfg = Some cfg' -> well_formed cfg'.
Proof.
  intros Hwf Hstep. destruct e as [c|k o|k]; cbn [step] in Hstep.
  - injection Hstep as <-. destruct Hwf as (Href & Hpool & Hnd).
    destruct (accepted c (st cfg)) eqn:Hacc.
    + rewrite (onPlaySong_accepted c (st cfg) Hacc). cbn [fst snd].
      unfold well_formed. cbn [st pool]. split; [|split].
      * unfold ref_exists. rewrite entered_ref, entered_length. lia.
      * intros x [<-|Hx]; rewrite entered_length.
        -- cbn. unfold MAX_RETRIES. lia.
        -- destruct (Hpool x Hx). split; [lia | assumption].
      * cbn [map first_attempt t_controller]. constructor; [|exact Hnd].
        intros Hin. apply in_map_iff in Hin as (y & Hy & Hin).
        destruct (Hpool y Hin). lia.
    + destruct (onPlaySong_rejected c (st cfg) Hacc) as (Hnone & _ & _ & _ & Hr & _).
      pose proof (onPlaySong_rejected_length c (st cfg) Hacc) as Hlen.
      rewrite Hnone. unfold well_formed. cbn [st pool]. split; [|split].
      * apply (ref_exists_kept (st cfg)); [exact Href | exact Hlen | now left].
      * intros x Hx. destruct (Hpool x Hx). split; [lia | assumption].
      * exact Hnd.
  - destruct (find_task k (pool cfg)) as [t|] eqn:Hfind; [|discriminate].
    destruct (t_await t) as [url|]; [|discriminate].
    injection Hstep as <-.
    apply (well_formed_resume cfg k t _ Hwf Hfind).
    + apply on_fetch_settled_controllers.
    + apply on_fetch_settled_ref.
    + intros t' Ht'.
      destruct (on_fetch_settled_cases is_fetch t url o (st cfg)
                  (proj1 quiet_is_fetch) (proj2 quiet_is_fetch (t_controller t)))
        as (_ & _ & _ & [Hnone|(t'' & Hsome & _ & Hc & Hrc & Hlt)]).
      * congruence.
      * rewrite Hsome in Ht'. injection Ht' as <-. rewrite Hrc. auto.
  - destruct (find_task k (pool cfg)) as [t|] eqn:Hfind; [|discriminate].
    destruct (t_await t) as [url|]; [discriminate|].
    injection Hstep as <-.
    apply (well_formed_resume cfg k t _ Hwf Hfind).
    + now destruct (on_timer_keeps t (st cfg)) as [-> _].
    + apply on_timer_ref.
    + intros t' Ht'. destruct Hwf as (_ & Hpool & _).
      destruct (on_timer_cases t (st cfg)) as [[Hlt Heq]|[_ Heq]];
        rewrite Heq in Ht'; cbn [snd] in Ht'; [|discriminate].
      injection Ht' as <-. cbn. auto.
Qed.

End WellFormed.

(** The scheduler keeps its configurations well formed: from a state whose
    ref holds an existing controller (or none) and an empty pool, whatever
    calls are made and however fetches settle and timers fire, the ref always
    holds an existing controller, no two suspended resolutions share a
    controller, and every suspended resolution has made fewer than three
    attempts. *)
Theorem reachable_configurations_are_well_formed `{Collaborators}
    (es : list Event) (cfg cfg' : Config) :
  well_formed cfg -> run es cfg = Some cfg' -> well_formed cfg'.
Proof.
  revert cfg; induction es as [|e es IH]; intros cfg Hwf Hrun; cbn [run] in Hrun.
  - now injection Hrun as <-.
  - destruct (step e cfg) as [cfg1|] eqn:Hstep; [|discriminate].
    exact (IH cfg1 (well_formed_step e cfg cfg1 Hwf Hstep) Hrun).
Qed.

Lemma reachable_configurations_are_well_formed_witness :
  well_formed sample_superseded.
Proof.
  refine (reachable_configurations_are_well_formed (H := sample)
            [Invoke (sample_call sample_state (sample_song "A0" "wy") (Some 0) (Some 5) false);
             Invoke (sample_call (st sample_in_flight) (sample_song "B0" "qq")
                       (Some 0) (Some 5) true);
             FetchSettled 0 sample_failure]
            {| st := sample_state; pool := [] |} sample_superseded _ _).
  - split; [exact I|]. split; [intros t []|constructor].
  - vm_compute. reflexivity.
Defined.

(** ** ResultMerger and search, beyond the tagged concatenation *)

Section MergerGeneral.

Lemma interleave_perm {A} (a b : list A) : Permutation (interleave a b) (a ++ b).
Proof.
  revert b; induction a as [|x a IH]; intros [|y b]; cbn [interleave app].
  - constructor.
  - apply Permutation_refl.
  - rewrite app_nil_r. apply Permutation_refl.
  - apply perm_skip. apply Permutation_cons_app. apply IH.
Qed.

Lemma on_platform_exclusive (s : Obj) :
  on_platform "wy" s = true -> on_platform "qq" s = false.
Proof.
  unfold on_platform. intros Hwy. apply eq_str_eq in Hwy. now rewrite Hwy.
Qed.

Lemma filter_providers_perm (l : list Obj) :
  Permutation (filter (on_platform "wy") l ++ filter (on_platform "qq") l)
              (filter of_a_provider l).
Proof.
  unfold of_a_provider. induction l as [|x l IH]; cbn [filter]; [constructor|].
  destruct (on_platform "wy" x) eqn:Hwy.
  - rewrite (on_platform_exclusive x Hwy). cbn [orb app]. now apply perm_skip.
  - destruct (on_platform "qq" x); cbn [orb]; [|exact IH].
    apply Permutation_sym, Permutation_cons_app, Permutation_sym, IH.
Qed.

Lemma forallb_filter {A} (p : A -> bool) (l : list A) : forallb p (filter p l) = true.
Proof.
  apply forallb_forall. intros x Hx. now apply filter_In in Hx.
Qed.

Lemma forallb_filter_qq_not_wy (l : list Obj) :
  forallb (fun s => negb (on_platform "wy" s)) (filter (on_platform "qq") l) = true.
Proof.
  apply forallb_forall. intros x Hx. apply filter_In in Hx as [_ Hqq].
  destruct (on_platform "wy" x) eqn:Hwy; [|reflexivity].
  rewrite (on_platform_exclusive x Hwy) in Hqq. discriminate.
Qed.

Lemma forallb_filter_wy_not_qq (l : list Obj) :
  forallb (fun s => negb (on_platform "qq" s)) (filter (on_platform "wy") l) = true.
Proof.
  apply forallb_forall. intros x Hx. apply filter_In in Hx as [_ Hwy].
  now rewrite (on_platform_exclusive x Hwy).
Qed.

Lemma mapi_searchIndex_wy (k : nat) (A : list Song) :
  map song_searchIndex (mapi tag_wy k A) = map Some (seq k (length A)).
Proof. revert k; induction A as [|x A IH]; intros k; simpl; [|rewrite IH]; reflexivity. Qed.

Lemma mapi_searchIndex_qq (k : nat) (B : list Song) :
  map song_searchIndex (mapi tag_qq k B) = map Some (seq k (length B)).
Proof. revert k; induction B as [|x B IH]; intros k; simpl; [|rewrite IH]; reflexivity. Qed.

Lemma mapi_names_wy (k : nat) (A : list Song) :
  map identity (mapi tag_wy k A) =
  map (fun x => (JS.or_str (song_name x) (song_song x),
                 JS.or_str (song_singer x) (song_author x), Some "wy")) A.
Proof. revert k; induction A as [|x A IH]; intros k; simpl; [|rewrite IH]; reflexivity. Qed.

Lemma mapi_names_qq (k : nat) (B : list Song) :
  map identity (mapi tag_qq k B) =
  map (fun x => (song_song x, song_singer x, Some "qq")) B.
Proof. revert k; induction B as [|x B IH]; intros k; simpl; [|rewrite IH]; reflexivity. Qed.

Lemma merge_by_platform (A B : list Song) :
  filter (platform_is "wy") (merge A B) = mapi tag_wy 0 A /\
  filter (platform_is "qq") (merge A B) = mapi tag_qq 0 B.
Proof.
  destruct (tag_wy_platform 0 A) as [Ha Ha'], (tag_qq_platform 0 B) as [Hb Hb'].
  unfold merge. rewrite (merge_tagged _ _ Ha Ha' Hb Hb'). split.
  - now apply filter_interleave.
  - rewrite (filter_ext _ (fun s => negb (negb (platform_is "qq" s))))
      by (intros s; now rewrite negb_involutive).
    apply (filter_interleave (fun s => negb (platform_is "qq" s))); [exact Ha'|].
    now apply forallb_negb_negb.
Qed.

End MergerGeneral.

(** On any array of distinct objects [interleaveResults] returns the entries
    of the two providers, each once, and drops every entry of another
    platform; applied to its own result it changes nothing. *)
Theorem interleaveResults_keeps_providers_only (songs : list Obj) :
  NoDup (map fst songs) ->
  Permutation (interleaveResults songs) (filter of_a_provider songs) /\
  (forall s, In s (interleaveResults songs) <-> In s songs /\ of_a_provider s = true) /\
  length (interleaveResults songs) = length (filter of_a_provider songs) /\
  interleaveResults (interleaveResults songs) = interleaveResults songs.
Proof.
  intros Hnd.
  assert (Hperm : Permutation (interleaveResults songs) (filter of_a_provider songs)).
  { rewrite (interleaveResults_interleave songs Hnd).
    eapply Permutation_trans; [apply interleave_perm | apply filter_providers_perm]. }
  split; [exact Hperm|]. split; [|split].
  - intros s. rewrite <- filter_In. split; intros Hin.
    + exact (Permutation_in s Hperm Hin).
    + exact (Permutation_in s (Permutation_sym Hperm) Hin).
  - now apply Permutation_length.
  - assert (Hnd' : NoDup (map fst (interleaveResults songs))).
    { apply (Permutation_NoDup (l := map fst (filter of_a_provider songs))).
      - apply Permutation_sym, Permutation_map, Hperm.
      - now apply NoDup_fst_filter. }
    rewrite (interleaveResults_interleave _ Hnd').
    rewrite (interleaveResults_interleave songs Hnd).
    destruct (filter_interleave (on_platform "wy")
                (filter (on_platform "wy") songs) (filter (on_platform "qq") songs)
                (forallb_filter _ _) (forallb_filter_qq_not_wy songs)) as [-> _].
    destruct (filter_interleave (fun s => negb (on_platform "qq" s))
                (filter (on_platform "wy") songs) (filter (on_platform "qq") songs)
                (forallb_filter_wy_not_qq songs)
                (forallb_negb_negb _ _ (forallb_filter _ _))) as [_ Hq].
    rewrite (filter_ext (on_platform "qq") (fun s => negb (negb (on_platform "qq" s))))
      by (intros s; now rewrite negb_involutive).
    now rewrite Hq.
Qed.

Lemma interleaveResults_keeps_providers_only_witness :
  length (interleaveResults
            (alloc [sample_song "K0" "kg"; sample_song "B0" "qq"; sample_song "A0" "wy"]))
  = 2.
Proof.
  refine (eq_trans (proj1 (proj2 (proj2
    (interleaveResults_keeps_providers_only
       (alloc [sample_song "K0" "kg"; sample_song "B0" "qq"; sample_song "A0" "wy"]) _)))) _).
  - repeat constructor; simpl; intuition discriminate.
  - reflexivity.
Defined.

(** In the merged list every entry carries its rank in its own provider's
    response as [searchIndex], its provider as [platform], and the name and
    singer read from the provider's properties: [name || song] and
    [singer || author] for 'wy', [song] and [singer] for 'qq'. *)
Theorem merge_tags_rank_and_identity (A B : list Song) :
  map song_searchIndex (filter (platform_is "wy") (merge A B)) =
    map Some (seq 0 (length A)) /\
  map song_searchIndex (filter (platform_is "qq") (merge A B)) =
    map Some (seq 0 (length B)) /\
  map identity (filter (platform_is "wy") (merge A B)) =
    map (fun x => (JS.or_str (song_name x) (song_song x),
                   JS.or_str (song_singer x) (song_author x), Some "wy")) A /\
  map identity (filter (platform_is "qq") (merge A B)) =
    map (fun x => (song_song x, song_singer x, Some "qq")) B.
Proof.
  destruct (merge_by_platform A B) as [-> ->].
  repeat split; auto using mapi_searchIndex_wy, mapi_searchIndex_qq,
    mapi_names_wy, mapi_names_qq.
Qed.

(** A search whose term trims to the empty string does nothing at all: an
    empty term, or one of white space only, the white space of more than one
    byte included.  Any other search ends
    with [isSearching] lowered, has issued exactly the two provider requests,
    and touches nothing but the search results and the log: the current song,
    the playing and loading flags, the history, the queue and the ref stay as
    they were; the results are either replaced or, on failure, kept. *)
Theorem onSearch_blank_or_settled (cl : Closure) (wy qq : Settled SearchResponse) (s : State) :
  let s' := onSearch cl wy qq s in
  (JS.not_str (JS.trim (cl_searchTerm cl)) = true -> s' = s) /\
  (JS.not_str (JS.trim (cl_searchTerm cl)) = false ->
   isSearching s' = false /\
   count is_fetch (since s s') = 2 /\
   currentSong s' = currentSong s /\ isPlaying s' = isPlaying s /\
   isLoading s' = isLoading s /\ playHistory s' = playHistory s /\
   playQueue s' = playQueue s /\ abortControllerRef s' = abortControllerRef s /\
   ((exists merged, search_results wy qq = inr merged /\ songs s' = merged /\
                    count is_notice (since s s') = 0) \/
    (exists e, search_results wy qq = inl e /\ songs s' = songs s /\
               count is_notice (since s s') = 1))).
Proof.
  intros s'. unfold s', onSearch. split; intros Hterm; rewrite Hterm; [reflexivity|].
  destruct (search_results wy qq) as [e|merged]; cbn.
  - repeat split; try reflexivity.
    + erewrite since_app by (cbn; rewrite <- !app_assoc; reflexivity). reflexivity.
    + right. exists e. repeat split.
      erewrite since_app by (cbn; rewrite <- !app_assoc; reflexivity). reflexivity.
  - repeat split; try reflexivity.
    + erewrite since_app by (cbn; rewrite <- !app_assoc; reflexivity). reflexivity.
    + left. exists merged. repeat split.
      erewrite since_app by (cbn; rewrite <- !app_assoc; reflexivity). reflexivity.
Qed.

(** A provider response whose [data.data] is a single object instead of an
    array: from provider 'qq' it counts as a list of one item; from provider
    'wy' it makes [map] throw, and the whole search fails whatever provider
    'qq' returned. *)
Theorem single_object_response_by_provider (item : Song) (other : Settled SearchResponse) :
  qq_items (single_item item) = inr [tag_qq item 0] /\
  (forall r, search_results (Fulfilled r) (Fulfilled (single_item item)) =
             search_results (Fulfilled r) (Fulfilled (item_array [item]))) /\
  (exists e, search_results (Fulfilled (single_item item)) other = inl e) /\
  (forall cl s,
     JS.not_str (JS.trim (cl_searchTerm cl)) = false ->
     songs (onSearch cl (Fulfilled (single_item item)) other s) = songs s /\
     In (MessageError MSG_SEARCH_FAILED)
        (log (onSearch cl (Fulfilled (single_item item)) other s))).
Proof.
  split; [reflexivity|]. split; [reflexivity|].
  assert (He : exists e, search_results (Fulfilled (single_item item)) other = inl e).
  { destruct other as [r|e]; cbn; eauto. }
  split; [exact He|]. intros cl s Hterm. destruct He as [e He].
  unfold onSearch. rewrite Hterm, He. cbn. split; [reflexivity|].
  apply in_or_app. left. apply in_or_app. right. now left.
Qed.

Lemma single_object_response_by_provider_witness :
  songs (onSearch (render sample_state)
           (Fulfilled (single_item (sample_song "A0" "wy")))
           (Fulfilled (sample_search [sample_song "B0" "qq"])) sample_state)
  = [].
Proof.
  refine (proj1 (proj2 (proj2 (proj2
    (single_object_response_by_provider (sample_song "A0" "wy")
       (Fulfilled (sample_search [sample_song "B0" "qq"])))))
    (render sample_state) sample_state _)).
  reflexivity.
Defined.

(** ** Fetch descriptors of search results *)

(** The descriptor that [onPlaySong] fetches for a tagged search result that
    has no [requestUrl] names the result's platform and, for a rank above 0,
    the result's own rank, whatever [index] argument is passed.  Rank 0 is
    falsy in [song.searchIndex || index]: for the first result of either
    provider the descriptor carries the [index] argument instead. *)
Theorem descriptor_of_search_result
    (cl : Closure) (x : Song) (rank : nat) (index quality : option nat) (isRetry : bool) :
  JS.truthy_str (song_requestUrl x) = false ->
  let term := JS.or_str (song_searchTerm x) (Some (cl_searchTerm cl)) in
  build_requestUrl {| call_cl := cl; call_song := tag_wy x rank; call_index := index;
                      call_quality := quality; call_isRetry := isRetry |} =
    descriptor (Some "wy") term (descriptor_index rank index) quality /\
  build_requestUrl {| call_cl := cl; call_song := tag_qq x rank; call_index := index;
                      call_quality := quality; call_isRetry := isRetry |} =
    descriptor (Some "qq") term (descriptor_index rank index) quality.
Proof.
  intros Hno term. unfold build_requestUrl, descriptor_index.
  cbn [call_song call_cl call_index call_quality tag_wy tag_qq song_requestUrl
       song_platform song_searchTerm song_searchIndex].
  rewrite Hno. now destruct rank.
Qed.

Lemma descriptor_of_search_result_witness :
  build_requestUrl {| call_cl := render sample_state;
                      call_song := tag_qq (sample_song "B0" "qq") 0;
                      call_index := Some 1; call_quality := Some 5;
                      call_isRetry := false |}
  = "/api/sby?platform=qq&term=abc&index=1&quality=5".
Proof.
  refine (eq_trans (proj2 (descriptor_of_search_result (render sample_state)
            (sample_song "B0" "qq") 0 (Some 1) (Some 5) false _)) _);
    reflexivity.
Defined.

(** ** The URL gate *)

Section UrlGate.

Context `{Collaborators}.

Lemma is_special_not_file (scheme : string) :
  URL.is_special scheme = false -> String.eqb scheme "file" = false.
Proof.
  unfold URL.is_special. cbn [existsb]. intros Hs.
  destruct (String.eqb scheme "file"); [|reflexivity].
  now rewrite !orb_true_r in Hs.
Qed.

Lemma not_double_slash_is_opaque_or_path (rest : string) :
  prefix "//" rest = false ->
  match rest with
  | String "/" (String "/" s') => URL.parse_authority false s'
  | _ => true
  end = true.
Proof.
  destruct rest as [|d [|d2 r]]; intros Hp.
  - reflexivity.
  - destruct d as [[] [] [] [] [] [] [] []]; reflexivity.
  - destruct (Ascii.eqb_spec d "/") as [->|Hd].
    + destruct (Ascii.eqb_spec d2 "/") as [->|Hd2].
      * cbn in Hp. now destruct r.
      * destruct d2 as [[] [] [] [] [] [] [] []]; try reflexivity.
        now contradiction Hd2.
    + destruct d as [[] [] [] [] [] [] [] []]; try reflexivity.
      now contradiction Hd.
Qed.

End UrlGate.

(** The URL gate does not look at which scheme a stream URL has: any text
    that starts with a scheme other than the special ones ([http], [https],
    [ws], [wss], [ftp], [file]) and does not go on with two slashes passes
    [isValidUrl], whatever follows and whatever the host parser accepts. *)
Theorem isValidUrl_accepts_any_other_scheme `{Collaborators}
    (url : string) (c : ascii) (sch rest : string) :
  URL.preprocess url = String c (sch ++ ":" ++ rest) ->
  JS.is_alpha c = true ->
  JS.all_chars URL.is_scheme_char sch = true ->
  URL.is_special (lower (String c sch)) = false ->
  prefix "//" rest = false ->
  isValidUrl url = true.
Proof.
  intros Hpre Ha Hall Hspecial Hrest.
  unfold isValidUrl, URL.new_URL, URL.basic_url_parser. rewrite Hpre.
  change (URL.scheme_start_state (String c (sch ++ ":" ++ rest)))
    with (if JS.is_alpha c
          then URL.scheme_state (String c sch ++ ":" ++ rest)
          else None).
  rewrite Ha, scheme_state_app
    by (simpl; now rewrite (alpha_scheme_char c Ha), Hall).
  rewrite (is_special_not_file _ Hspecial), Hspecial.
  now rewrite (not_double_slash_is_opaque_or_path rest Hrest).
Qed.

Lemma isValidUrl_accepts_any_other_scheme_witness :
  isValidUrl (H := sample) "javascript:alert(1)" = true.
Proof.
  refine (isValidUrl_accepts_any_other_scheme (H := sample) "javascript:alert(1)"
            "j" "avascript" "alert(1)" _ _ _ _ _); reflexivity.
Defined.

(** ** Resolutions that fail, and the first attempt that succeeds *)

Section FailedAttempts.

Context `{Collaborators}.

Lemma filter_not_same_replace_same (u : Song) (l : list Song) :
  filter (fun s => negb (isSameSong s u)) (replace_same u l) =
  filter (fun s => negb (isSameSong s u)) l.
Proof.
  unfold replace_same. induction l as [|x l IH]; [reflexivity|]. cbn [map filter].
  destruct (isSameSong x u) eqn:Hx.
  - assert (Hu : isSameSong u u = true) by now apply isSameSong_identity.
    rewrite Hu. cbn [negb]. exact IH.
  - rewrite Hx. cbn [negb]. now rewrite IH.
Qed.

Lemma tryPlay_resume_failed (t : Task) (url : string) (o : Settled DetailResponse)
    (s : State) (e : Error) :
  tryPlay_body (t_call t) url o = inl e ->
  let r := tryPlay_resume t url o s in
  snd (fst r) = false /\
  currentSong (fst (fst r)) = currentSong s /\
  playHistory (fst (fst r)) = playHistory s /\
  songs (fst (fst r)) = songs s /\
  exists evs, log (fst (fst r)) = log s ++ evs /\ count is_commit evs = 0.
Proof.
  intros Hb. unfold tryPlay_resume. rewrite Hb. cbv zeta.
  destruct (is_cors e).
  - cbn. do 4 (split; [reflexivity|]). eexists. rewrite <- app_assoc.
    split; reflexivity.
  - destruct (String.eqb (err_name e) "AbortError"); cbn;
      (do 4 (split; [reflexivity|])); exists []; now rewrite app_nil_r.
Qed.

Lemma exhausted_no_commit (t : Task) (s : State) :
  exists evs, log (fst (exhausted t s)) = log s ++ evs /\ count is_commit evs = 0.
Proof.
  destruct (exhausted_log is_commit t s) as (_ & evs & Hl & Hc); [now repeat split|].
  now exists evs.
Qed.

Lemma on_fetch_settled_failed (t : Task) (url : string) (o : Settled DetailResponse)
    (s : State) (e : Error) :
  tryPlay_body (t_call t) url o = inl e ->
  let r := on_fetch_settled t url o s in
  currentSong (fst r) = currentSong s /\
  playHistory (fst r) = playHistory s /\
  (exists evs, log (fst r) = log s ++ evs /\ count is_commit evs = 0) /\
  forall t', snd r = Some t' -> t_call t' = t_call t.
Proof.
  intros Hb. unfold on_fetch_settled.
  set (o' := if signal_aborted (t_controller t) s then RejectedWith AbortError else o).
  assert (Hb' : exists e', tryPlay_body (t_call t) url o' = inl e').
  { unfold o'. destruct (signal_aborted (t_controller t) s); [now exists AbortError|eauto]. }
  destruct Hb' as [e' Hb'].
  destruct (tryPlay_resume_failed t url o' s e' Hb') as (Hs & Hc & Hh & _ & evs & Hl & Hn).
  cbv zeta in *. destruct (tryPlay_resume t url o' s) as [[s1 success] lastError].
  cbn [fst snd] in *. subst success.
  destruct (signal_aborted (t_controller t) s1).
  - cbn [fst snd]. destruct (finally_block_keeps (t_controller t) s1) as (-> & -> & -> & _).
    repeat split; eauto. discriminate.
  - destruct (S (t_retryCount t) <? MAX_RETRIES) eqn:Hrc.
    + cbn [fst snd emit currentSong playHistory log]. repeat split; auto.
      * eexists. rewrite Hl, <- !app_assoc. split; [reflexivity|].
        rewrite count_app, Hn. reflexivity.
      * now intros t' [= <-].
    + unfold while_head. cbn [t_retryCount]. rewrite Hrc.
      match goal with |- context [exhausted ?t' s1] =>
        destruct (exhausted_no_commit t' s1) as (evs' & Hl' & Hn');
        destruct (exhausted_keeps t' s1) as (_ & Hc' & Hh') end.
      rewrite Hc', Hh', Hl', Hl, <- app_assoc. repeat split; auto.
      * exists (evs ++ evs'). split; [reflexivity|]. rewrite count_app. lia.
      * cbn. discriminate.
Qed.

Lemma on_timer_no_commit (t : Task) (s : State) :
  (exists evs, log (fst (on_timer t s)) = log s ++ evs /\ count is_commit evs = 0) /\
  forall t', snd (on_timer t s) = Some t' -> t_call t' = t_call t.
Proof.
  destruct (on_timer_cases t s) as [[_ ->]|[_ ->]]; cbn [fst snd].
  - split; [eexists; split; reflexivity|]. now intros t' [= <-].
  - split; [apply exhausted_no_commit|]. cbn. discriminate.
Qed.

Lemma drive_failed (c : Call) (fuel : nat) :
  forall (os : list (Settled DetailResponse)) (t : Task) (s s' : State),
    t_call t = c ->
    forallb (attempt_fails c) os = true ->
    match t_await t with
    | AwaitFetch url => url = build_requestUrl c
    | AwaitDelay => True
    end ->
    drive fuel os (s, Some t) = Some s' ->
    currentSong s' = currentSong s /\ playHistory s' = playHistory s /\
    exists evs, log s' = log s ++ evs /\ count is_commit evs = 0.
Proof.
  induction fuel as [|fuel IH]; intros os t s s' Hc Hos Hurl Hd; [discriminate|].
  cbn [drive snd fst] in Hd. destruct (t_await t) as [url|] eqn:Haw.
  - destruct os as [|o os]; [discriminate|].
    cbn [forallb] in Hos. apply andb_true_iff in Hos as [Ho Hos].
    subst url. unfold attempt_fails in Ho.
    destruct (tryPlay_body c (build_requestUrl c) o) as [e|] eqn:Hb; [|discriminate].
    rewrite <- Hc in Hb at 1.
    destruct (on_fetch_settled_failed t (build_requestUrl c) o s e Hb)
      as (Hcur & Hhist & (evs & Hl & Hn) & Ht').
    destruct (on_fetch_settled_cases is_fetch t (build_requestUrl c) o s
                (proj1 quiet_is_fetch) (proj2 quiet_is_fetch (t_controller t)))
      as (_ & _ & _ & Hcase).
    cbv zeta in *.
    destruct (on_fetch_settled t (build_requestUrl c) o s) as [s1 [t'|]];
      cbn [fst snd] in *.
    + destruct Hcase as [Hcase|(t'' & Hs & Ha & _)]; [discriminate|].
      injection Hs as <-.
      destruct (IH os t' s1 s') as (Hcur' & Hhist' & evs' & Hl' & Hn').
      * rewrite (Ht' t' eq_refl). exact Hc.
      * exact Hos.
      * now rewrite Ha.
      * exact Hd.
      * rewrite Hcur', Hhist', Hcur, Hhist. do 2 (split; [reflexivity|]).
        exists (evs ++ evs'). rewrite Hl', Hl, <- app_assoc. split; [reflexivity|].
        rewrite count_app. lia.
    + rewrite drive_done in Hd. injection Hd as <-. rewrite Hcur, Hhist. eauto.
  - destruct (on_timer_no_commit t s) as ((evs & Hl & Hn) & Ht').
    destruct (on_timer_keeps t s) as (_ & Hcur & Hhist).
    pose proof (on_timer_cases t s) as Hcase.
    destruct (on_timer t s) as [s1 [t'|]] eqn:Hon; cbn [fst snd] in *.
    + destruct (IH os t' s1 s') as (Hcur' & Hhist' & evs' & Hl' & Hn').
      * rewrite (Ht' t' eq_refl). exact Hc.
      * exact Hos.
      * destruct Hcase as [[_ Heq]|[_ Heq]].
        -- injection Heq as _ ->. cbn [t_await]. now rewrite Hc.
        -- discriminate Heq.
      * exact Hd.
      * rewrite Hcur', Hhist', Hcur, Hhist. do 2 (split; [reflexivity|]).
        exists (evs ++ evs'). rewrite Hl', Hl, <- app_assoc. split; [reflexivity|].
        rewrite count_app. lia.
    + rewrite drive_done in Hd. injection Hd as <-. rewrite Hcur, Hhist. eauto.
Qed.

Lemma on_fetch_settled_commit_history (c : Call) (k : nat) (u : Song) (s : State) :
  playHistory (commit c k u s) = addToHistory (call_cl c) u (playHistory s).
Proof.
  rewrite playHistory_commit. unfold addToHistory.
  now rewrite filter_not_same_replace_same.
Qed.

End FailedAttempts.

(** A resolution none of whose attempts succeeds, for whatever reasons,
    never sets the current song and never writes history: when it returns,
    both are as before the call and no commit is in the log. *)
Theorem failed_resolution_commits_nothing `{Collaborators}
    (c : Call) (os : list (Settled DetailResponse)) (s s' : State) :
  forallb (attempt_fails c) os = true ->
  resolve c os s = Some s' ->
  currentSong s' = currentSong s /\ playHistory s' = playHistory s /\
  count is_commit (since s s') = 0.
Proof.
  intros Hos Hres. unfold resolve in Hres. destruct (accepted c s) eqn:Hacc.
  - rewrite (onPlaySong_accepted c s Hacc) in Hres.
    destruct (drive_failed c _ os (first_attempt c (length (controllers s))) _ _
                eq_refl Hos eq_refl Hres)
      as (Hcur & Hhist & evs & Hl & Hn).
    destruct (entered_keeps c s) as (Hc & Hh & _).
    rewrite Hcur, Hhist, Hc, Hh. do 2 (split; [reflexivity|]).
    rewrite entered_log, <- app_assoc in Hl. rewrite (since_app _ _ _ Hl).
    rewrite !count_app, Hn. unfold prelude.
    destruct (abortControllerRef s); reflexivity.
  - destruct (onPlaySong_rejected c s Hacc) as (Hnone & Hlog & Hc & Hh & _).
    destruct (onPlaySong c s) as [s1 ot]. cbn [fst snd] in *. subst ot.
    rewrite drive_done in Hres. injection Hres as <-.
    rewrite Hc, Hh. do 2 (split; [reflexivity|]).
    rewrite (since_app s s1 []) by now rewrite app_nil_r. reflexivity.
Qed.

Lemma failed_resolution_commits_nothing_witness :
  exists s',
    resolve (H := sample)
      (sample_call sample_state (sample_song "A0" "wy") (Some 0) (Some 5) false)
      [sample_failure; sample_security_error;
       Fulfilled (sample_detail_wy (Some "not a url") [])] sample_state = Some s' /\
    currentSong s' = None /\ playHistory s' = [].
Proof.
  eexists. split; [vm_compute; reflexivity|].
  match goal with |- currentSong ?s' = _ /\ _ =>
    destruct (failed_resolution_commits_nothing (H := sample)
                (sample_call sample_state (sample_song "A0" "wy") (Some 0) (Some 5) false)
                [sample_failure; sample_security_error;
                 Fulfilled (sample_detail_wy (Some "not a url") [])]
                sample_state s' eq_refl eq_refl) as (Hc & Hh & _) end.
  split; [exact Hc | exact Hh].
Defined.

(** When the first attempt of an accepted call resolves a song, the
    resolution ends after that one fetch: the song is the current song,
    [isPlaying] is [true] for a fresh call and the flag of the render for a
    retry, the loading flag is lowered, no notice is shown, the ref keeps the
    controller of the finished resolution, and the history is the old history
    with the song added: the in-place replacement that [updateSongData] makes
    in the history does not show in the result. *)
Theorem first_attempt_success_commits `{Collaborators}
    (c : Call) (s : State) (o : Settled DetailResponse)
    (os : list (Settled DetailResponse)) (u : Song) :
  accepted c s = true -> ref_exists s ->
  tryPlay_body c (build_requestUrl c) o = inr (Resolved u) ->
  let k := length (controllers s) in
  exists s',
    resolve c (o :: os) s = Some s' /\
    since s s' = prelude s ++ [Fetch (build_requestUrl c) (Some k); SetCurrentSong k u] /\
    currentSong s' = Some u /\
    isPlaying s' = (if call_isRetry c then cl_isPlaying (call_cl c) else true) /\
    isLoading s' = false /\
    abortControllerRef s' = Some k /\
    playHistory s' = addToHistory (call_cl c) u (playHistory s) /\
    songs s' = replace_same u (songs s).
Proof.
  intros Hacc Href Hbody k.
  pose proof (entered_not_aborted c s Href) as Hna. fold k in Hna.
  unfold resolve. rewrite (onPlaySong_accepted c s Hacc). fold k.
  change (drive (2 * MAX_RETRIES) (o :: os) (entered c s, Some (first_attempt c k)))
    with (drive 5 os (on_fetch_settled (first_attempt c k) (build_requestUrl c) o
                        (entered c s))).
  rewrite (on_fetch_settled_commit (first_attempt c k) _ o _ u Hna Hbody).
  rewrite drive_done. eexists. split; [reflexivity|].
  cbn [first_attempt t_controller t_call].
  assert (Hna2 : signal_aborted k (commit c k u (entered c s)) = false).
  { unfold signal_aborted in *. now rewrite commit_controllers. }
  unfold finally_block. rewrite Hna2.
  cbn [log currentSong isPlaying isLoading abortControllerRef playHistory songs setIsLoading].
  destruct (entered_keeps c s) as (_ & Hhist & _ & Hsongs).
  split.
  { apply since_app. cbn [log setIsLoading].
    rewrite log_commit, entered_log. now rewrite <- !app_assoc. }
  do 3 (split; [reflexivity|]). split; [|split].
  - now rewrite commit_ref, entered_ref.
  - now rewrite on_fetch_settled_commit_history, Hhist.
  - rewrite <- Hsongs. unfold commit, updateSongData.
    destruct (existsb _ (cl_playQueue (call_cl c))); reflexivity.
Qed.

Lemma first_attempt_success_commits_witness :
  exists s',
    resolve (H := sample)
      (sample_call sample_state (sample_song "A0" "wy") (Some 0) (Some 5) false)
      [sample_success "http://cdn.example/a0.mp3"] sample_state = Some s' /\
    isPlaying s' = true /\ length (playHistory s') = 1.
Proof.
  destruct (first_attempt_success_commits (H := sample)
              (sample_call sample_state (sample_song "A0" "wy") (Some 0) (Some 5) false)
              sample_state (sample_success "http://cdn.example/a0.mp3") [] _
              eq_refl I eq_refl)
    as (s' & Hres & _ & _ & Hp & _ & _ & Hh & _).
  exists s'. split; [exact Hres|]. rewrite Hp, Hh. split; reflexivity.
Defined.
